(** * Ticket-lifecycle orchestration of the agent package

    A shallow embedding of [internal/agent/agent.go] and
    [internal/agent/engmanager.go]: the task-block parser, the reply poll,
    the child-ticket creation loop, the assignment scan and the guidance
    loader, together with the parts of Go's [strings], [unicode/utf8] and
    [unicode] packages those functions call. *)

From Stdlib Require Import List Ascii String NArith ZArith Lia Bool Arith.
Import ListNotations.

Set Implicit Arguments.

(** [length] is the length of a list throughout. *)
Abbreviation length := Datatypes.length (only parsing).

(** ** Go strings

    A Go string is a sequence of bytes.  Literals are written [str "..."]. *)

Definition gostring := list ascii.

Definition str (s : string) : gostring := list_ascii_of_string s.

Definition byteval (c : ascii) : N := N_of_ascii c.

Definition gostring_eqb (a b : gostring) : bool :=
  if list_eq_dec ascii_dec a b then true else false.

Definition isEmpty (s : gostring) : bool :=
  match s with [] => true | _ :: _ => false end.

(** The newline byte, '\n'. *)
Definition nl : ascii := "010"%char.

(** ** unicode/utf8 *)

Module utf8.

Local Open Scope N_scope.

Definition RuneError : N := 0xFFFD.
Definition RuneSelf : N := 0x80.
Definition UTFMax : nat := 4%nat.

(** One entry of the table [first]: an ASCII byte, an invalid lead byte, or
    a lead byte with the size of its sequence and the range accepted for the
    second byte ([acceptRanges]). *)
Inductive firstInfo : Type :=
| AsciiByte
| InvalidByte
| Lead (sz : nat) (lo hi : N).

Definition first (b : N) : firstInfo :=
  if b <? 0x80 then AsciiByte
  else if b <? 0xC2 then InvalidByte
  else if b <? 0xE0 then Lead 2 0x80 0xBF
  else if b =? 0xE0 then Lead 3 0xA0 0xBF
  else if b <? 0xED then Lead 3 0x80 0xBF
  else if b =? 0xED then Lead 3 0x80 0x9F
  else if b <? 0xF0 then Lead 3 0x80 0xBF
  else if b =? 0xF0 then Lead 4 0x90 0xBF
  else if b <? 0xF4 then Lead 4 0x80 0xBF
  else if b =? 0xF4 then Lead 4 0x80 0x8F
  else InvalidByte.

Definition locb : N := 0x80.
Definition hicb : N := 0xBF.
Definition maskx : N := 0x3F.
Definition mask2 : N := 0x1F.
Definition mask3 : N := 0x0F.
Definition mask4 : N := 0x07.

Definition outside (lo hi b : N) : bool := (b <? lo) || (hi <? b).

(** [DecodeRuneInString]: the first rune of [s] and its width in bytes;
    [(RuneError, 0)] on the empty string and [(RuneError, 1)] on an
    encoding that is invalid or cut short. *)
Definition DecodeRuneInString (s : gostring) : N * nat :=
  match s with
  | [] => (RuneError, 0%nat)
  | c0 :: s1s =>
    let s0 := byteval c0 in
    match first s0 with
    | AsciiByte => (s0, 1%nat)
    | InvalidByte => (RuneError, 1%nat)
    | Lead sz lo hi =>
      if (length s <? sz)%nat then (RuneError, 1%nat) else
      match s1s with
      | [] => (RuneError, 1%nat)
      | c1 :: s2s =>
        let s1 := byteval c1 in
        if outside lo hi s1 then (RuneError, 1%nat) else
        if (sz <=? 2)%nat then
          (N.lor (N.shiftl (N.land s0 mask2) 6) (N.land s1 maskx), 2%nat)
        else
        match s2s with
        | [] => (RuneError, 1%nat)
        | c2 :: s3s =>
          let s2 := byteval c2 in
          if outside locb hicb s2 then (RuneError, 1%nat) else
          if (sz <=? 3)%nat then
            (N.lor (N.lor (N.shiftl (N.land s0 mask3) 12)
                          (N.shiftl (N.land s1 maskx) 6))
                   (N.land s2 maskx), 3%nat)
          else
          match s3s with
          | [] => (RuneError, 1%nat)
          | c3 :: _ =>
            let s3 := byteval c3 in
            if outside locb hicb s3 then (RuneError, 1%nat) else
            (N.lor (N.lor (N.lor (N.shiftl (N.land s0 mask4) 18)
                                 (N.shiftl (N.land s1 maskx) 12))
                          (N.shiftl (N.land s2 maskx) 6))
                   (N.land s3 maskx), 4%nat)
          end
        end
      end
    end
  end.

(** [RuneStart]: the byte is not a continuation byte. *)
Definition RuneStart (b : N) : bool := negb (N.land b 0xC0 =? 0x80).

(** The backward scan of [DecodeLastRuneInString]:
    [for start--; start >= lim; start-- { if RuneStart(s[start]) break }],
    entered with [start] already decremented. *)
Fixpoint backToStart (fuel : nat) (s : gostring) (start lim : Z) : Z :=
  match fuel with
  | O => start
  | S fuel' =>
    if (start <? lim)%Z then start
    else if RuneStart (byteval (nth (Z.to_nat start) s zero)) then start
    else backToStart fuel' s (start - 1)%Z lim
  end.

(** [DecodeLastRuneInString]: the last rune of [s] and its width. *)
Definition DecodeLastRuneInString (s : gostring) : N * nat :=
  let end_ := length s in
  if (end_ =? 0)%nat then (RuneError, 0%nat) else
  let r := byteval (nth (end_ - 1)%nat s zero) in
  if r <? RuneSelf then (r, 1%nat) else
  let lim := Z.max 0 (Z.of_nat end_ - Z.of_nat UTFMax) in
  let start := backToStart UTFMax s (Z.of_nat end_ - 2) lim in
  let start := Z.to_nat (Z.max 0 start) in
  let (r, size) := DecodeRuneInString (skipn start s) in
  if (start + size =? end_)%nat then (r, size) else (RuneError, 1%nat).

End utf8.

(** ** unicode *)

Module unicode.

Local Open Scope N_scope.

Definition MaxLatin1 : N := 0xFF.

(** The table [White_Space] above Latin-1. *)
Definition White_Space_beyond_Latin1 (r : N) : bool :=
  (r =? 0x1680) || ((0x2000 <=? r) && (r <=? 0x200A))
  || ((0x2028 <=? r) && (r <=? 0x2029)) || (r =? 0x202F)
  || (r =? 0x205F) || (r =? 0x3000).

(** [IsSpace]: '\t', '\n', '\v', '\f', '\r', ' ', U+0085 and U+00A0 in
    Latin-1, the [White_Space] property above it. *)
Definition IsSpace (r : N) : bool :=
  if r <=? MaxLatin1 then
    ((0x09 <=? r) && (r <=? 0x0D)) || (r =? 0x20) || (r =? 0x85) || (r =? 0xA0)
  else White_Space_beyond_Latin1 r.

End unicode.

(** ** strings *)

Module strings.

(** [HasPrefix(s, prefix)]. *)
Fixpoint HasPrefix (s prefix : gostring) : bool :=
  match prefix, s with
  | [], _ => true
  | _ :: _, [] => false
  | p :: prefix', c :: s' =>
    if ascii_dec c p then HasPrefix s' prefix' else false
  end.

(** [Index(s, substr)]: the index of the first instance of [substr] in
    [s]; [None] stands for -1. *)
Fixpoint Index (s substr : gostring) : option nat :=
  if HasPrefix s substr then Some 0
  else match s with
       | [] => None
       | _ :: s' => option_map S (Index s' substr)
       end.

(** [Contains(s, substr)] is [Index(s, substr) >= 0]. *)
Definition Contains (s substr : gostring) : bool :=
  match Index s substr with Some _ => true | None => false end.

(** [explode(s, -1)]: one string per UTF-8 sequence, invalid bytes one by
    one. *)
Fixpoint explode (fuel : nat) (s : gostring) : list gostring :=
  match fuel with
  | O => []
  | S fuel' =>
    match s with
    | [] => []
    | _ :: _ =>
      let (_, size) := utf8.DecodeRuneInString s in
      firstn size s :: explode fuel' (skipn size s)
    end
  end.

(** The loop of [genSplit(s, sep, 0, -1)] for a non-empty [sep]:
    [m := Index(s, sep); if m < 0 { break }; a[i] = s[:m];
     s = s[m+len(sep):]], closed by [a[i] = s]. *)
Fixpoint genSplit (fuel : nat) (s sep : gostring) : list gostring :=
  match fuel with
  | O => [s]
  | S fuel' =>
    match Index s sep with
    | None => [s]
    | Some m => firstn m s :: genSplit fuel' (skipn (m + length sep) s) sep
    end
  end.

(** [Split(s, sep)].  Every step of the loop consumes at least one byte of
    [s], so [length s] steps are enough. *)
Definition Split (s sep : gostring) : list gostring :=
  match sep with
  | [] => explode (length s) s
  | _ :: _ => genSplit (length s) s sep
  end.

(** [Join(elems, sep)]. *)
Fixpoint Join (elems : list gostring) (sep : gostring) : gostring :=
  match elems with
  | [] => []
  | [e] => e
  | e :: rest => e ++ sep ++ Join rest sep
  end.

(** [indexFunc(s, f, truth)]: [for i, r := range s { if f(r) == truth
    { return i } }; return -1], started at byte offset [i]. *)
Fixpoint indexFunc (fuel : nat) (f : N -> bool) (truth : bool)
         (s : gostring) (i : nat) : option nat :=
  match fuel with
  | O => None
  | S fuel' =>
    match s with
    | [] => None
    | _ :: _ =>
      let (r, size) := utf8.DecodeRuneInString s in
      if Bool.eqb (f r) truth then Some i
      else indexFunc fuel' f truth (skipn size s) (i + size)
    end
  end.

(** [lastIndexFunc(s, f, truth)]: [for i := len(s); i > 0; { r, size :=
    DecodeLastRuneInString(s[0:i]); i -= size; if f(r) == truth
    { return i } }; return -1]. *)
Fixpoint lastIndexFunc (fuel : nat) (f : N -> bool) (truth : bool)
         (s : gostring) (i : nat) : option nat :=
  match fuel with
  | O => None
  | S fuel' =>
    if (0 <? i)%nat then
      let (r, size) := utf8.DecodeLastRuneInString (firstn i s) in
      let i := i - size in
      if Bool.eqb (f r) truth then Some i
      else lastIndexFunc fuel' f truth s i
    else None
  end.

(** [TrimLeftFunc(s, f)]. *)
Definition TrimLeftFunc (s : gostring) (f : N -> bool) : gostring :=
  match indexFunc (length s) f false s 0 with
  | None => []
  | Some i => skipn i s
  end.

(** [TrimRightFunc(s, f)]. *)
Definition TrimRightFunc (s : gostring) (f : N -> bool) : gostring :=
  match lastIndexFunc (length s) f false s (length s) with
  | Some i =>
    if (utf8.RuneSelf <=? byteval (nth i s zero))%N then
      let (_, wid) := utf8.DecodeRuneInString (skipn i s) in
      firstn (i + wid) s
    else firstn (i + 1) s
  | None => firstn 0 s
  end.

(** [TrimFunc(s, f)]. *)
Definition TrimFunc (s : gostring) (f : N -> bool) : gostring :=
  TrimRightFunc (TrimLeftFunc s f) f.

(** [TrimSpace(s)]: [s] without leading and trailing white space, as
    defined by Unicode.  The byte loops that [TrimSpace] runs first are a
    fast path of [TrimFunc(s, unicode.IsSpace)] with the same result. *)
Definition TrimSpace (s : gostring) : gostring :=
  TrimFunc s unicode.IsSpace.

End strings.

(** ** The task-block parser of [engmanager.go] *)

(** Go's [error] values: one made by a collaborator or by [fmt.Errorf]
    without [%w], and [fmt.Errorf(prefix + "%w", err)], which wraps. *)
Inductive error : Type :=
| ErrorNew (msg : gostring)
| ErrorWrap (prefix : gostring) (err : error).

(** [struct{ Title, Description string }]. *)
Record Task : Type := mkTask { Title : gostring; Description : gostring }.

(** The task delimiter, "\n@@@@\n". *)
Definition taskDelimiter : gostring := [nl] ++ str "@@@@" ++ [nl].

(** The body of [for _, block := range taskBlocks], with [tasks] the slice
    appended to so far. *)
Fixpoint parseTaskBlocks (taskBlocks : list gostring) (tasks : list Task)
  : list Task :=
  match taskBlocks with
  | [] => tasks
  | block :: rest =>
    let block := strings.TrimSpace block in
    if isEmpty block then parseTaskBlocks rest tasks else
    let lines := strings.Split block [nl] in
    if length lines =? 0 then parseTaskBlocks rest tasks else
    let title := strings.TrimSpace (nth 0 lines []) in
    let description :=
      if 1 <? length lines
      then strings.TrimSpace (strings.Join (skipn 1 lines) [nl])
      else [] in
    parseTaskBlocks rest (tasks ++ [mkTask title description])
  end.

(** [parseTasksFromResponse]: the tasks and the error, which is always
    [nil]. *)
Definition parseTasksFromResponse (response : gostring)
  : list Task * option error :=
  let taskBlocks := strings.Split response taskDelimiter in
  (parseTaskBlocks taskBlocks [], None).

(** ** Vocabulary of the statements about strings *)

(** [headNonSpace s]: [s] is not empty and its first rune is not white
    space. *)
Definition headNonSpace (s : gostring) : bool :=
  match s with
  | [] => false
  | _ :: _ => negb (unicode.IsSpace (fst (utf8.DecodeRuneInString s)))
  end.

(** The runes of [s], as [[]rune(s)] gives them. *)
Fixpoint runes (fuel : nat) (s : gostring) : list N :=
  match fuel with
  | O => []
  | S fuel' =>
    match s with
    | [] => []
    | _ :: _ =>
      let (r, size) := utf8.DecodeRuneInString s in
      r :: runes fuel' (skipn size s)
    end
  end.

(** [whitespaceOnly s]: every rune of [s] is white space (the empty string
    included). *)
Definition whitespaceOnly (s : gostring) : bool :=
  forallb unicode.IsSpace (runes (length s) s).

(** The task a segment of the response stands for: the first line of the
    trimmed segment, trimmed, as the title; the lines after it, joined by
    newlines and trimmed, as the description. *)
Definition taskOfSegment (segment : gostring) : Task :=
  let lines := strings.Split (strings.TrimSpace segment) [nl] in
  mkTask (strings.TrimSpace (hd [] lines))
         (strings.TrimSpace (strings.Join (tl lines) [nl])).

(** A segment is well formed when it is not empty after trimming. *)
Definition wellFormedSegment (segment : gostring) : bool :=
  negb (isEmpty (strings.TrimSpace segment)).

(** ** strings.EqualFold *)

Module fold.

Local Open Scope N_scope.

(** The comparison of two runes in [strings.EqualFold].  [orbit sr tr]
    stands for the general case, on [sr < tr] with [tr] not ASCII:
    [r := unicode.SimpleFold(sr); for r != sr && r < tr
     { r = unicode.SimpleFold(r) }; r == tr].  The case tables of the
    [unicode] package are not reproduced here. *)
Definition equalRune (orbit : N -> N -> bool) (sr tr : N) : bool :=
  if tr =? sr then true else
  let (sr, tr) := if tr <? sr then (tr, sr) else (sr, tr) in
  if tr <? utf8.RuneSelf then
    (0x41 <=? sr) && (sr <=? 0x5A) && (tr =? sr + 0x61 - 0x41)
  else orbit sr tr.

(** The loop of [EqualFold]: [for _, sr := range s], with the first rune
    of [t] taken off at each step; once [s] is used up, [len(t) == 0]. *)
Fixpoint equalFoldLoop (orbit : N -> N -> bool) (fuel : nat)
         (s t : gostring) : bool :=
  match fuel with
  | O => isEmpty t
  | S fuel' =>
    match s with
    | [] => isEmpty t
    | _ :: _ =>
      let (sr, ssize) := utf8.DecodeRuneInString s in
      match t with
      | [] => false
      | _ :: _ =>
        let (tr, tsize) := utf8.DecodeRuneInString t in
        if equalRune orbit sr tr
        then equalFoldLoop orbit fuel' (skipn ssize s) (skipn tsize t)
        else false
      end
    end
  end.

(** [EqualFold(s, t)]: equality under simple Unicode case folding.  The
    byte loop [EqualFold] runs first on ASCII prefixes is a fast path of
    the rune loop with the same result. *)
Definition EqualFold (orbit : N -> N -> bool) (s t : gostring) : bool :=
  equalFoldLoop orbit (length s) s t.

End fold.

(** ** The collaborators: ticket board, language model, repository *)

Inductive result (A : Type) : Type :=
| Ok (a : A)
| Err (e : error).

Arguments Ok {A} a.
Arguments Err {A} e.

Module trello.

(** The fields of [trello.Card] and [trello.Member] the package reads. *)
Record Card : Type := mkCard {
  ID : gostring;
  Name : gostring;
  Desc : gostring;
  IDList : gostring;
  IDMembers : list gostring
}.

Record Member : Type := mkMember {
  MemberID : gostring;
  Username : gostring
}.

End trello.

Module chatgpt.

Record Message : Type := mkMessage { Role : gostring; Content : gostring }.

End chatgpt.

(** An argument of [log.Printf]. *)
Inductive logArg : Type :=
| ArgString (s : gostring)
| ArgInt (n : Z)
| ArgError (e : error).

(** What a run does outside the process, in the order it does it: each
    call of a collaborator with what the call returned, each sleep, each
    log line. *)
Inductive event : Type :=
| CallGetBoard (r : option error)
| CallGetCards (r : result (list trello.Card))
| CallGetMember (memberID : gostring) (r : result trello.Member)
| CallGetListIDByName (name : gostring) (r : result gostring)
| CallCreateCard (title description listID : gostring)
                 (r : result trello.Card)
| CallPostComment (card : trello.Card) (comment : gostring)
                  (r : option error)
| CallGetComments (card : trello.Card) (r : result (list gostring))
| CallReadAllFiles (r : result (list (gostring * gostring)))
| CallChat (prompt : gostring) (r : result gostring)
| CallChatWithMessages (messages : list chatgpt.Message)
                       (r : result gostring)
| Sleep (nanoseconds : Z)
| LogPrintf (format : gostring) (args : list logArg).

(** The collaborators answer a call from everything that happened before
    it.  [ReadAllFiles] gives the files in the order the range over the
    returned map visits them.  [filepath_Dir] is [path/filepath.Dir] and
    [foldOrbit] the general case of [strings.EqualFold]. *)
Record Env : Type := mkEnv {
  GetBoard : list event -> option error;
  GetCards : list event -> result (list trello.Card);
  GetMember : list event -> gostring -> result trello.Member;
  GetListIDByName : list event -> gostring -> result gostring;
  CreateCard : list event -> gostring -> gostring -> gostring ->
               result trello.Card;
  PostComment : list event -> trello.Card -> gostring -> option error;
  GetComments : list event -> trello.Card -> result (list gostring);
  ReadAllFiles : list event -> result (list (gostring * gostring));
  Chat : list event -> gostring -> result gostring;
  ChatWithMessages : list event -> list chatgpt.Message -> result gostring;
  filepath_Dir : gostring -> gostring;
  foldOrbit : N -> N -> bool
}.

(** ** Computations that extend the trace *)

Definition M (A : Type) : Type := list event -> A * list event.

Definition ret {A} (a : A) : M A := fun t => (a, t).

Definition bind {A B} (c : M A) (k : A -> M B) : M B :=
  fun t => let (a, t') := c t in k a t'.

Definition emit (ev : event) : M unit := fun t => (tt, t ++ [ev]).

(** A call: ask the collaborator, record the call with its answer. *)
Definition call {A} (answer : list event -> A) (record : A -> event) : M A :=
  fun t => let r := answer t in (r, t ++ [record r]).

Declare Scope go_scope.
Delimit Scope go_scope with go.

Notation "x <- c ;; k" := (bind c (fun x => k))
  (at level 61, c at next level, right associativity) : go_scope.
Notation "c ;; k" := (bind c (fun _ => k))
  (at level 61, right associativity) : go_scope.

(** What a Go function returns when it can fail: [(T, error)], a
    [result], or [error] alone, [nil] being [None]. *)
Class Returns (X : Type) : Type := {
  failWith : error -> X;
  errorOf : X -> option error
}.

#[export] Instance Returns_result (A : Type) : Returns (result A) := {
  failWith := @Err A;
  errorOf := fun r => match r with Err e => Some e | Ok _ => None end
}.

#[export] Instance Returns_error : Returns (option error) := {
  failWith := @Some error;
  errorOf := fun r => r
}.

(** [x, err := c; if err != nil { return fmt.Errorf(prefix + "%w", err) }],
    followed by [k]. *)
Definition tryWrap {A X} `{Returns X} (prefix : gostring)
           (c : M (result A)) (k : A -> M X) : M X :=
  bind c (fun r => match r with
                   | Err err => ret (failWith (ErrorWrap prefix err))
                   | Ok x => k x
                   end).

(** [if err := c; err != nil { return fmt.Errorf(prefix + "%w", err) }],
    followed by [k]. *)
Definition checkWrap {X} `{Returns X} (prefix : gostring)
           (c : M (option error)) (k : M X) : M X :=
  bind c (fun r => match r with
                   | Some err => ret (failWith (ErrorWrap prefix err))
                   | None => k
                   end).

Notation "'try' x <- c 'orWrap' prefix ;; k" :=
  (tryWrap (str prefix) c (fun x => k))
  (at level 61, x name, c at next level, prefix at next level,
   right associativity) : go_scope.

Notation "'check' c 'orWrap' prefix ;; k" :=
  (checkWrap (str prefix) c k)
  (at level 61, c at next level, prefix at next level,
   right associativity) : go_scope.

Local Open Scope go_scope.

(** ** The base agent of [agent.go] *)

(** [AIAgent]: the name and the purpose; the three clients are the
    collaborators of [Env]. *)
Record AIAgent : Type := mkAgent { Name : gostring; Purpose : gostring }.

Section Agent.

Variable env : Env.
Variable a : AIAgent.

Definition logPrintf (format : string) (args : list logArg) : M unit :=
  emit (LogPrintf (str format) args).

(** [ReadComments] and [WriteComment] wrap the card and pass the answer of
    the board through. *)
Definition ReadComments (card : trello.Card) : M (result (list gostring)) :=
  call (fun t => GetComments env t card) (CallGetComments card).

Definition WriteComment (card : trello.Card) (comment : gostring)
  : M (option error) :=
  call (fun t => PostComment env t card comment)
       (CallPostComment card comment).

Definition ReadAllGitFiles : M (result (list (gostring * gostring))) :=
  call (ReadAllFiles env) CallReadAllFiles.

(** [TicketBelongsToMe]: [for _, memberID := range card.IDMembers]. *)
Fixpoint belongsToMeLoop (memberIDs : list gostring) : M bool :=
  match memberIDs with
  | [] => ret false
  | memberID :: rest =>
    r <- call (fun t => GetMember env t memberID) (CallGetMember memberID) ;;
    match r with
    | Err _ => belongsToMeLoop rest
    | Ok member =>
      if fold.EqualFold (foldOrbit env) (trello.Username member) (Name a)
      then ret true
      else belongsToMeLoop rest
    end
  end.

Definition TicketBelongsToMe (card : trello.Card) : M bool :=
  belongsToMeLoop (trello.IDMembers card).

(** The text [RefreshProjectContext] builds from the files. *)
Definition fileBlock (file : gostring * gostring) : gostring :=
  let (filePath, content) := file in
  let dir := filepath_Dir env filePath in
  str "File: " ++ filePath ++ [nl]
  ++ str "Location: " ++ dir ++ [nl]
  ++ str "Content:" ++ [nl]
  ++ content
  ++ [nl] ++ str "----------------" ++ [nl].

Definition projectSummary (files : list (gostring * gostring)) : gostring :=
  str "Project Context Update:" ++ [nl]
  ++ str "The following is the project folder structure along with file locations and full file contents:" ++ [nl; nl]
  ++ List.concat (map fileBlock files).

Definition RefreshProjectContext : M (option error) :=
  try files <- ReadAllGitFiles orWrap "failed to read git files: " ;;
  let prompt :=
    projectSummary files ++ [nl; nl]
    ++ str "Note: This information is provided solely to actualise and update your internal understanding of the project structure and code base. No response or commentary is needed." in
  try _ <- call (fun t => Chat env t prompt) (CallChat prompt)
    orWrap "failed to update GPT context: " ;;
  ret None.

(** [GetAssignedTickets]: [for _, card := range cards], with the slice
    [assigned] and the flag [needToRefreshContext]. *)
Fixpoint assignedLoop (cards : list trello.Card)
         (assigned : list trello.Card) (needToRefreshContext : bool)
  : M (result (list trello.Card)) :=
  match cards with
  | [] => ret (Ok assigned)
  | card :: rest =>
    mine <- TicketBelongsToMe card ;;
    if mine then
      let assigned := assigned ++ [card] in
      if needToRefreshContext then
        check RefreshProjectContext orWrap "failed to refresh context: " ;;
        assignedLoop rest assigned false
      else assignedLoop rest assigned needToRefreshContext
    else assignedLoop rest assigned needToRefreshContext
  end.

Definition GetAssignedTickets : M (result (list trello.Card)) :=
  check call (GetBoard env) CallGetBoard orWrap "failed to get board: " ;;
  try cards <- call (GetCards env) CallGetCards
    orWrap "failed to get cards: " ;;
  assignedLoop cards [] true.

(** [LoadGuidanceTickets]: the text aggregated from the cards of the
    IMPORTANT list. *)
Definition guidanceHeader : gostring := str "Guidance Tickets:" ++ [nl].

Fixpoint guidanceLoop (cards : list trello.Card) (listID : gostring)
         (guidanceBuilder : gostring) : gostring :=
  match cards with
  | [] => guidanceBuilder
  | card :: rest =>
    if gostring_eqb (trello.IDList card) listID then
      guidanceLoop rest listID
        (guidanceBuilder
         ++ (str "Title: " ++ trello.Name card ++ [nl])
         ++ (str "Details: " ++ trello.Desc card ++ [nl; nl]))
    else guidanceLoop rest listID guidanceBuilder
  end.

Definition LoadGuidanceTickets : M (option error) :=
  try listID <- call (fun t => GetListIDByName env t (str "IMPORTANT"))
                     (CallGetListIDByName (str "IMPORTANT"))
    orWrap "failed to get list ID for IMPORTANT: " ;;
  check call (GetBoard env) CallGetBoard orWrap "failed to get board: " ;;
  try cards <- call (GetCards env) CallGetCards
    orWrap "failed to get cards from board: " ;;
  let guidanceText := guidanceLoop cards listID guidanceHeader in
  if gostring_eqb guidanceText guidanceHeader then ret None else
  let messages := [chatgpt.mkMessage (str "system") guidanceText] in
  try _ <- call (fun t => ChatWithMessages env t messages)
                (CallChatWithMessages messages)
    orWrap "failed to update GPT guidance context: " ;;
  logPrintf "Guidance tickets sent to GPT client." [] ;;
  ret None.

(** ** The engineering manager of [engmanager.go] *)

(** [60 * time.Second], in nanoseconds. *)
Definition pollInterval : Z := 60 * 1000000000.
Definition maxAttempts : nat := 100.

Definition timeoutError (requiredTag : gostring) : error :=
  ErrorNew (str "reply with tag " ++ requiredTag
            ++ str " not received after polling").

(** [WaitForReply]: [for attempt := 1; attempt <= maxAttempts; attempt++],
    with [remaining] the number of iterations still to run, that is
    [maxAttempts - attempt + 1]. *)
Fixpoint waitLoop (remaining : nat) (attempt : Z) (card : trello.Card)
         (requiredTag : gostring) : M (result gostring) :=
  match remaining with
  | O => ret (Err (timeoutError requiredTag))
  | S remaining' =>
    try comments <- ReadComments card orWrap "failed to read comments: " ;;
    match find (fun comment => strings.Contains comment requiredTag)
               comments with
    | Some comment => ret (Ok comment)
    | None =>
      logPrintf "No reply with %s found, attempt %d/%d. Waiting..."
                [ArgString requiredTag; ArgInt attempt;
                 ArgInt (Z.of_nat maxAttempts)] ;;
      emit (Sleep pollInterval) ;;
      waitLoop remaining' (attempt + 1) card requiredTag
    end
  end.

Definition WaitForReply (card : trello.Card) (requiredTag : gostring)
  : M (result gostring) :=
  waitLoop maxAttempts 1 card requiredTag.

(** [HandleTicket]: [for _, task := range tasksParsed], with the slice
    [createdTickets]. *)
Fixpoint createLoop (tasksParsed : list Task) (doingListID : gostring)
         (createdTickets : list trello.Card) : M (list trello.Card) :=
  match tasksParsed with
  | [] => ret createdTickets
  | task :: rest =>
    r <- call (fun t => CreateCard env t (Title task) (Description task)
                                   doingListID)
              (CallCreateCard (Title task) (Description task) doingListID) ;;
    match r with
    | Err err =>
      logPrintf "failed to create technical ticket for task '%s': %v"
                [ArgString (Title task); ArgError err] ;;
      createLoop rest doingListID createdTickets
    | Ok techTicket =>
      createLoop rest doingListID (createdTickets ++ [techTicket])
    end
  end.

Definition clarificationPrompt (card : trello.Card) : gostring :=
  let ticketInfo :=
    str "Ticket ID: " ++ trello.ID card ++ [nl]
    ++ str "Title: " ++ trello.Name card ++ [nl]
    ++ str "Description: " ++ trello.Desc card in
  str "Given the following ticket details:" ++ ticketInfo ++ [nl]
  ++ str "You are a highly skilled AI Engineering Manager agent. Your role is to confirm that the business requirements of this ticket are clear. You already know the best technical approaches, including libraries, design patterns, testing frameworks, coding standards, and all other technical details. Do NOT ask any questions about these technical matters." ++ [nl]
  ++ str "Do NOT ask about:" ++ [nl]
  ++ str "- Commenting guidelines or documentation standards." ++ [nl]
  ++ str "- Performance benchmarks or optimizations." ++ [nl]
  ++ str "- Review processes, stakeholder impacts, or timelines." ++ [nl]
  ++ str "- Any technical details regarding libraries, design patterns, or testing frameworks." ++ [nl]
  ++ str "- Any summaries, headers, footers, unrelated comments." ++ [nl]
  ++ str "Only ask clarifying questions if there is any ambiguity in the business requirements. Do not ask about commenting guidelines, performance, review processes, stakeholder impacts, timelines, or any technical specifics." ++ [nl]
  ++ str "Ask concise questions about any missing business objectives. Make sure you really understand what the fuction is about to be ready to write technical tickets.".

Definition replyPrompt : gostring :=
  str "Given the following clarifications, create tenchnical clear a list of atomic technical tickets for the backend developer with only coding tasks. Each task should be clear and unambiguous, with a concise title. Each task should start with a title followed by new line and then have a precise technical specification for the developer.  I want the response to ONLY have actionable tickets withno additional fields, no general questins or comments, compact, precise. Each ticket should be separated one from eachother by "
  ++ taskDelimiter.

Definition HandleTicket (card : trello.Card)
  : M (result (list trello.Card)) :=
  let prompt := clarificationPrompt card in
  try clarifications <- call (fun t => Chat env t prompt) (CallChat prompt)
    orWrap "failed to generate clarifications: " ;;
  let clarificationComment := clarifications ++ [nl] ++ str "@bogoego" in
  check WriteComment card clarificationComment
    orWrap "failed to post clarification comment: " ;;
  logPrintf "Posted clarifications on ticket %s"
            [ArgString (trello.ID card)] ;;
  try reply <- WaitForReply card (str "@" ++ Name a)
    orWrap "failed to receive reply: " ;;
  logPrintf "Received reply: %s" [ArgString reply] ;;
  let prompt2 := reply ++ [nl] ++ replyPrompt in
  try response <- call (fun t => Chat env t prompt2) (CallChat prompt2)
    orWrap "failed to process reply with GPT: " ;;
  match parseTasksFromResponse response with
  | (_, Some err) =>
    logPrintf "Error parsing tasks: %v" [ArgError err] ;;
    ret (Err (ErrorWrap (str "failed to parse tasks: ") err))
  | (tasksParsed, None) =>
    try doingListID <- call (fun t => GetListIDByName env t (str "Doing"))
                            (CallGetListIDByName (str "Doing"))
      orWrap "failed to get Doing list ID: " ;;
    createdTickets <- createLoop tasksParsed doingListID [] ;;
    ret (Ok createdTickets)
  end.

(** [RespondToClarification], with [backendName] the name of the backend
    agent the answer is addressed to. *)
Definition RespondToClarification (ticket : trello.Card)
           (clarificationRequest backendName : gostring)
  : M (result gostring) :=
  let prompt :=
    str "Provide a detailed clarification for the following request from the developer agent. Always answer questions, don't ask them. Remember - your vision is the source of all engineering truth of the project. Here is the question from the engineer: "
    ++ clarificationRequest in
  try clarification <- call (fun t => Chat env t prompt) (CallChat prompt)
    orWrap "failed to generate clarification: " ;;
  let responseComment :=
    str "Response: " ++ clarification ++ str " @" ++ backendName in
  check WriteComment ticket responseComment
    orWrap "failed to post clarification response: " ;;
  ret (Ok clarification).


End Agent.

(** ** Vocabulary of the statements about runs *)

(** [tagged requiredTag comment]: the test of the inner loop of
    [WaitForReply]. *)
Definition tagged (requiredTag comment : gostring) : bool :=
  strings.Contains comment requiredTag.

(** What one unsuccessful iteration of the poll adds to the trace: the
    read with the comments it returned, the log line, the sleep. *)
Definition pollRound (card : trello.Card) (requiredTag : gostring)
           (attempt : Z) (comments : list gostring) : list event :=
  [CallGetComments card (Ok comments);
   LogPrintf (str "No reply with %s found, attempt %d/%d. Waiting...")
             [ArgString requiredTag; ArgInt attempt;
              ArgInt (Z.of_nat maxAttempts)];
   Sleep pollInterval].

(** Consecutive unsuccessful iterations, the first numbered [attempt],
    one per comment list of [reads]. *)
Fixpoint pollRounds (card : trello.Card) (requiredTag : gostring)
         (attempt : Z) (reads : list (list gostring)) : list event :=
  match reads with
  | [] => []
  | comments :: rest =>
    pollRound card requiredTag attempt comments
    ++ pollRounds card requiredTag (attempt + 1) rest
  end.

(** [answers env card requiredTag attempt t reads]: from the trace [t] on,
    the board answers the successive reads of the poll with the comment
    lists [reads]. *)
Fixpoint answers (env : Env) (card : trello.Card) (requiredTag : gostring)
         (attempt : Z) (t : list event) (reads : list (list gostring))
  : Prop :=
  match reads with
  | [] => True
  | comments :: rest =>
    GetComments env t card = Ok comments
    /\ answers env card requiredTag (attempt + 1)
               (t ++ pollRound card requiredTag attempt comments) rest
  end.

(** No comment of any of the lists carries the tag. *)
Definition untagged (requiredTag : gostring) (reads : list (list gostring))
  : Prop :=
  Forall (fun comments => find (tagged requiredTag) comments = None) reads.

Definition isRead (ev : event) : bool :=
  match ev with CallGetComments _ _ => true | _ => false end.

Definition isSleep (ev : event) : bool :=
  match ev with Sleep _ => true | _ => false end.

Definition countReads (t : list event) : nat := length (filter isRead t).
Definition countSleeps (t : list event) : nat := length (filter isSleep t).

(** What the creation of one child ticket adds to the trace: the call with
    its outcome, and the log line when it failed. *)
Definition creationStep (listID : gostring) (task : Task)
           (outcome : result trello.Card) : list event :=
  CallCreateCard (Title task) (Description task) listID outcome
  :: match outcome with
     | Err err =>
       [LogPrintf
          (str "failed to create technical ticket for task '%s': %v")
          [ArgString (Title task); ArgError err]]
     | Ok _ => []
     end.

Fixpoint creationTrace (listID : gostring) (tasks : list Task)
         (outcomes : list (result trello.Card)) : list event :=
  match tasks, outcomes with
  | task :: tasks', outcome :: outcomes' =>
    creationStep listID task outcome ++ creationTrace listID tasks' outcomes'
  | _, _ => []
  end.

(** [creationAnswers env listID t tasks outcomes]: from the trace [t] on,
    the board answers the creation of the tickets of [tasks], one after
    the other, with [outcomes]. *)
Fixpoint creationAnswers (env : Env) (listID : gostring) (t : list event)
         (tasks : list Task) (outcomes : list (result trello.Card)) : Prop :=
  match tasks, outcomes with
  | [], [] => True
  | task :: tasks', outcome :: outcomes' =>
    CreateCard env t (Title task) (Description task) listID = outcome
    /\ creationAnswers env listID (t ++ creationStep listID task outcome)
                       tasks' outcomes'
  | _, _ => False
  end.

(** The cards of the outcomes that are successes, in order. *)
Fixpoint createdCards (outcomes : list (result trello.Card))
  : list trello.Card :=
  match outcomes with
  | [] => []
  | Ok card :: rest => card :: createdCards rest
  | Err _ :: rest => createdCards rest
  end.

Definition isFailure {A} (r : result A) : bool :=
  match r with Err _ => true | Ok _ => false end.


(** The creation calls of a trace, as (title, description, list), in
    order. *)
Fixpoint creationCalls (t : list event)
  : list (gostring * gostring * gostring) :=
  match t with
  | [] => []
  | CallCreateCard title description listID _ :: rest =>
    (title, description, listID) :: creationCalls rest
  | _ :: rest => creationCalls rest
  end.

(** [reachesCreation env a card t response listID t']: the run of
    [HandleTicket] from [t] gets as far as the creation of the child
    tickets, with the model's [response] to parse, the Doing list
    [listID] and the trace [t']: the clarifications are generated and
    posted, a reply arrives, the model answers it, and the Doing list is
    found. *)
Definition reachesCreation (env : Env) (a : AIAgent) (card : trello.Card)
           (t : list event) (response listID : gostring)
           (t' : list event) : Prop :=
  exists clarifications reply t3,
    let prompt := clarificationPrompt card in
    let comment := clarifications ++ [nl] ++ str "@bogoego" in
    let t1 := t ++ [CallChat prompt (Ok clarifications)] in
    let t2 := t1 ++ [CallPostComment card comment None;
                     LogPrintf (str "Posted clarifications on ticket %s")
                               [ArgString (trello.ID card)]] in
    let t4 := t3 ++ [LogPrintf (str "Received reply: %s")
                               [ArgString reply]] in
    let prompt2 := reply ++ [nl] ++ replyPrompt in
    let t5 := t4 ++ [CallChat prompt2 (Ok response)] in
    Chat env t prompt = Ok clarifications
    /\ PostComment env t1 card comment = None
    /\ WaitForReply env card (str "@" ++ Name a) t2 = (Ok reply, t3)
    /\ Chat env t4 prompt2 = Ok response
    /\ GetListIDByName env t5 (str "Doing") = Ok listID
    /\ t' = t5 ++ [CallGetListIDByName (str "Doing") (Ok listID)].

(** [inColumn listID card]: the card is in the list [listID]. *)
Definition inColumn (listID : gostring) (card : trello.Card) : bool :=
  gostring_eqb (trello.IDList card) listID.

(** The text one card of the column contributes to the guidance. *)
Definition guidanceBlock (card : trello.Card) : gostring :=
  (str "Title: " ++ trello.Name card ++ [nl])
  ++ (str "Details: " ++ trello.Desc card ++ [nl; nl]).

(** [resolvesToMe env a members memberID]: the member id resolves, and to
    a user name equal to the agent's name under case folding. *)
Definition resolvesToMe (env : Env) (a : AIAgent)
           (members : gostring -> result trello.Member)
           (memberID : gostring) : bool :=
  match members memberID with
  | Ok member =>
    fold.EqualFold (foldOrbit env) (trello.Username member) (Name a)
  | Err _ => false
  end.

(** [assignedToMe env a members card]: at least one member id of the card
    resolves to the agent's name. *)
Definition assignedToMe (env : Env) (a : AIAgent)
           (members : gostring -> result trello.Member)
           (card : trello.Card) : bool :=
  existsb (resolvesToMe env a members) (trello.IDMembers card).

(** The board holds [cards] and resolves member ids by [members],
    whatever happened before. *)
Definition stableBoard (env : Env) (cards : list trello.Card)
           (members : gostring -> result trello.Member) : Prop :=
  forall t,
    GetBoard env t = None
    /\ GetCards env t = Ok cards
    /\ forall memberID, GetMember env t memberID = members memberID.

(** The repository can be read and the model answers, whatever happened
    before. *)
Definition refreshSucceeds (env : Env) : Prop :=
  forall t,
    (exists files, ReadAllFiles env t = Ok files)
    /\ forall prompt, exists reply, Chat env t prompt = Ok reply.

Definition isASCII (s : gostring) : bool :=
  forallb (fun c => (byteval c <? 0x80)%N) s.

(** An ASCII byte with its upper-case letters mapped to lower case. *)
Definition lowerByte (b : N) : N :=
  if ((0x41 <=? b) && (b <=? 0x5A))%N then (b + 0x20)%N else b.

(** The bytes of a string, upper-case ASCII letters mapped to lower
    case. *)
Definition foldKey (s : gostring) : list N :=
  map (fun c => lowerByte (byteval c)) s.

(** The error a call of a collaborator returned, if it failed. *)
Definition eventError (ev : event) : option error :=
  match ev with
  | CallGetBoard r => r
  | CallGetCards r => errorOf r
  | CallGetMember _ r => errorOf r
  | CallGetListIDByName _ r => errorOf r
  | CallCreateCard _ _ _ r => errorOf r
  | CallPostComment _ _ r => r
  | CallGetComments _ r => errorOf r
  | CallReadAllFiles r => errorOf r
  | CallChat _ r => errorOf r
  | CallChatWithMessages _ r => errorOf r
  | Sleep _ => None
  | LogPrintf _ _ => None
  end.

(** [wraps e err]: [err] is [e] wrapped by [fmt.Errorf] with [%w], once or
    several times, as with a caller that wraps the error of its callee. *)
Inductive wraps (e : error) : error -> Prop :=
| wraps_once (prefix : gostring) : wraps e (ErrorWrap prefix e)
| wraps_again (prefix : gostring) (err : error) :
    wraps e err -> wraps e (ErrorWrap prefix err).


Definition noEvent (ev : event) : bool := false.


(** The errors of the failed calls of a trace, the calls of [exempt]
    apart. *)
Definition failures (exempt : event -> bool) (t : list event) : list error :=
  flat_map (fun ev =>
              if exempt ev then []
              else match eventError ev with
                   | Some e => [e]
                   | None => []
                   end) t.

(** [quiet exempt c]: no run of [c] has a failed call outside [exempt]. *)
Definition quiet {X} (exempt : event -> bool) (c : M X) : Prop :=
  forall t, exists new, snd (c t) = t ++ new /\ failures exempt new = [].

(** [tidy exempt c]: a run of [c] has no failed call outside [exempt], or
    one, whose error [c] returns wrapped. *)
Definition tidy {X} `{Returns X} (exempt : event -> bool) (c : M X) : Prop :=
  forall t, exists new,
    snd (c t) = t ++ new
    /\ (failures exempt new = []
        \/ exists e err,
            failures exempt new = [e]
            /\ errorOf (fst (c t)) = Some err /\ wraps e err).

(** ** The rest of the base agent *)

Section AgentRest.

Variable env : Env.

Local Open Scope go_scope.

(** [GetTaggedComments]: [for _, c := range comments], with the slice
    [tagged]. *)
Fixpoint taggedLoop (comments : list gostring) (tag : gostring)
         (tagged : list gostring) : list gostring :=
  match comments with
  | [] => tagged
  | c :: rest =>
    if strings.Contains c tag
    then taggedLoop rest tag (tagged ++ [c])
    else taggedLoop rest tag tagged
  end.

Definition GetTaggedComments (a : AIAgent) (card : trello.Card)
  : M (result (list gostring)) :=
  r <- ReadComments env card ;;
  match r with
  | Err err => ret (Err err)
  | Ok comments =>
    let tag := str "@" ++ Name a in
    ret (Ok (taggedLoop comments tag []))
  end.

(** [StartRoutine]: [for path := range files], one log line per file. *)
Fixpoint foundFilesLoop (files : list (gostring * gostring)) : M unit :=
  match files with
  | [] => ret tt
  | (path, _) :: rest =>
    logPrintf "Found file: %s" [ArgString path] ;;
    foundFilesLoop rest
  end.

Definition StartRoutine : M (option error) :=
  r <- ReadAllGitFiles env ;;
  match r with
  | Err err => ret (Some err)
  | Ok files => foundFilesLoop files ;; ret None
  end.

(** [NewBaseAgent]: the guidance is loaded, a failure only logged; the
    purpose goes to the model as a system message. *)
Definition NewBaseAgent (name purpose : gostring) : M (result AIAgent) :=
  let agent := mkAgent name purpose in
  guidance <- LoadGuidanceTickets env ;;
  match guidance with
  | Some err =>
    logPrintf "Warning: Failed to load guidance tickets for agent %s: %v"
              [ArgString name; ArgError err]
  | None => ret tt
  end ;;
  let messages := [chatgpt.mkMessage (str "system") purpose] in
  r <- call (fun t => ChatWithMessages env t messages)
            (CallChatWithMessages messages) ;;
  match r with
  | Err err =>
    logPrintf "Failed to set purpose for agent %s: %v"
              [ArgString name; ArgError err] ;;
    ret (Err (ErrorWrap (str "failed to set purpose: ") err))
  | Ok _ =>
    logPrintf "Agent %s initialized with purpose: %s"
              [ArgString name; ArgString purpose] ;;
    ret (Ok agent)
  end.

End AgentRest.

(** ** The writes to the board: [AssignTicketToAgent] and the wrappers *)

(** The calls that change the board or the working tree, each with what
    it returned.  [GetMemberByName] returns a member, an error, or
    both. *)
Inductive writeEvent : Type :=
| CallGetMemberByName (name : gostring)
                      (r : option trello.Member * option error)
| CallAssignMember (card : trello.Card) (memberID : gostring)
                   (r : option error)
| CallMove (card : trello.Card) (listID : gostring) (r : option error)
| CallWriteFile (fileName content : gostring) (r : option error).

Record WriteEnv : Type := mkWriteEnv {
  GetMemberByName : list writeEvent -> gostring ->
                    option trello.Member * option error;
  AssignMember : list writeEvent -> trello.Card -> gostring -> option error;
  Move : list writeEvent -> trello.Card -> gostring -> option error;
  WriteFile : list writeEvent -> gostring -> gostring -> option error
}.

(** [fmt.Errorf(prefix + "%w", err)] with an [err] that may be [nil]: a
    [nil] operand is not wrapped, it is printed as [%!w(<nil>)]. *)
Definition errorfW (prefix : gostring) (err : option error) : error :=
  match err with
  | Some e => ErrorWrap prefix e
  | None => ErrorNew (prefix ++ str "%!w(<nil>)")
  end.

Section Writes.

Variable wenv : WriteEnv.

Definition AssignTicketToAgent (card : trello.Card) (agentName : gostring)
           (t : list writeEvent) : option error * list writeEvent :=
  let (member, err) := GetMemberByName wenv t agentName in
  let t1 := t ++ [CallGetMemberByName agentName (member, err)] in
  match member with
  | None =>
    (Some (errorfW (str "failed to find an agent " ++ agentName ++ str ": ")
                   err), t1)
  | Some member =>
    let r := AssignMember wenv t1 card (trello.MemberID member) in
    let t2 := t1 ++ [CallAssignMember card (trello.MemberID member) r] in
    match r with
    | Some err =>
      (Some (ErrorWrap (str "failed to assign ticket to agent "
                        ++ agentName ++ str ": ") err), t2)
    | None => (None, t2)
    end
  end.

(** [ChangeTicketColumn], [ChangeTicketAssignee] and [WriteToGit] pass the
    answer of the collaborator through. *)
Definition ChangeTicketColumn (card : trello.Card) (newListID : gostring)
           (t : list writeEvent) : option error * list writeEvent :=
  let r := Move wenv t card newListID in
  (r, t ++ [CallMove card newListID r]).

Definition ChangeTicketAssignee (card : trello.Card) (newAssignee : gostring)
           (t : list writeEvent) : option error * list writeEvent :=
  let r := AssignMember wenv t card newAssignee in
  (r, t ++ [CallAssignMember card newAssignee r]).

Definition WriteToGit (fileName content : gostring)
           (t : list writeEvent) : option error * list writeEvent :=
  let r := WriteFile wenv t fileName content in
  (r, t ++ [CallWriteFile fileName content r]).

End Writes.

(** ** The working tree of [gitrepo.go] *)

Module gitrepo.

(** What [os.Lstat], the reading of a directory and [ioutil.ReadFile] find
    at a path: a file that is not a directory, with what reading it
    returns; a directory, with the error of reading its names, if any, and
    its entries in the order of their names; or an entry that cannot be
    examined. *)
#[warnings="-register-all"]
Inductive entry : Type :=
| File (content : result gostring)
| Dir (listing : option error) (children : list (gostring * entry))
| Broken (err : error).

(** Induction on entries, with the property known of the children of a
    directory. *)
Fixpoint entry_induction (P : entry -> Prop)
         (HFile : forall content, P (File content))
         (HDir : forall listing children,
             Forall (fun child => P (snd child)) children ->
             P (Dir listing children))
         (HBroken : forall err, P (Broken err))
         (e : entry) {struct e} : P e :=
  match e with
  | File content => HFile content
  | Dir listing children =>
    HDir listing children
         ((fix all (l : list (gostring * entry))
           : Forall (fun child => P (snd child)) l :=
             match l with
             | [] => Forall_nil _
             | child :: rest =>
               Forall_cons child
                 (entry_induction P HFile HDir HBroken (snd child))
                 (all rest)
             end) children)
  | Broken err => HBroken err
  end.

Definition isDir (info : entry) : bool :=
  match info with Dir _ _ => true | _ => false end.

(** What a [filepath.WalkFunc] returns other than [nil]: the sentinel
    [filepath.SkipDir], or an error. *)
Inductive walkError : Type :=
| SkipDir
| Failure (err : error).

(** [map[string]string]: at most one value for a key; a later write to a
    key replaces the earlier one. *)
Definition filesMap := list (gostring * gostring).

Definition mapSet (key value : gostring) (m : filesMap) : filesMap :=
  (key, value)
  :: filter (fun kv => negb (gostring_eqb (fst kv) key)) m.

Fixpoint mapGet (key : gostring) (m : filesMap) : option gostring :=
  match m with
  | [] => None
  | (k, v) :: rest => if gostring_eqb k key then Some v else mapGet key rest
  end.

(** [filepath.Rel(gc.RepoPath, path)] for a path the walk reached from
    [gc.RepoPath] through the names [names]: the names joined by the
    separator, "." for the root itself. *)
Definition relPath (names : list gostring) : gostring :=
  match names with
  | [] => str "."
  | _ :: _ => strings.Join names (str "/")
  end.

(** The function [ReadAllFiles] hands to [filepath.Walk], called on the
    entry [info] named [name], reached through [names], with the error
    [err] and the map filled so far. *)
Definition readFn (names : list gostring) (name : gostring) (info : entry)
           (err : option error) (filesContent : filesMap)
  : option walkError * filesMap :=
  match err with
  | Some err => (Some (Failure err), filesContent)
  | None =>
    if isDir info && gostring_eqb name (str ".git")
    then (Some SkipDir, filesContent)
    else
      match info with
      | File (Err err) => (Some (Failure err), filesContent)
      | File (Ok data) => (None, mapSet (relPath names) data filesContent)
      | _ => (None, filesContent)
      end
  end.

(** [walk] of [path/filepath] with [readFn] as its function: a file is
    handed to the function; a directory is handed to it with the error of
    reading its names, and entered when both are fine; in the loop over
    the names, an entry that cannot be examined is handed to the function
    with the error, and [SkipDir] returned for a directory skips it. *)
Fixpoint walk (names : list gostring) (name : gostring) (info : entry)
         (filesContent : filesMap) {struct info}
  : option walkError * filesMap :=
  match info with
  | Dir listing children =>
    let (err1, filesContent) := readFn names name info listing filesContent in
    match listing, err1 with
    | None, None =>
      (fix loop (children : list (gostring * entry))
           (filesContent : filesMap) {struct children}
       : option walkError * filesMap :=
         match children with
         | [] => (None, filesContent)
         | (childName, child) :: rest =>
           match child with
           | Broken err =>
             let (err, filesContent) :=
               readFn (names ++ [childName]) childName child (Some err)
                      filesContent in
             match err with
             | Some (Failure _) => (err, filesContent)
             | _ => loop rest filesContent
             end
           | _ =>
             let (err, filesContent) :=
               walk (names ++ [childName]) childName child filesContent in
             match err with
             | None => loop rest filesContent
             | Some SkipDir =>
               if isDir child then loop rest filesContent
               else (err, filesContent)
             | Some (Failure _) => (err, filesContent)
             end
           end
         end) children filesContent
    | _, _ => (err1, filesContent)
    end
  | _ => readFn names name info None filesContent
  end.

(** [filepath.Walk(gc.RepoPath, fn)] on the root entry [root], whose base
    name is [rootName]. *)
Definition Walk (rootName : gostring) (root : entry)
           (filesContent : filesMap) : option error * filesMap :=
  let (err, filesContent) :=
    match root with
    | Broken err => readFn [] rootName root (Some err) filesContent
    | _ => walk [] rootName root filesContent
    end in
  match err with
  | None => (None, filesContent)
  | Some SkipDir => (None, filesContent)
  | Some (Failure err) => (Some err, filesContent)
  end.

(** [ReadAllFiles]. *)
Definition ReadAllFiles (rootName : gostring) (root : entry)
  : result filesMap :=
  let (err, filesContent) := Walk rootName root [] in
  match err with
  | Some err => Err err
  | None => Ok filesContent
  end.

(** [visible name info names data]: from the entry [info] named [name],
    the names [names] lead to a file that reads as [data], through
    directories none of which is named ".git". *)
Inductive visible : gostring -> entry -> list gostring -> gostring -> Prop :=
| visible_file (name data : gostring) :
    visible name (File (Ok data)) [] data
| visible_dir (name : gostring) (listing : option error)
              (children : list (gostring * entry))
              (childName : gostring) (child : entry)
              (names : list gostring) (data : gostring) :
    name <> str ".git" ->
    In (childName, child) children ->
    visible childName child names data ->
    visible name (Dir listing children) (childName :: names) data.

(** The files the walk reaches from the entry [info] named [name], itself
    reached through [names], in the order it reaches them: each with the
    names that lead to it and what it reads as. *)
Fixpoint files (names : list gostring) (name : gostring) (info : entry)
         {struct info} : list (list gostring * gostring) :=
  match info with
  | File (Ok data) => [(names, data)]
  | Dir _ children =>
    if gostring_eqb name (str ".git") then []
    else
      (fix each (children : list (gostring * entry)) :=
         match children with
         | [] => []
         | (childName, child) :: rest =>
           files (names ++ [childName]) childName child ++ each rest
         end) children
  | _ => []
  end.

(** [readable name info]: the walk of the entry meets no error: no file
    that fails to read, no directory whose names cannot be read, no entry
    that cannot be examined, save inside the directories named ".git",
    which it does not enter. *)
Fixpoint readable (name : gostring) (info : entry) {struct info} : bool :=
  match info with
  | File (Ok _) => true
  | File (Err _) => false
  | Broken _ => false
  | Dir (Some _) _ => false
  | Dir None children =>
    gostring_eqb name (str ".git")
    || (fix all (children : list (gostring * entry)) :=
          match children with
          | [] => true
          | (childName, child) :: rest => readable childName child && all rest
          end) children
  end.

(** [damaged name info]: the walk of the entry [info] named [name] can
    reach an error: a file that fails to read, a directory whose names
    cannot be read, or an entry that cannot be examined, through
    directories none of which is named ".git". *)
Inductive damaged : gostring -> entry -> Prop :=
| damaged_file (name : gostring) (err : error) :
    damaged name (File (Err err))
| damaged_broken (name : gostring) (err : error) :
    damaged name (Broken err)
| damaged_listing (name : gostring) (err : error)
                  (children : list (gostring * entry)) :
    damaged name (Dir (Some err) children)
| damaged_child (name : gostring) (children : list (gostring * entry))
                (childName : gostring) (child : entry) :
    name <> str ".git" ->
    In (childName, child) children ->
    damaged childName child ->
    damaged name (Dir None children).

(** What the walk returns for an entry without error, besides the map:
    [SkipDir] for a directory named ".git", [nil] otherwise. *)
Definition skipFlag (name : gostring) (info : entry) : option walkError :=
  if isDir info && gostring_eqb name (str ".git") then Some SkipDir else None.

(** The map filled with the files of a list, in order. *)
Definition collect (found : list (list gostring * gostring))
           (filesContent : filesMap) : filesMap :=
  fold_left (fun m file => mapSet (relPath (fst file)) (snd file) m)
            found filesContent.

End gitrepo.

(** ** Vocabulary of the further statements *)

(** The time slept in a trace, in nanoseconds. *)
Fixpoint sleepTotal (t : list event) : Z :=
  match t with
  | [] => 0
  | Sleep d :: rest => d + sleepTotal rest
  | _ :: rest => sleepTotal rest
  end.

(** What a poll of [card] may do: read the comments of [card], log,
    sleep. *)
Definition pollEvent (card : trello.Card) (ev : event) : Prop :=
  match ev with
  | CallGetComments card' _ => card' = card
  | LogPrintf _ _ => True
  | Sleep _ => True
  | _ => False
  end.

(** The reads of the repository in a trace. *)
Definition isRepositoryRead (ev : event) : bool :=
  match ev with CallReadAllFiles _ => true | _ => false end.

Definition countRepositoryReads (t : list event) : nat :=
  length (filter isRepositoryRead t).

(** The text of one task as the prompt of [HandleTicket] asks for it: the
    title, and on the lines after it the description when there is
    one. *)
Definition taskBlock (task : Task) : gostring :=
  if isEmpty (Description task) then Title task
  else Title task ++ [nl] ++ Description task.

(** A response made of the texts of the tasks, separated by the
    delimiter. *)
Definition renderTasks (tasks : list Task) : gostring :=
  strings.Join (map taskBlock tasks) taskDelimiter.

(** [trimmed s]: [s] has no white space to trim. *)
Definition trimmed (s : gostring) : Prop := strings.TrimSpace s = s.

(** A task the parser can read back: a title of one line, not empty;
    title, description and whole text without white space to trim; and no
    line of the text that starts with '@'. *)
Definition readableTask (task : Task) : Prop :=
  Title task <> []
  /\ ~ In nl (Title task)
  /\ trimmed (Title task)
  /\ trimmed (Description task)
  /\ trimmed (taskBlock task)
  /\ strings.Contains (taskBlock task) ([nl] ++ str "@") = false.

(** ** Example boards *)


Definition exampleCard : trello.Card :=
  trello.mkCard (str "c1") (str "Export report")
                (str "Users export a monthly report") (str "todo")
                [str "m1"].

(** A board with fixed cards and members, whose comments depend on the
    number of sleeps so far, whose card creation depends on the title, and
    a model that always gives the same reply. *)
Definition boardEnv (cards : list trello.Card)
           (members : gostring -> result trello.Member)
           (comments : nat -> result (list gostring))
           (create : gostring -> gostring -> gostring -> result trello.Card)
           (reply : result gostring) : Env :=
  mkEnv (fun _ => None)
        (fun _ => Ok cards)
        (fun _ memberID => members memberID)
        (fun _ name => Ok name)
        (fun _ title description listID => create title description listID)
        (fun _ _ _ => None)
        (fun t _ => comments (countSleeps t))
        (fun _ => Ok [])
        (fun _ _ => reply)
        (fun _ _ => reply)
        (fun path => path)
        (fun _ _ => false).

Definition noMember (memberID : gostring) : result trello.Member :=
  Err (ErrorNew (str "member not found")).

Definition createAll (title description listID : gostring)
  : result trello.Card :=
  Ok (trello.mkCard (str "new") title description listID []).

(** The reply arrives after one sleep, in a read with two tagged
    comments. *)
Definition replyAfterOneSleep (sleeps : nat) : result (list gostring) :=
  if sleeps =? 0 then Ok [str "What is the deadline? @bogoego"]
  else Ok [str "What is the deadline? @bogoego";
           str "Friday @manager"; str "No, Monday @manager"].

Definition lateReplyEnv : Env :=
  boardEnv [] noMember replyAfterOneSleep createAll (Ok (str "ok")).

(** No reply ever arrives. *)
Definition silentEnv : Env :=
  boardEnv [] noMember (fun _ => Ok [str "What is the deadline? @bogoego"])
           createAll (Ok (str "ok")).

(** The second read of the comments fails. *)
Definition brokenReadEnv : Env :=
  boardEnv [] noMember
           (fun sleeps =>
              if sleeps =? 0 then Ok [str "What is the deadline? @bogoego"]
              else Err (ErrorNew (str "board unavailable")))
           createAll (Ok (str "ok")).

(** The model answers with three tasks; the reply is there at the first
    read; the creation of the second ticket fails. *)
Definition threeTasks : gostring :=
  str "Add retry" ++ [nl] ++ str "Implement exponential backoff"
  ++ taskDelimiter
  ++ str "Add cache" ++ [nl] ++ str "Cache the report for one hour"
  ++ taskDelimiter
  ++ str "Add metrics".

Definition createButCache (title description listID : gostring)
  : result trello.Card :=
  if gostring_eqb title (str "Add cache")
  then Err (ErrorNew (str "rate limited"))
  else createAll title description listID.

Definition partialEnv : Env :=
  boardEnv [] noMember (fun _ => Ok [str "Monthly, as PDF @manager"])
           createButCache (Ok threeTasks).

Definition manager : AIAgent := mkAgent (str "manager") (str "decompose").

(** The trace of [HandleTicket] on [partialEnv] up to the creation of the
    child tickets. *)
Definition partialPrefix : list event :=
  [CallChat (clarificationPrompt exampleCard) (Ok threeTasks);
   CallPostComment exampleCard (threeTasks ++ [nl] ++ str "@bogoego") None;
   LogPrintf (str "Posted clarifications on ticket %s")
             [ArgString (str "c1")];
   CallGetComments exampleCard (Ok [str "Monthly, as PDF @manager"]);
   LogPrintf (str "Received reply: %s")
             [ArgString (str "Monthly, as PDF @manager")];
   CallChat (str "Monthly, as PDF @manager" ++ [nl] ++ replyPrompt)
            (Ok threeTasks);
   CallGetListIDByName (str "Doing") (Ok (str "Doing"))].

(** A board with one card, in the list "todo": the IMPORTANT list is
    empty. *)
Definition noGuidanceEnv : Env :=
  boardEnv [exampleCard] noMember (fun _ => Ok []) createAll (Ok (str "ok")).

(** A board of three cards: the first assigned to "Manager", the second
    to a member that cannot be resolved and to "dev", the third to
    "MANAGER" after "dev". *)
Definition teamMembers (memberID : gostring) : result trello.Member :=
  if gostring_eqb memberID (str "m1")
  then Ok (trello.mkMember (str "m1") (str "Manager"))
  else if gostring_eqb memberID (str "m2")
  then Ok (trello.mkMember (str "m2") (str "dev"))
  else if gostring_eqb memberID (str "m3")
  then Ok (trello.mkMember (str "m3") (str "MANAGER"))
  else Err (ErrorNew (str "member not found")).

Definition teamCards : list trello.Card :=
  [trello.mkCard (str "c1") (str "Export report") [] (str "todo") [str "m1"];
   trello.mkCard (str "c2") (str "Fix login") [] (str "todo")
                 [str "gone"; str "m2"];
   trello.mkCard (str "c3") (str "Add audit log") [] (str "todo")
                 [str "m2"; str "m3"]].

Definition teamEnv : Env :=
  boardEnv teamCards teamMembers (fun _ => Ok []) createAll (Ok (str "ok")).

(** A working tree: a README, a source directory with one file, and a
    ".git" directory whose index cannot be read. *)
Definition exampleTree : gitrepo.entry :=
  gitrepo.Dir None
    [(str ".git",
      gitrepo.Dir None
        [(str "HEAD", gitrepo.File (Ok (str "ref: refs/heads/main")));
         (str "index", gitrepo.File (Err (ErrorNew (str "permission denied"))))]);
     (str "README.md", gitrepo.File (Ok (str "# agents")));
     (str "cmd",
      gitrepo.Dir None
        [(str "main.go", gitrepo.File (Ok (str "package main")))])].

(** The same tree with a source file that cannot be read. *)
Definition damagedTree : gitrepo.entry :=
  gitrepo.Dir None
    [(str "README.md", gitrepo.File (Ok (str "# agents")));
     (str "cmd",
      gitrepo.Dir None
        [(str "main.go",
          gitrepo.File (Err (ErrorNew (str "permission denied"))))])].

(** A board whose card carries a question and two answers for the
    manager. *)
Definition answeredEnv : Env :=
  boardEnv [] noMember
           (fun _ => Ok [str "What is the deadline? @bogoego";
                         str "Friday @manager"; str "No, Monday @manager"])
           createAll (Ok (str "ok")).

(** A board that cannot be reached, with a model that answers. *)
Definition boardDown : error := ErrorNew (str "board unavailable").

Definition offlineBoardEnv : Env :=
  mkEnv (fun _ => Some boardDown)
        (fun _ => Err boardDown)
        (fun _ _ => Err boardDown)
        (fun _ _ => Err boardDown)
        (fun _ _ _ _ => Err boardDown)
        (fun _ _ _ => Some boardDown)
        (fun _ _ => Err boardDown)
        (fun _ => Ok [])
        (fun _ _ => Ok (str "ok"))
        (fun _ _ => Ok (str "ok"))
        (fun path => path)
        (fun _ _ => false).

(** A board whose lookup by name returns the member together with an
    error (a stale cache, say), and whose writes succeed. *)
Definition staleLookupEnv : WriteEnv :=
  mkWriteEnv
    (fun _ name =>
       if gostring_eqb name (str "dev")
       then (Some (trello.mkMember (str "m2") (str "dev")),
             Some (ErrorNew (str "served from cache")))
       else (None, None))
    (fun _ _ _ => None)
    (fun _ _ _ => None)
    (fun _ _ _ => None).

(** A board with two cards in the IMPORTANT list and one elsewhere. *)
Definition guidanceCards : list trello.Card :=
  [trello.mkCard (str "g1") (str "Style") (str "Use gofmt")
                 (str "IMPORTANT") [];
   exampleCard;
   trello.mkCard (str "g2") (str "Tests") (str "Cover every handler")
                 (str "IMPORTANT") []].

Definition guidanceEnv : Env :=
  boardEnv guidanceCards noMember (fun _ => Ok []) createAll (Ok (str "ok")).

(** A repository of two files, as the read of the agent returns it. *)
Definition twoFiles : list (gostring * gostring) :=
  [(str "cmd/main.go", str "package main");
   (str "README.md", str "# agents")].

Definition twoFilesEnv : Env :=
  mkEnv (fun _ => None)
        (fun _ => Ok [])
        (fun _ memberID => noMember memberID)
        (fun _ name => Ok name)
        (fun _ title description listID => createAll title description listID)
        (fun _ _ _ => None)
        (fun _ _ => Ok [])
        (fun _ => Ok twoFiles)
        (fun _ _ => Ok (str "ok"))
        (fun _ _ => Ok (str "ok"))
        (fun path => path)
        (fun _ _ => false).

(** The three tasks of [threeTasks]. *)
Definition threeParsedTasks : list Task :=
  [mkTask (str "Add retry") (str "Implement exponential backoff");
   mkTask (str "Add cache") (str "Cache the report for one hour");
   mkTask (str "Add metrics") []].

(** An agent named "bogo", whose tag "@bogo" is a prefix of the tag
    "@bogoego" that ends every question, on a board that holds the posted
    question only. *)
Definition bogo : AIAgent := mkAgent (str "bogo") (str "decompose").

Definition ownQuestionEnv : Env :=
  boardEnv [] noMember
           (fun _ => Ok [threeTasks ++ [nl] ++ str "@bogoego"])
           createAll (Ok threeTasks).

(** * Facts about the string functions *)

Ltac split_ifs :=
  repeat match goal with
         | |- context [if ?b then _ else _] => destruct b eqn:?
         end.

Ltac nat_tests :=
  repeat match goal with
         | H : (_ <? _) = true |- _ => apply Nat.ltb_lt in H
         | H : (_ <? _) = false |- _ => apply Nat.ltb_ge in H
         | H : (_ <=? _) = true |- _ => apply Nat.leb_le in H
         | H : (_ <=? _) = false |- _ => apply Nat.leb_gt in H
         | H : (_ =? _) = true |- _ => apply Nat.eqb_eq in H
         | H : (_ =? _) = false |- _ => apply Nat.eqb_neq in H
         end.

Section DecodeFacts.

Import utf8.

Lemma first_sizes b sz lo hi :
  first b = Lead sz lo hi -> 2 <= sz <= 4 /\ (0x80 <= lo)%N /\ (0x80 <= b)%N.
Proof.
  unfold first.
  destruct (N.ltb_spec b 0x80); [discriminate|].
  split_ifs; intros E; inversion E; subst; repeat split; lia.
Qed.

Lemma Decode_width_pos s : s <> [] -> 1 <= snd (DecodeRuneInString s).
Proof.
  destruct s as [|c0 s]; [congruence|intros _].
  unfold DecodeRuneInString.
  destruct (first (byteval c0)); simpl; try lia.
  destruct s as [|c1 [|c2 [|c3 s]]]; split_ifs; simpl; lia.
Qed.

Lemma Decode_width_le s : snd (DecodeRuneInString s) <= length s.
Proof.
  destruct s as [|c0 s]; [simpl; lia|].
  unfold DecodeRuneInString.
  destruct (first (byteval c0)); simpl; try lia.
  destruct s as [|c1 [|c2 [|c3 s]]]; split_ifs; simpl; lia.
Qed.

(** Decoding looks at no byte beyond the sequence the lead byte announces:
    on a non-empty prefix it gives the same rune or [RuneError]. *)
Lemma Decode_firstn s n :
  0 < n ->
  DecodeRuneInString (firstn n s) = DecodeRuneInString s
  \/ DecodeRuneInString (firstn n s) = (RuneError, 1).
Proof.
  intros Hn.
  destruct s as [|c0 s]; [rewrite firstn_nil; now left|].
  destruct n as [|n]; [lia|]. simpl firstn.
  unfold DecodeRuneInString.
  destruct (first (byteval c0)) eqn:F; auto.
  apply first_sizes in F. destruct F as [Hsz _].
  destruct s as [|c1 [|c2 [|c3 s]]];
    destruct n as [|[|[|n]]]; simpl firstn; simpl length;
      split_ifs; nat_tests; auto; try lia.
Qed.


Lemma RuneError_not_space : unicode.IsSpace RuneError = false.
Proof. reflexivity. Qed.

(** A rune decoded from the whole of [p] by the backward decoder is the
    rune the forward decoder finds at the start of [p], or [RuneError]. *)
Lemma DecodeLast_whole p r :
  p <> [] ->
  DecodeLastRuneInString p = (r, length p) ->
  r = fst (DecodeRuneInString p) \/ r = RuneError.
Proof.
  intros Hp. unfold DecodeLastRuneInString.
  destruct (Nat.eqb_spec (length p) 0) as [E|E].
  { destruct p; [congruence|discriminate]. }
  destruct (N.ltb_spec (byteval (nth (length p - 1) p zero)) RuneSelf) as [A|A].
  - intros H. inversion H as [[Hr Hl]].
    destruct p as [|c [|c' p]]; simpl in *; try lia.
    left. unfold DecodeRuneInString, first.
    unfold RuneSelf in A.
    destruct (N.ltb_spec (byteval c) 128); [reflexivity|lia].
  - set (start := Z.to_nat _).
    destruct (DecodeRuneInString (skipn start p)) as [r' size] eqn:D.
    destruct (Nat.eqb_spec (start + size) (length p)) as [L|L].
    + intros H. inversion H; subst.
      assert (start = 0) by lia.
      left. replace start with 0 in D by lia. simpl in D. now rewrite D.
    + intros H. inversion H. now right.
Qed.

Lemma DecodeLast_width p :
  p <> [] ->
  1 <= snd (DecodeLastRuneInString p) <= length p.
Proof.
  intros Hp. unfold DecodeLastRuneInString.
  assert (1 <= length p) by (destruct p; [congruence|simpl; lia]).
  destruct (Nat.eqb_spec (length p) 0); [lia|].
  destruct (N.ltb_spec (byteval (nth (length p - 1) p zero)) RuneSelf); [simpl; lia|].
  set (start := Z.to_nat _).
  destruct (DecodeRuneInString (skipn start p)) as [r' size] eqn:D.
  destruct (Nat.eqb_spec (start + size) (length p)) as [L|L]; simpl; [|lia].
  assert (Hst : start < length p).
  { subst start.
    assert (backToStart UTFMax p (Z.of_nat (length p) - 2)
              (Z.max 0 (Z.of_nat (length p) - Z.of_nat UTFMax))
            <= Z.of_nat (length p) - 2)%Z; [|lia].
    generalize (Z.of_nat (length p) - 2)%Z as st.
    generalize (Z.max 0 (Z.of_nat (length p) - Z.of_nat UTFMax)) as lim.
    generalize UTFMax as fuel.
    induction fuel as [|fuel IH]; intros lim st; simpl; [lia|].
    split_ifs; try lia. specialize (IH lim (st - 1)%Z). lia. }
  assert (Hne : skipn start p <> []).
  { intros E. apply (f_equal (@Datatypes.length ascii)) in E.
    rewrite length_skipn in E. simpl in E. lia. }
  pose proof (Decode_width_pos Hne) as W. rewrite D in W. simpl in W. lia.
Qed.

End DecodeFacts.


Lemma headNonSpace_nonempty s : headNonSpace s = true -> s <> [].
Proof. destruct s; [discriminate|congruence]. Qed.

Lemma headNonSpace_firstn s n :
  0 < n -> headNonSpace s = true -> headNonSpace (firstn n s) = true.
Proof.
  intros Hn H.
  destruct s as [|c s]; [discriminate|].
  destruct (Decode_firstn (c :: s) Hn) as [E|E];
    destruct n; try lia; simpl firstn in *; unfold headNonSpace;
      rewrite E; auto.
Qed.

Section TrimFacts.

Import utf8 strings.

Lemma lastIndexFunc_found fuel : forall s i,
  headNonSpace s = true -> 0 < i <= length s -> i <= fuel ->
  exists j, lastIndexFunc fuel unicode.IsSpace false s i = Some j /\ j < i.
Proof.
  induction fuel as [|fuel IH]; intros s i Hs Hi Hf; [lia|].
  simpl. destruct (Nat.ltb_spec 0 i) as [_|]; [|lia].
  assert (Hp : firstn i s <> []).
  { apply headNonSpace_nonempty, headNonSpace_firstn; [lia|assumption]. }
  pose proof (DecodeLast_width Hp) as W.
  rewrite length_firstn, Nat.min_l in W by lia.
  destruct (DecodeLastRuneInString (firstn i s)) as [r size] eqn:D.
  simpl in W.
  destruct (unicode.IsSpace r) eqn:Sp; simpl.
  - destruct (Nat.eq_dec (i - size) 0) as [Z|NZ].
    + exfalso. assert (size = length (firstn i s)).
      { rewrite length_firstn, Nat.min_l; lia. }
      subst size.
      assert (Hh : headNonSpace (firstn i s) = true).
      { apply headNonSpace_firstn; [lia|assumption]. }
      destruct (DecodeLast_whole Hp D) as [E|E]; subst r.
      * destruct (firstn i s); [discriminate|]. unfold headNonSpace in Hh.
        rewrite Sp in Hh. discriminate.
      * discriminate.
    + destruct (IH s (i - size) Hs) as [j [Hj Hlt]]; try lia.
      exists j. split; [assumption|lia].
  - exists (i - size). split; [reflexivity|lia].
Qed.

Lemma TrimRightFunc_head s :
  headNonSpace s = true ->
  headNonSpace (TrimRightFunc s unicode.IsSpace) = true.
Proof.
  intros Hs. unfold TrimRightFunc.
  assert (Hl : 0 < length s).
  { destruct s; [discriminate|simpl; lia]. }
  destruct (@lastIndexFunc_found (length s) s (length s) Hs) as [j [-> Hj]];
    try lia.
  destruct (_ <=? _)%N.
  - destruct (DecodeRuneInString (skipn j s)) as [r wid] eqn:D.
    assert (Hne : skipn j s <> []).
    { intros E. apply (f_equal (@Datatypes.length ascii)) in E.
      rewrite length_skipn in E. simpl in E. lia. }
    pose proof (Decode_width_pos Hne) as W. rewrite D in W. simpl in W.
    apply headNonSpace_firstn; [lia|assumption].
  - apply headNonSpace_firstn; [lia|assumption].
Qed.

Lemma indexFunc_some fuel : forall s i0 i,
  indexFunc fuel unicode.IsSpace false s i0 = Some i ->
  exists k, i = i0 + k /\ headNonSpace (skipn k s) = true.
Proof.
  induction fuel as [|fuel IH]; intros s i0 i; simpl; [discriminate|].
  destruct s as [|c s]; [discriminate|].
  destruct (DecodeRuneInString (c :: s)) as [r size] eqn:D.
  destruct (unicode.IsSpace r) eqn:Sp; simpl.
  - intros H. apply IH in H. destruct H as [k [-> Hk]].
    exists (size + k). split; [lia|].
    rewrite skipn_skipn in Hk. now rewrite Nat.add_comm.
  - intros H. inversion H; subst. exists 0. split; [lia|].
    simpl skipn. unfold headNonSpace. now rewrite D; simpl; rewrite Sp.
Qed.

Lemma TrimLeftFunc_head s :
  TrimLeftFunc s unicode.IsSpace = []
  \/ headNonSpace (TrimLeftFunc s unicode.IsSpace) = true.
Proof.
  unfold TrimLeftFunc.
  destruct (indexFunc _ _ _ _ _) as [i|] eqn:E; [|now left].
  apply indexFunc_some in E. destruct E as [k [-> Hk]]. now right.
Qed.

Lemma TrimLeftFunc_id s :
  headNonSpace s = true -> TrimLeftFunc s unicode.IsSpace = s.
Proof.
  intros H. unfold TrimLeftFunc.
  destruct s as [|c s]; [discriminate|].
  simpl length. cbn [indexFunc].
  unfold headNonSpace in H.
  destruct (DecodeRuneInString (c :: s)) as [r size].
  simpl in H. apply negb_true_iff in H. rewrite H. reflexivity.
Qed.

Lemma TrimRightFunc_nil f : TrimRightFunc [] f = [].
Proof. reflexivity. Qed.

(** [TrimSpace] returns the empty string or a string that starts with a
    rune that is not white space. *)
Lemma TrimSpace_head s :
  TrimSpace s = [] \/ headNonSpace (TrimSpace s) = true.
Proof.
  unfold TrimSpace, TrimFunc.
  destruct (TrimLeftFunc_head s) as [E|E].
  - left. now rewrite E.
  - right. now apply TrimRightFunc_head.
Qed.

Lemma TrimSpace_keeps_head s :
  headNonSpace s = true -> headNonSpace (TrimSpace s) = true.
Proof.
  intros H. unfold TrimSpace, TrimFunc.
  rewrite (TrimLeftFunc_id s H). now apply TrimRightFunc_head.
Qed.

End TrimFacts.

Section SplitFacts.

Import utf8 strings.

Lemma HasPrefix_incl : forall prefix s,
  HasPrefix s prefix = true -> incl prefix s.
Proof.
  induction prefix as [|p prefix IH]; intros s H; [intros x []|].
  destruct s as [|c s]; [discriminate|]. simpl in H.
  destruct (ascii_dec c p); [subst|discriminate].
  intros x [<-|Hx]; [now left|right; now apply (IH s)].
Qed.

Lemma Index_eq s substr :
  Index s substr =
  if HasPrefix s substr then Some 0
  else match s with
       | [] => None
       | _ :: s' => option_map S (Index s' substr)
       end.
Proof. destruct s; reflexivity. Qed.

Lemma Index_some_incl sep : forall s m,
  Index s sep = Some m -> incl sep s.
Proof.
  induction s as [|c s IH]; intros m; rewrite Index_eq.
  - destruct (HasPrefix [] sep) eqn:P; [|discriminate].
    intros _. now apply HasPrefix_incl.
  - destruct (HasPrefix (c :: s) sep) eqn:P.
    + intros _. now apply HasPrefix_incl.
    + destruct (Index s sep) as [m'|] eqn:E; [|discriminate].
      intros _ x Hx. right. exact (IH m' eq_refl x Hx).
Qed.

Lemma Index_none_absent s sep x :
  In x sep -> ~ In x s -> Index s sep = None.
Proof.
  intros Hx Hs. destruct (Index s sep) as [m|] eqn:E; [|reflexivity].
  exfalso. apply Hs. exact (Index_some_incl _ _ E x Hx).
Qed.

Lemma Index_bound sep : forall s m,
  Index s sep = Some m -> m + length sep <= length s.
Proof.
  assert (P : forall prefix s, HasPrefix s prefix = true ->
                               length prefix <= length s).
  { induction prefix as [|p prefix IH]; intros s H; simpl; [lia|].
    destruct s as [|c s]; [discriminate|]. simpl in *.
    destruct (ascii_dec c p); [|discriminate].
    apply IH in H. lia. }
  induction s as [|c s IH]; intros m; rewrite Index_eq.
  - destruct (HasPrefix [] sep) eqn:E; [|discriminate].
    intros H. inversion H. apply P in E. simpl in *. lia.
  - destruct (HasPrefix (c :: s) sep) eqn:E.
    + intros H. inversion H. apply P in E. simpl in *. lia.
    + destruct (Index s sep) as [m'|]; [|discriminate].
      intros H. inversion H. specialize (IH m' eq_refl). simpl. lia.
Qed.

(** Without an instance of the separator, [Split] returns the string
    itself as its only element. *)
Lemma Split_no_sep s sep :
  sep <> [] -> Index s sep = None -> Split s sep = [s].
Proof.
  intros Hsep H. unfold Split.
  destruct sep; [congruence|].
  destruct (length s); simpl; [reflexivity|now rewrite H].
Qed.

Lemma Split_not_nil s sep : sep <> [] -> Split s sep <> [].
Proof.
  intros Hsep. unfold Split. destruct sep; [congruence|].
  destruct (length s); simpl; [discriminate|].
  destruct (Index s (a :: sep)); discriminate.
Qed.

(** The first line of a string that starts with a rune other than white
    space starts with such a rune as well. *)
Lemma Split_lines_head b :
  headNonSpace b = true ->
  exists l0 rest, Split b [nl] = l0 :: rest /\ headNonSpace l0 = true.
Proof.
  intros H. unfold Split.
  destruct b as [|c b]; [discriminate|]. simpl length. cbn [genSplit].
  destruct (Index (c :: b) [nl]) as [m|] eqn:E.
  - exists (firstn m (c :: b)), (genSplit (length b) (skipn (m + length [nl]) (c :: b)) [nl]).
    split; [reflexivity|].
    apply headNonSpace_firstn; [|assumption].
    destruct m; [|lia]. exfalso.
    simpl in E. destruct (ascii_dec c nl) as [->|].
    + discriminate H.
    + destruct (Index b [nl]); discriminate.
  - now exists (c :: b), [].
Qed.

End SplitFacts.

Section SpaceFacts.

Import utf8 strings.

Lemma indexFunc_none fuel : forall s i0,
  forallb unicode.IsSpace (runes fuel s) = true ->
  indexFunc fuel unicode.IsSpace false s i0 = None.
Proof.
  induction fuel as [|fuel IH]; intros s i0; simpl; [reflexivity|].
  destruct s as [|c s]; [reflexivity|].
  destruct (DecodeRuneInString (c :: s)) as [r size].
  simpl. intros H. apply andb_true_iff in H. destruct H as [-> H].
  simpl. now apply IH.
Qed.

Lemma whitespaceOnly_TrimSpace s :
  whitespaceOnly s = true -> TrimSpace s = [].
Proof.
  intros H. unfold TrimSpace, TrimFunc, TrimLeftFunc.
  now rewrite indexFunc_none.
Qed.

(** The bytes of a decoded rune other than [RuneError]: the rune itself
    when it is ASCII, bytes of 0x80 and above otherwise. *)
Lemma Decode_bytes s r size :
  DecodeRuneInString s = (r, size) -> r <> RuneError ->
  forall c, In c (firstn size s) ->
            (byteval c = r /\ (r < 0x80)%N) \/ (0x80 <= byteval c)%N.
Proof.
  destruct s as [|c0 s]; [simpl; intros H; inversion H; intros _ c []|].
  unfold DecodeRuneInString.
  destruct (first (byteval c0)) eqn:F.
  - intros H. inversion H; subst. intros _ c [<-|[]].
    left. split; [reflexivity|].
    unfold first in F. destruct (N.ltb_spec (byteval c0) 128); [assumption|].
    revert F. split_ifs; discriminate.
  - intros H. inversion H; congruence.
  - apply first_sizes in F. destruct F as [Hsz [Hlo Hb]].
    assert (O : forall l h b, (0x80 <= l)%N -> outside l h b = false ->
                              (0x80 <= b)%N).
    { intros l h b Hl. unfold outside. intros Ho.
      apply orb_false_iff in Ho. destruct Ho as [Ho _].
      apply N.ltb_ge in Ho. lia. }
    destruct s as [|c1 [|c2 [|c3 s]]]; simpl length; split_ifs;
      intros H; inversion H; subst; try congruence; intros _ c;
        simpl; nat_tests;
        repeat match goal with
               | Ho : outside _ _ _ = false |- _ =>
                 apply O in Ho; [|first [assumption|unfold locb; lia]]
               end;
        intuition (subst; auto).
Qed.

End SpaceFacts.

Section SpaceOnlyFacts.

Import utf8 strings.



Lemma ascii_space_not_at r :
  unicode.IsSpace r = true -> (r < 0x80)%N -> r <> 0x40%N.
Proof.
  intros H Hr ->. discriminate H.
Qed.

(** No byte of a string made of white space only is the byte '@'. *)
Lemma whitespaceOnly_bytes fuel : forall s,
  length s <= fuel ->
  forallb unicode.IsSpace (runes fuel s) = true ->
  forall c, In c s -> byteval c <> 0x40%N.
Proof.
  induction fuel as [|fuel IH]; intros s Hl.
  - destruct s; [intros _ c []|simpl in Hl; lia].
  - cbn [runes]. destruct s as [|c0 s]; [intros _ c []|].
    destruct (DecodeRuneInString (c0 :: s)) as [r size] eqn:D.
    cbn [forallb]. intros H. apply andb_true_iff in H. destruct H as [Sp H].
    assert (W : 1 <= size).
    { pose proof (@Decode_width_pos (c0 :: s)) as W. rewrite D in W.
      apply W. discriminate. }
    intros c Hc. rewrite <- (firstn_skipn size (c0 :: s)) in Hc.
    apply in_app_or in Hc. destruct Hc as [Hc|Hc].
    + assert (Hr : r <> RuneError) by (intros ->; discriminate Sp).
      destruct (Decode_bytes _ D Hr c Hc) as [[-> Hlt]|Hge].
      * now apply ascii_space_not_at.
      * lia.
    + apply (IH (skipn size (c0 :: s))); auto.
      rewrite length_skipn. cbn [length] in *. lia.
Qed.

Lemma whitespaceOnly_no_delimiter s :
  whitespaceOnly s = true -> Index s taskDelimiter = None.
Proof.
  intros H. apply Index_none_absent with (x := "@"%char).
  - simpl. tauto.
  - intros Hin.
    apply (@whitespaceOnly_bytes (length s) s (le_n _) H _ Hin).
    reflexivity.
Qed.

End SpaceOnlyFacts.

(** * The task-block parser *)

Section ParserFacts.

Import strings.

(** One block of the loop: dropped when it trims to the empty string,
    appended as [taskOfSegment] otherwise. *)
Lemma parseTaskBlocks_step block rest tasks :
  parseTaskBlocks (block :: rest) tasks =
  if wellFormedSegment block
  then parseTaskBlocks rest (tasks ++ [taskOfSegment block])
  else parseTaskBlocks rest tasks.
Proof.
  cbn [parseTaskBlocks]. unfold wellFormedSegment, taskOfSegment.
  destruct (isEmpty (TrimSpace block)) eqn:E; [reflexivity|]. simpl negb.
  cbv iota.
  assert (Hne : Split (TrimSpace block) [nl] <> []).
  { apply Split_not_nil. discriminate. }
  destruct (Split (TrimSpace block) [nl]) as [|l0 ls]; [congruence|].
  cbn [length hd tl nth skipn]. simpl (_ =? _).
  destruct ls as [|l1 ls]; reflexivity.
Qed.

Lemma parseTaskBlocks_filter : forall taskBlocks tasks,
  parseTaskBlocks taskBlocks tasks =
  tasks ++ map taskOfSegment (filter wellFormedSegment taskBlocks).
Proof.
  induction taskBlocks as [|block rest IH]; intros tasks.
  - simpl. now rewrite app_nil_r.
  - rewrite parseTaskBlocks_step. simpl filter.
    destruct (wellFormedSegment block); rewrite IH; [|reflexivity].
    simpl. now rewrite <- app_assoc.
Qed.

Lemma taskOfSegment_title segment :
  wellFormedSegment segment = true ->
  headNonSpace (Title (taskOfSegment segment)) = true.
Proof.
  unfold wellFormedSegment, taskOfSegment. intros H.
  destruct (TrimSpace_head segment) as [E|E].
  { rewrite E in H. discriminate. }
  destruct (Split_lines_head _ E) as [l0 [rest [-> Hl0]]].
  simpl. now apply TrimSpace_keeps_head.
Qed.

End ParserFacts.

(** * Facts about runs *)

Section PollFacts.

Variable env : Env.
Variable card : trello.Card.
Variable requiredTag : gostring.

Local Open Scope go_scope.

Lemma waitLoop_step remaining attempt t :
  waitLoop env (S remaining) attempt card requiredTag t =
  match GetComments env t card with
  | Err e =>
    (Err (ErrorWrap (str "failed to read comments: ") e),
     t ++ [CallGetComments card (Err e)])
  | Ok comments =>
    match find (tagged requiredTag) comments with
    | Some comment => (Ok comment, t ++ [CallGetComments card (Ok comments)])
    | None =>
      waitLoop env remaining (attempt + 1) card requiredTag
               (t ++ pollRound card requiredTag attempt comments)
    end
  end.
Proof.
  cbn [waitLoop]. unfold tryWrap, bind, ReadComments, call.
  destruct (GetComments env t card) as [comments|e]; [|reflexivity].
  unfold tagged.
  destruct (find _ comments); [reflexivity|].
  unfold logPrintf, emit, pollRound.
  rewrite <- !app_assoc. reflexivity.
Qed.

(** The poll run against a board that answers [reads], none with a tagged
    comment, and then [final]. *)
Lemma waitLoop_run : forall reads remaining attempt t,
  length reads < remaining ->
  untagged requiredTag reads ->
  answers env card requiredTag attempt t reads ->
  waitLoop env remaining attempt card requiredTag t =
  waitLoop env (remaining - length reads)
           (attempt + Z.of_nat (length reads)) card requiredTag
           (t ++ pollRounds card requiredTag attempt reads).
Proof.
  induction reads as [|comments rest IH]; intros remaining attempt t Hl Hu Ha.
  - simpl. now rewrite Nat.sub_0_r, Z.add_0_r, app_nil_r.
  - destruct remaining as [|remaining]; [simpl in Hl; lia|].
    simpl in Hl. inversion Hu as [|? ? Hc Hu']; subst.
    destruct Ha as [Hg Ha].
    rewrite waitLoop_step, Hg, Hc.
    rewrite IH by (assumption || lia).
    cbn [length pollRounds]. rewrite app_assoc.
    replace (attempt + 1 + Z.of_nat (length rest))%Z
      with (attempt + Z.of_nat (S (length rest)))%Z by lia.
    reflexivity.
Qed.

Lemma waitLoop_exhausted : forall reads attempt t,
  untagged requiredTag reads ->
  answers env card requiredTag attempt t reads ->
  waitLoop env (length reads) attempt card requiredTag t =
  (Err (timeoutError requiredTag),
   t ++ pollRounds card requiredTag attempt reads).
Proof.
  induction reads as [|comments rest IH]; intros attempt t Hu Ha.
  - simpl. now rewrite app_nil_r.
  - inversion Hu as [|? ? Hc Hu']; subst. destruct Ha as [Hg Ha].
    cbn [length]. rewrite waitLoop_step, Hg, Hc.
    rewrite IH by assumption.
    cbn [pollRounds]. now rewrite app_assoc.
Qed.

(** Every run of the poll has one of three shapes: a tagged comment found
    after fewer than [remaining] unsuccessful reads, a read that failed
    after fewer than [remaining] unsuccessful reads, or [remaining]
    unsuccessful reads. *)
Lemma waitLoop_cases : forall remaining attempt t,
  exists reads,
    untagged requiredTag reads
    /\ answers env card requiredTag attempt t reads
    /\ let t' := t ++ pollRounds card requiredTag attempt reads in
       ((length reads < remaining
         /\ exists comments comment,
             GetComments env t' card = Ok comments
             /\ find (tagged requiredTag) comments = Some comment
             /\ waitLoop env remaining attempt card requiredTag t =
                (Ok comment, t' ++ [CallGetComments card (Ok comments)]))
        \/ (length reads < remaining
            /\ exists e,
                GetComments env t' card = Err e
                /\ waitLoop env remaining attempt card requiredTag t =
                   (Err (ErrorWrap (str "failed to read comments: ") e),
                    t' ++ [CallGetComments card (Err e)]))
        \/ (length reads = remaining
            /\ waitLoop env remaining attempt card requiredTag t =
               (Err (timeoutError requiredTag), t'))).
Proof.
  induction remaining as [|remaining IH]; intros attempt t.
  - exists []. split; [constructor|]. split; [exact I|].
    right; right. split; [reflexivity|]. simpl. now rewrite app_nil_r.
  - destruct (GetComments env t card) as [comments|e] eqn:Hg.
    + destruct (find (tagged requiredTag) comments) as [comment|] eqn:Hc.
      * exists []. split; [constructor|]. split; [exact I|].
        left. split; [simpl; lia|].
        exists comments, comment. cbn [pollRounds]. rewrite app_nil_r.
        split; [assumption|]. split; [assumption|].
        now rewrite waitLoop_step, Hg, Hc.
      * destruct (IH (attempt + 1)%Z
                     (t ++ pollRound card requiredTag attempt comments))
          as [reads [Hu [Ha Hcases]]].
        exists (comments :: reads).
        split; [now constructor|]. split; [now split|].
        cbn [pollRounds length]. cbv zeta in *.
        rewrite waitLoop_step, Hg, Hc.
        rewrite !app_assoc.
        destruct Hcases as [[Hl H]|[[Hl H]|[Hl H]]].
        -- left. split; [lia|exact H].
        -- right; left. split; [lia|exact H].
        -- right; right. split; [lia|exact H].
    + exists []. split; [constructor|]. split; [exact I|].
      right; left. split; [simpl; lia|].
      exists e. cbn [pollRounds]. rewrite app_nil_r.
      split; [assumption|]. now rewrite waitLoop_step, Hg.
Qed.

Lemma countReads_app t1 t2 :
  countReads (t1 ++ t2) = countReads t1 + countReads t2.
Proof. unfold countReads. now rewrite filter_app, length_app. Qed.

Lemma countSleeps_app t1 t2 :
  countSleeps (t1 ++ t2) = countSleeps t1 + countSleeps t2.
Proof. unfold countSleeps. now rewrite filter_app, length_app. Qed.

Lemma pollRounds_counts : forall reads attempt,
  countReads (pollRounds card requiredTag attempt reads) = length reads
  /\ countSleeps (pollRounds card requiredTag attempt reads) = length reads.
Proof.
  induction reads as [|comments rest IH]; intros attempt; [now split|].
  cbn [pollRounds]. rewrite countReads_app, countSleeps_app.
  destruct (IH (attempt + 1)%Z) as [-> ->]. now split.
Qed.

End PollFacts.

Section CreationFacts.

Variable env : Env.

Lemma createLoop_run : forall tasks listID createdTickets t,
  exists outcomes,
    creationAnswers env listID t tasks outcomes
    /\ createLoop env tasks listID createdTickets t =
       (createdTickets ++ createdCards outcomes,
        t ++ creationTrace listID tasks outcomes).
Proof.
  induction tasks as [|task rest IH]; intros listID createdTickets t.
  - exists []. split; [exact I|]. simpl. unfold ret.
    now rewrite !app_nil_r.
  - cbn [createLoop]. unfold bind, call.
    destruct (CreateCard env t (Title task) (Description task) listID)
      as [techTicket|err] eqn:E.
    + destruct (IH listID (createdTickets ++ [techTicket])
                   (t ++ [CallCreateCard (Title task) (Description task)
                                         listID (Ok techTicket)]))
        as [outcomes [Ha Hrun]].
      exists (Ok techTicket :: outcomes). split.
      * split; [assumption|exact Ha].
      * rewrite Hrun. cbn [createdCards creationTrace creationStep].
        now rewrite <- !app_assoc.
    + unfold logPrintf, emit.
      destruct (IH listID createdTickets
                   ((t ++ [CallCreateCard (Title task) (Description task)
                                          listID (Err err)])
                    ++ [LogPrintf
                          (str "failed to create technical ticket for task '%s': %v")
                          [ArgString (Title task); ArgError err]]))
        as [outcomes [Ha Hrun]].
      exists (Err err :: outcomes). split.
      * split; [assumption|].
        cbn [creationStep]. now rewrite <- app_assoc in Ha.
      * rewrite Hrun. cbn [createdCards creationTrace creationStep].
        now rewrite <- !app_assoc.
Qed.

Lemma creationAnswers_length : forall tasks listID t outcomes,
  creationAnswers env listID t tasks outcomes ->
  length outcomes = length tasks.
Proof.
  induction tasks as [|task rest IH]; intros listID t [|o outcomes]; simpl;
    try tauto.
  intros [_ H]. f_equal. exact (IH _ _ _ H).
Qed.

Lemma creationCalls_app t1 t2 :
  creationCalls (t1 ++ t2) = creationCalls t1 ++ creationCalls t2.
Proof.
  induction t1 as [|ev t1 IH]; [reflexivity|].
  destruct ev; simpl; now rewrite IH.
Qed.

Lemma creationCalls_trace listID : forall tasks outcomes,
  length outcomes = length tasks ->
  creationCalls (creationTrace listID tasks outcomes) =
  map (fun task => (Title task, Description task, listID)) tasks.
Proof.
  induction tasks as [|task rest IH]; intros [|o outcomes] Hl;
    try discriminate; [reflexivity|].
  cbn [creationTrace]. rewrite creationCalls_app.
  simpl in Hl. rewrite IH by lia.
  destruct o; reflexivity.
Qed.

Lemma createdCards_length outcomes :
  length (createdCards outcomes) + length (filter isFailure outcomes)
  = length outcomes.
Proof.
  induction outcomes as [|[card|err] rest IH]; simpl; lia.
Qed.

End CreationFacts.

Section GuidanceFacts.

Lemma gostring_eqb_eq a b : gostring_eqb a b = true <-> a = b.
Proof.
  unfold gostring_eqb. destruct (list_eq_dec ascii_dec a b); split;
    congruence.
Qed.

Lemma guidanceLoop_filter : forall cards listID guidanceBuilder,
  guidanceLoop cards listID guidanceBuilder =
  guidanceBuilder
  ++ List.concat (map guidanceBlock (filter (inColumn listID) cards)).
Proof.
  induction cards as [|card rest IH]; intros listID guidanceBuilder.
  - simpl. now rewrite app_nil_r.
  - cbn [guidanceLoop filter]. unfold inColumn at 1.
    destruct (gostring_eqb (trello.IDList card) listID).
    + rewrite IH. cbn [map List.concat]. unfold guidanceBlock.
      now rewrite <- !app_assoc.
    + apply IH.
Qed.

(** The aggregated text is the bare header exactly when no card is in the
    column. *)
Lemma guidance_is_header cards listID :
  gostring_eqb (guidanceLoop cards listID guidanceHeader) guidanceHeader
  = true
  <-> filter (inColumn listID) cards = [].
Proof.
  rewrite gostring_eqb_eq, guidanceLoop_filter. split.
  - intros H.
    rewrite <- (app_nil_r guidanceHeader) in H at 2.
    apply app_inv_head in H.
    destruct (filter (inColumn listID) cards) as [|card rest];
      [reflexivity|discriminate H].
  - intros ->. apply app_nil_r.
Qed.

Lemma filter_nil_iff {A} (f : A -> bool) l :
  filter f l = [] <-> forall x, In x l -> f x = false.
Proof.
  induction l as [|y l IH]; simpl; [tauto|].
  destruct (f y) eqn:E; split.
  - discriminate.
  - intros H. specialize (H y (or_introl eq_refl)). congruence.
  - intros H x [<-|Hx]; [assumption|now apply IH].
  - intros H. apply IH. auto.
Qed.

End GuidanceFacts.

Section AssignmentFacts.

Variable env : Env.
Variable a : AIAgent.

Lemma belongsToMeLoop_static members :
  (forall t memberID, GetMember env t memberID = members memberID) ->
  forall memberIDs t,
    fst (belongsToMeLoop env a memberIDs t)
    = existsb (resolvesToMe env a members) memberIDs.
Proof.
  intros Hm. induction memberIDs as [|memberID rest IH]; intros t.
  - reflexivity.
  - cbn [belongsToMeLoop existsb]. unfold bind, call, resolvesToMe at 1.
    rewrite Hm. destruct (members memberID) as [member|e].
    + destruct (fold.EqualFold _ _ _); [reflexivity|apply IH].
    + apply IH.
Qed.

Lemma RefreshProjectContext_succeeds t :
  refreshSucceeds env -> fst (RefreshProjectContext env t) = None.
Proof.
  intros H.
  cbv [RefreshProjectContext tryWrap bind call ret ReadAllGitFiles failWith
                             Returns_error].
  destruct (H t) as [[files ->] _]. cbv beta iota.
  match goal with
  | |- context [Chat env ?t' ?p] =>
    destruct (H t') as [_ Hc]; destruct (Hc p) as [reply ->]
  end.
  reflexivity.
Qed.

Lemma assignedLoop_step card rest assigned need t :
  assignedLoop env a (card :: rest) assigned need t =
  let (mine, t1) := TicketBelongsToMe env a card t in
  if mine then
    if need then
      let (r, t2) := RefreshProjectContext env t1 in
      match r with
      | Some err =>
        (Err (ErrorWrap (str "failed to refresh context: ") err), t2)
      | None => assignedLoop env a rest (assigned ++ [card]) false t2
      end
    else assignedLoop env a rest (assigned ++ [card]) need t1
  else assignedLoop env a rest assigned need t1.
Proof.
  cbn [assignedLoop]. unfold bind at 1.
  destruct (TicketBelongsToMe env a card t) as [mine t1].
  destruct mine; [|reflexivity].
  destruct need; [|reflexivity].
  unfold checkWrap, bind.
  destruct (RefreshProjectContext env t1) as [[err|] t2]; reflexivity.
Qed.

Lemma assignedLoop_subset members :
  (forall t memberID, GetMember env t memberID = members memberID) ->
  forall cards assigned need t result,
    fst (assignedLoop env a cards assigned need t) = Ok result ->
    result = assigned ++ filter (assignedToMe env a members) cards.
Proof.
  intros Hm.
  induction cards as [|card rest IH]; intros assigned need t result.
  - simpl. intros H. inversion H. now rewrite app_nil_r.
  - rewrite assignedLoop_step. cbn [filter]. unfold assignedToMe at 1.
    rewrite <- (belongsToMeLoop_static members Hm (trello.IDMembers card) t).
    unfold TicketBelongsToMe.
    destruct (belongsToMeLoop env a (trello.IDMembers card) t) as [mine t1].
    cbn [fst]. destruct mine.
    + destruct need.
      * destruct (RefreshProjectContext env t1) as [[err|] t2];
          [discriminate|].
        intros H. apply IH in H. now rewrite <- app_assoc in H.
      * intros H. apply IH in H. now rewrite <- app_assoc in H.
    + apply IH.
Qed.

Lemma assignedLoop_succeeds members :
  (forall t memberID, GetMember env t memberID = members memberID) ->
  refreshSucceeds env ->
  forall cards assigned need t,
    fst (assignedLoop env a cards assigned need t)
    = Ok (assigned ++ filter (assignedToMe env a members) cards).
Proof.
  intros Hm Hr.
  induction cards as [|card rest IH]; intros assigned need t.
  - simpl. now rewrite app_nil_r.
  - rewrite assignedLoop_step. cbn [filter]. unfold assignedToMe at 1.
    rewrite <- (belongsToMeLoop_static members Hm (trello.IDMembers card) t).
    unfold TicketBelongsToMe.
    destruct (belongsToMeLoop env a (trello.IDMembers card) t) as [mine t1].
    cbn [fst]. destruct mine.
    + destruct need.
      * pose proof (RefreshProjectContext_succeeds t1 Hr) as R.
        destruct (RefreshProjectContext env t1) as [r t2].
        cbn [fst] in R. subst r.
        rewrite IH. now rewrite <- app_assoc.
      * rewrite IH. now rewrite <- app_assoc.
    + apply IH.
Qed.

End AssignmentFacts.

Section FoldFacts.

Local Open Scope N_scope.

Lemma Decode_ascii c s :
  byteval c < 0x80 -> utf8.DecodeRuneInString (c :: s) = (byteval c, 1%nat).
Proof.
  intros H. unfold utf8.DecodeRuneInString, utf8.first.
  destruct (N.ltb_spec (byteval c) 128); [reflexivity|lia].
Qed.

Lemma equalRune_ascii orbit x y :
  x < 0x80 -> y < 0x80 ->
  fold.equalRune orbit x y = (lowerByte x =? lowerByte y).
Proof.
  intros Hx Hy. unfold fold.equalRune, lowerByte, utf8.RuneSelf.
  destruct (N.eqb_spec y x) as [->|Hne].
  - symmetry. apply N.eqb_refl.
  - destruct (N.ltb_spec y x); cbv beta iota zeta;
      repeat (match goal with
              | |- context [N.ltb ?u ?v] => destruct (N.ltb_spec u v)
              | |- context [N.leb ?u ?v] => destruct (N.leb_spec u v)
              | |- context [N.eqb ?u ?v] => destruct (N.eqb_spec u v)
              end; cbn [andb]; cbv beta iota);
      try reflexivity; exfalso; lia.
Qed.

(** On ASCII strings [EqualFold] holds exactly of the strings that are
    equal once their upper-case letters are mapped to lower case. *)
Lemma EqualFold_ascii orbit : forall s t,
  isASCII s = true -> isASCII t = true ->
  (fold.EqualFold orbit s t = true <-> foldKey s = foldKey t).
Proof.
  unfold fold.EqualFold.
  induction s as [|c s IH]; intros t Hs Ht.
  - simpl. destruct t; simpl; split; congruence.
  - cbn [length fold.equalFoldLoop].
    simpl in Hs. apply andb_true_iff in Hs. destruct Hs as [Hc Hs].
    apply N.ltb_lt in Hc. rewrite (@Decode_ascii c s Hc).
    destruct t as [|d t]; [simpl; split; congruence|].
    simpl in Ht. apply andb_true_iff in Ht. destruct Ht as [Hd Ht].
    apply N.ltb_lt in Hd. rewrite (@Decode_ascii d t Hd).
    rewrite equalRune_ascii by assumption.
    cbn [skipn foldKey map].
    destruct (N.eqb_spec (lowerByte (byteval c)) (lowerByte (byteval d)))
      as [E|E].
    + rewrite (IH t Hs Ht). unfold foldKey. split.
      * intros ->. now rewrite E.
      * intros H. now inversion H.
    + split; [discriminate|]. intros H. inversion H. contradiction.
Qed.

End FoldFacts.

Section PropagationFacts.

Variable exempt : event -> bool.

Local Open Scope go_scope.

Lemma failures_app t1 t2 :
  failures exempt (t1 ++ t2) = failures exempt t1 ++ failures exempt t2.
Proof. unfold failures. apply flat_map_app. Qed.




Lemma quiet_emit_log format args :
  quiet exempt (logPrintf format args).
Proof.
  intros t. eexists. split; [reflexivity|].
  unfold failures. simpl. now destruct (exempt _).
Qed.




Lemma tidy_ret {X} `{Returns X} (x : X) : tidy exempt (ret x).
Proof.
  intros t. exists []. split; [simpl; now rewrite app_nil_r|now left].
Qed.

Lemma tidy_bind_quiet {A X} `{Returns X} (c : M A) (k : A -> M X) :
  quiet exempt c -> (forall x, tidy exempt (k x)) ->
  tidy exempt (bind c k).
Proof.
  intros Hc Hk t. unfold bind.
  destruct (Hc t) as [new1 [Hs1 Hf1]].
  destruct (c t) as [x t1]. cbn [snd] in Hs1. subst t1.
  destruct (Hk x (t ++ new1)) as [new2 [Hs2 Hf2]].
  exists (new1 ++ new2). split.
  - rewrite Hs2. now rewrite app_assoc.
  - rewrite failures_app, Hf1. exact Hf2.
Qed.

Lemma tidy_tryWrap_call {A X} `{Returns X}
      (Hlaw : forall e, errorOf (failWith e) = Some e)
      (prefix : gostring) (answer : list event -> result A)
      (record : result A -> event) (k : A -> M X) :
  (forall r, eventError (record r) = errorOf r) ->
  (forall x, tidy exempt (k x)) ->
  tidy exempt (tryWrap prefix (call answer record) k).
Proof.
  intros Hrec Hk t. unfold tryWrap, bind, call.
  destruct (answer t) as [x|e] eqn:E.
  - destruct (Hk x (t ++ [record (Ok x)])) as [new [Hs Hf]].
    exists ([record (Ok x)] ++ new). split.
    + rewrite Hs. now rewrite app_assoc.
    + rewrite failures_app.
      replace (failures exempt [record (Ok x)]) with (@nil error);
        [exact Hf|].
      unfold failures. simpl. rewrite Hrec. simpl.
      now destruct (exempt _).
  - exists [record (Err e)]. split; [reflexivity|].
    unfold failures. simpl. rewrite Hrec. simpl.
    destruct (exempt _); [now left|right].
    exists e, (ErrorWrap prefix e). split; [reflexivity|].
    split; [apply Hlaw|constructor].
Qed.

Lemma tidy_checkWrap_call {X} `{Returns X}
      (Hlaw : forall e, errorOf (failWith e) = Some e)
      (prefix : gostring) (answer : list event -> option error)
      (record : option error -> event) (k : M X) :
  (forall r, eventError (record r) = r) ->
  tidy exempt k ->
  tidy exempt (checkWrap prefix (call answer record) k).
Proof.
  intros Hrec Hk t. unfold checkWrap, bind, call.
  destruct (answer t) as [e|] eqn:E.
  - exists [record (Some e)]. split; [reflexivity|].
    unfold failures. simpl. rewrite Hrec.
    destruct (exempt _); [now left|right].
    exists e, (ErrorWrap prefix e). split; [reflexivity|].
    split; [apply Hlaw|constructor].
  - destruct (Hk (t ++ [record None])) as [new [Hs Hf]].
    exists ([record None] ++ new). split.
    + rewrite Hs. now rewrite app_assoc.
    + rewrite failures_app.
      replace (failures exempt [record None]) with (@nil error);
        [exact Hf|].
      unfold failures. simpl. rewrite Hrec.
      now destruct (exempt _).
Qed.



End PropagationFacts.

Section OperationFacts.

Variable exempt : event -> bool.
Variable env : Env.

Local Open Scope go_scope.


Lemma law_error (e : error) :
  errorOf (failWith (X := option error) e) = Some e.
Proof. reflexivity. Qed.




Lemma tidy_LoadGuidanceTickets : tidy exempt (LoadGuidanceTickets env).
Proof.
  unfold LoadGuidanceTickets.
  apply tidy_tryWrap_call; [apply law_error|reflexivity|]. intros listID.
  apply tidy_checkWrap_call; [apply law_error|reflexivity|].
  apply tidy_tryWrap_call; [apply law_error|reflexivity|]. intros cards.
  cbv zeta. destruct (gostring_eqb _ _); [apply tidy_ret|].
  apply tidy_tryWrap_call; [apply law_error|reflexivity|]. intros _.
  apply tidy_bind_quiet; [apply quiet_emit_log|intros _].
  apply tidy_ret.
Qed.



End OperationFacts.

Section SkippingFacts.

Variable env : Env.
Variable a : AIAgent.

Local Open Scope go_scope.







End SkippingFacts.

(** * Facts about the walk of the working tree *)

Section WalkFacts.

Import gitrepo.

Lemma collect_app found1 found2 m :
  collect (found1 ++ found2) m = collect found2 (collect found1 m).
Proof. unfold collect. apply fold_left_app. Qed.

Lemma walk_outcome : forall info names name m,
  (readable name info = true ->
   walk names name info m
   = (skipFlag name info, collect (files names name info) m))
  /\ (readable name info = false ->
      exists e m',
        match info with
        | Broken err => readFn names name info (Some err) m
        | _ => walk names name info m
        end = (Some (Failure e), m')).
Proof.
  induction info as [content|listing children IH|err] using entry_induction;
    intros names name m.
  - destruct content as [data|e]; split; try discriminate.
    + intros _. reflexivity.
    + intros _. now exists e, m.
  - destruct listing as [e|].
    { split; [discriminate|]. intros _. now exists e, m. }
    cbn [walk readable files]. unfold readFn, skipFlag. cbn [isDir andb].
    destruct (gostring_eqb name (str ".git")); [split; [reflexivity|discriminate]|].
    cbn [orb]. revert m.
    induction children as [|[childName child] rest IHrest]; intros m.
    + split; [reflexivity|discriminate].
    + inversion IH as [|? ? Hchild Hrest]; subst. cbn [snd] in Hchild.
      specialize (IHrest Hrest).
      destruct (Hchild (names ++ [childName]) childName m) as [Hok Hbad].
      destruct (readable childName child) eqn:R.
      * specialize (Hok eq_refl). cbn [andb].
        destruct child as [content|listing' children'|err'];
          [| |discriminate R].
        -- rewrite Hok. unfold skipFlag. cbn [isDir andb].
           rewrite collect_app. apply IHrest.
        -- rewrite Hok. unfold skipFlag. cbn [isDir andb].
           rewrite collect_app.
           destruct (gostring_eqb childName (str ".git")); apply IHrest.
      * specialize (Hbad eq_refl). cbn [andb].
        split; [discriminate|]. intros _.
        destruct Hbad as [e [m' Hbad]].
        exists e, m'.
        destruct child as [content|listing' children'|err'];
          [rewrite Hbad; reflexivity|rewrite Hbad; reflexivity|].
        unfold readFn in Hbad. cbv beta iota in *. exact Hbad.
  - split; [discriminate|]. intros _. now exists err, m.
Qed.

Lemma ReadAllFiles_readable rootName root :
  readable rootName root = true ->
  ReadAllFiles rootName root = Ok (collect (files [] rootName root) []).
Proof.
  intros R. unfold ReadAllFiles, Walk.
  destruct (walk_outcome root [] rootName []) as [Hok _].
  specialize (Hok R).
  destruct root as [content|listing children|err]; [| |discriminate R];
    rewrite Hok; unfold skipFlag;
      destruct (isDir _ && gostring_eqb rootName (str ".git"));
      reflexivity.
Qed.

Lemma ReadAllFiles_unreadable rootName root :
  readable rootName root = false ->
  exists e, ReadAllFiles rootName root = Err e.
Proof.
  intros R. unfold ReadAllFiles, Walk.
  destruct (walk_outcome root [] rootName []) as [_ Hbad].
  destruct (Hbad R) as [e [m' H]]. exists e.
  destruct root as [content|listing children|err]; rewrite H; reflexivity.
Qed.

Lemma files_visible : forall info prefix name p d,
  In (p, d) (files prefix name info) <->
  exists rel, p = prefix ++ rel /\ visible name info rel d.
Proof.
  induction info as [content|listing children IH|err] using entry_induction;
    intros prefix name p d.
  - destruct content as [data|e]; simpl.
    + split.
      * intros [E|[]]. inversion E; subst. exists [].
        split; [now rewrite app_nil_r|constructor].
      * intros [rel [-> V]]. inversion V; subst. left.
        now rewrite app_nil_r.
    + split; [intros []|]. intros [rel [_ V]]. inversion V.
  - cbn [files].
    destruct (gostring_eqb name (str ".git")) eqn:G.
    { split; [intros []|]. intros [rel [_ V]]. inversion V; subst.
      apply gostring_eqb_eq in G. contradiction. }
    assert (Hname : name <> str ".git").
    { intros E. apply gostring_eqb_eq in E. congruence. }
    induction children as [|[childName child] rest IHrest].
    + split; [intros []|]. intros [rel [_ V]]. inversion V; subst.
      match goal with H : In _ [] |- _ => destruct H end.
    + inversion IH as [|? ? Hchild Hrest]; subst. cbn [snd] in Hchild.
      specialize (IHrest Hrest). rewrite in_app_iff. split.
      * intros [H|H].
        -- apply Hchild in H. destruct H as [rel [-> V]].
           exists (childName :: rel). split; [now rewrite <- app_assoc|].
           econstructor; [assumption|now left|exact V].
        -- apply IHrest in H. destruct H as [rel [-> V]].
           exists rel. split; [reflexivity|].
           inversion V; subst.
           econstructor; [assumption|right; eassumption|assumption].
      * intros [rel [-> V]]. inversion V as [|? ? ? cn c names ? ? Hin V']; subst.
        destruct Hin as [E|Hin].
        -- inversion E; subst. left. apply Hchild.
           exists names. split; [now rewrite <- app_assoc|assumption].
        -- right. apply IHrest. exists (cn :: names).
           split; [reflexivity|]. econstructor; eassumption.
  - simpl. split; [intros []|]. intros [rel [_ V]]. inversion V.
Qed.

Lemma mapSet_In k v k' v' m :
  In (k, v) (mapSet k' v' m) -> (k = k' /\ v = v') \/ In (k, v) m.
Proof.
  unfold mapSet. intros [E|H].
  - inversion E. now left.
  - apply filter_In in H. right. tauto.
Qed.

Lemma collect_In : forall found m k v,
  In (k, v) (collect found m) ->
  In (k, v) m \/ exists p, In (p, v) found /\ k = relPath p.
Proof.
  induction found as [|[p d] rest IH]; intros m k v; [now left|].
  cbn [collect fold_left fst snd]. intros H.
  apply (IH (mapSet (relPath p) d m)) in H.
  destruct H as [H|[p' [H ->]]].
  - apply mapSet_In in H. destruct H as [[-> ->]|H]; [|now left].
    right. exists p. split; [now left|reflexivity].
  - right. exists p'. split; [now right|reflexivity].
Qed.

Lemma gostring_eqb_refl s : gostring_eqb s s = true.
Proof. now apply gostring_eqb_eq. Qed.

Lemma mapGet_mapSet k k' v' m :
  mapGet k (mapSet k' v' m) =
  if gostring_eqb k' k then Some v' else mapGet k m.
Proof.
  unfold mapSet. cbn [mapGet].
  destruct (gostring_eqb k' k) eqn:E; [reflexivity|].
  induction m as [|[k0 v0] m IH]; [reflexivity|].
  cbn [filter fst mapGet].
  destruct (gostring_eqb k0 k') eqn:E0; cbn [negb].
  - apply gostring_eqb_eq in E0. subst k0. now rewrite E.
  - cbn [mapGet]. now rewrite IH.
Qed.

Lemma mapGet_collect_other : forall found m k,
  ~ In k (map (fun file => relPath (fst file)) found) ->
  mapGet k (collect found m) = mapGet k m.
Proof.
  induction found as [|[p d] rest IH]; intros m k Hk; [reflexivity|].
  cbn [collect fold_left fst snd]. simpl in Hk.
  rewrite (IH (mapSet (relPath p) d m)) by tauto.
  rewrite mapGet_mapSet.
  destruct (gostring_eqb (relPath p) k) eqn:E; [|reflexivity].
  apply gostring_eqb_eq in E. tauto.
Qed.

Lemma mapGet_collect_key : forall found m p d,
  In (p, d) found ->
  exists v, mapGet (relPath p) (collect found m) = Some v.
Proof.
  induction found as [|[p0 d0] rest IH]; intros m p d; [intros []|].
  cbn [collect fold_left fst snd]. intros [E|H].
  - inversion E; subst.
    destruct (in_dec (list_eq_dec ascii_dec) (relPath p)
                     (map (fun file => relPath (fst file)) rest))
      as [Hin|Hout].
    + apply in_map_iff in Hin. destruct Hin as [[p' d'] [Hk Hin]].
      cbn [fst] in Hk. rewrite <- Hk. now apply (IH _ p' d').
    + rewrite mapGet_collect_other by assumption.
      rewrite mapGet_mapSet, gostring_eqb_refl. now exists d.
  - now apply (IH _ p d).
Qed.

Lemma mapGet_collect_unique : forall found m p d,
  NoDup (map (fun file => relPath (fst file)) found) ->
  In (p, d) found ->
  mapGet (relPath p) (collect found m) = Some d.
Proof.
  induction found as [|[p0 d0] rest IH]; intros m p d Hnd; [intros []|].
  cbn [collect fold_left fst snd]. simpl in Hnd.
  inversion Hnd as [|? ? Hout Hnd']; subst.
  intros [E|H].
  - inversion E; subst.
    rewrite mapGet_collect_other by assumption.
    now rewrite mapGet_mapSet, gostring_eqb_refl.
  - now apply IH.
Qed.

Lemma readable_damaged : forall info name,
  readable name info = false <-> damaged name info.
Proof.
  induction info as [content|listing children IH|err] using entry_induction;
    intros name.
  - destruct content as [data|e]; simpl; split; try discriminate.
    + intros D. inversion D.
    + intros _. constructor.
    + reflexivity.
  - destruct listing as [e|].
    { simpl. split; [intros _; constructor|reflexivity]. }
    cbn [readable].
    destruct (gostring_eqb name (str ".git")) eqn:G; cbn [orb].
    { split; [discriminate|]. intros D. inversion D; subst.
      apply gostring_eqb_eq in G. contradiction. }
    assert (Hname : name <> str ".git").
    { intros E. apply gostring_eqb_eq in E. congruence. }
    induction children as [|[childName child] rest IHrest].
    + split; [discriminate|]. intros D. inversion D; subst.
      match goal with H : In _ [] |- _ => destruct H end.
    + inversion IH as [|? ? Hchild Hrest]; subst. cbn [snd] in Hchild.
      specialize (IHrest Hrest). rewrite andb_false_iff. split.
      * intros [H|H].
        -- apply Hchild in H. econstructor; [assumption|now left|exact H].
        -- apply IHrest in H. inversion H; subst.
           econstructor; [assumption|right; eassumption|assumption].
      * intros D. inversion D as [| | |? ? cn c ? Hin D']; subst.
        destruct Hin as [E|Hin].
        -- inversion E; subst. left. now apply Hchild.
        -- right. apply IHrest. econstructor; eassumption.
  - simpl. split; [intros _; constructor|reflexivity].
Qed.

End WalkFacts.

(** * Further facts about strings and runs *)

Section MoreStringFacts.

Import strings.

Lemma TrimSpace_incl s : incl (TrimSpace s) s.
Proof.
  unfold TrimSpace, TrimFunc. intros x Hx.
  assert (L : incl (TrimLeftFunc s unicode.IsSpace) s).
  { unfold TrimLeftFunc. destruct (indexFunc _ _ _ _ _) as [i|].
    - intros y Hy. rewrite <- (firstn_skipn i s). apply in_or_app. now right.
    - intros y []. }
  apply L.
  assert (R : forall u, incl (TrimRightFunc u unicode.IsSpace) u).
  { intros u. unfold TrimRightFunc.
    destruct (lastIndexFunc _ _ _ _ _) as [i|].
    - destruct (_ <=? _)%N.
      + destruct (utf8.DecodeRuneInString (skipn i u)) as [r wid].
        intros y Hy. rewrite <- (firstn_skipn (i + wid) u).
        apply in_or_app. now left.
      + intros y Hy. rewrite <- (firstn_skipn (i + 1) u).
        apply in_or_app. now left.
    - intros y []. }
  now apply R.
Qed.

Lemma HasPrefix_nil s : HasPrefix s [] = true.
Proof. destruct s; reflexivity. Qed.

Lemma HasPrefix_single x s c :
  HasPrefix (x :: s) [c] = if ascii_dec x c then true else false.
Proof. cbn [HasPrefix]. destruct (ascii_dec x c); [apply HasPrefix_nil|reflexivity]. Qed.

Lemma HasPrefix_app : forall p r, HasPrefix (p ++ r) p = true.
Proof.
  induction p as [|c p IH]; intros r; [apply HasPrefix_nil|].
  cbn [app HasPrefix]. destruct (ascii_dec c c); [apply IH|congruence].
Qed.

Lemma Index_single_none c : forall s,
  Index s [c] = None -> ~ In c s.
Proof.
  induction s as [|x s IH]; [intros _ []|].
  rewrite Index_eq, HasPrefix_single.
  destruct (ascii_dec x c) as [->|Hne]; [discriminate|].
  destruct (Index s [c]) as [m|] eqn:E; [discriminate|].
  intros _ [H|H]; [congruence|now apply IH].
Qed.

Lemma Index_single_first c : forall s m,
  Index s [c] = Some m -> ~ In c (firstn m s).
Proof.
  induction s as [|x s IH]; intros m.
  - rewrite Index_eq. simpl. discriminate.
  - rewrite Index_eq, HasPrefix_single.
    destruct (ascii_dec x c) as [->|Hne].
    + intros H. inversion H. intros [].
    + destruct (Index s [c]) as [m'|] eqn:E; [|discriminate].
      intros H. inversion H; subst. cbn [firstn].
      intros [Hx|Hx]; [congruence|]. exact (IH m' eq_refl Hx).
Qed.

(** The first line of a string holds no newline. *)
Lemma first_line_no_newline b : ~ In nl (hd [] (Split b [nl])).
Proof.
  unfold Split. destruct b as [|c b]; [intros []|].
  cbn [length genSplit].
  destruct (Index (c :: b) [nl]) as [m|] eqn:E; cbn [hd].
  - now apply Index_single_first.
  - now apply Index_single_none.
Qed.

Lemma taskOfSegment_fields segment :
  wellFormedSegment segment = true ->
  ~ In nl (Title (taskOfSegment segment))
  /\ headNonSpace (Title (taskOfSegment segment)) = true
  /\ (Description (taskOfSegment segment) = []
      \/ headNonSpace (Description (taskOfSegment segment)) = true).
Proof.
  intros H. split; [|split].
  - unfold taskOfSegment. cbn [Title]. intros Hin.
    apply TrimSpace_incl in Hin. revert Hin. apply first_line_no_newline.
  - now apply taskOfSegment_title.
  - unfold taskOfSegment. cbn [Description]. apply TrimSpace_head.
Qed.

Lemma parse_tasks_fields response task :
  In task (fst (parseTasksFromResponse response)) ->
  ~ In nl (Title task)
  /\ headNonSpace (Title task) = true
  /\ (Description task = [] \/ headNonSpace (Description task) = true).
Proof.
  unfold parseTasksFromResponse. cbn [fst].
  rewrite parseTaskBlocks_filter. cbn [app]. intros Hin.
  apply in_map_iff in Hin. destruct Hin as [segment [<- Hin]].
  apply filter_In in Hin. now apply taskOfSegment_fields.
Qed.

End MoreStringFacts.

Section MoreRunFacts.

Variable env : Env.

Lemma creationCalls_polled card : forall t,
  Forall (pollEvent card) t -> creationCalls t = [].
Proof.
  induction t as [|ev t IH]; [reflexivity|].
  intros H. inversion H as [|? ? Hev Ht]; subst.
  destruct ev; simpl in Hev; try contradiction; simpl; now apply IH.
Qed.

Lemma waitLoop_polls card requiredTag : forall remaining attempt t,
  exists new,
    snd (waitLoop env remaining attempt card requiredTag t) = t ++ new
    /\ Forall (pollEvent card) new.
Proof.
  induction remaining as [|remaining IH]; intros attempt t.
  - exists []. split; [simpl; now rewrite app_nil_r|constructor].
  - rewrite waitLoop_step.
    destruct (GetComments env t card) as [comments|e].
    + destruct (find _ comments).
      * eexists. split; [reflexivity|]. now repeat constructor.
      * destruct (IH (attempt + 1)%Z
                     (t ++ pollRound card requiredTag attempt comments))
          as [new [Hs Hf]].
        exists (pollRound card requiredTag attempt comments ++ new).
        split; [rewrite Hs; now rewrite app_assoc|].
        apply Forall_app. split; [|exact Hf].
        unfold pollRound. now repeat constructor.
    + eexists. split; [reflexivity|]. now repeat constructor.
Qed.

(** The run of [HandleTicket] from the creation of the child tickets
    on. *)
Lemma HandleTicket_run a card t response listID t' :
  reachesCreation env a card t response listID t' ->
  exists outcomes,
    creationAnswers env listID t' (fst (parseTasksFromResponse response))
                    outcomes
    /\ HandleTicket env a card t =
       (Ok (createdCards outcomes),
        t' ++ creationTrace listID (fst (parseTasksFromResponse response))
                            outcomes).
Proof.
  intros [clarifications [reply [t3 H]]]. cbv zeta in H.
  destruct H as [H1 [H2 [H3 [H4 [H5 ->]]]]].
  destruct (createLoop_run env (fst (parseTasksFromResponse response))
              listID []
              (((t3 ++ [LogPrintf (str "Received reply: %s")
                                  [ArgString reply]])
                ++ [CallChat (reply ++ [nl] ++ replyPrompt) (Ok response)])
               ++ [CallGetListIDByName (str "Doing") (Ok listID)]))
    as [outcomes [Ha Hrun]].
  exists outcomes. split; [exact Ha|].
  cbv [HandleTicket tryWrap checkWrap bind call WriteComment logPrintf
                    emit ret].
  rewrite H1. cbv beta iota. rewrite H2. cbv beta iota.
  rewrite <- !app_assoc. rewrite <- !app_assoc in H3. cbn [app] in *.
  rewrite H3. cbv beta iota.
  rewrite H4. cbv beta iota.
  unfold parseTasksFromResponse in *. cbn [fst] in *. cbv beta iota.
  rewrite H5. cbv beta iota. rewrite Hrun. cbn [app].
  now rewrite <- !app_assoc.
Qed.

(** What precedes the creation of the child tickets creates none, and
    holds the lookup of the Doing list. *)
Lemma reachesCreation_prefix a card t response listID t' :
  reachesCreation env a card t response listID t' ->
  exists pre,
    t' = t ++ pre /\ creationCalls pre = []
    /\ In (CallGetListIDByName (str "Doing") (Ok listID)) pre.
Proof.
  intros [clarifications [reply [t3 H]]]. cbv zeta in H.
  destruct H as [H1 [H2 [H3 [H4 [H5 ->]]]]].
  match type of H3 with
  | WaitForReply _ _ ?tag ?t2 = _ =>
    destruct (waitLoop_polls card tag maxAttempts 1 t2) as [new [Hs Hf]]
  end.
  unfold WaitForReply in H3. rewrite H3 in Hs. cbn [snd] in Hs. subst t3.
  eexists. split; [rewrite <- !app_assoc; reflexivity|].
  split.
  - cbn [app creationCalls]. rewrite !creationCalls_app.
    rewrite (creationCalls_polled Hf). reflexivity.
  - cbn [app]. right; right; right. apply in_or_app. right.
    right; right; now left.
Qed.

(** A run of [HandleTicket] gets as far as the creation of the child
    tickets, or fails before it has created any. *)
Lemma HandleTicket_cases a card t :
  (exists response listID t',
      reachesCreation env a card t response listID t')
  \/ (exists err pre,
         HandleTicket env a card t = (Err err, t ++ pre)
         /\ creationCalls pre = []).
Proof.
  destruct (Chat env t (clarificationPrompt card)) as [clarifications|e1]
    eqn:H1.
  2:{ right. eexists. eexists. split.
      - cbv [HandleTicket tryWrap checkWrap bind call WriteComment logPrintf
                          emit ret failWith Returns_result].
        rewrite H1. reflexivity.
      - reflexivity. }
  destruct (PostComment env
              (t ++ [CallChat (clarificationPrompt card) (Ok clarifications)])
              card (clarifications ++ [nl] ++ str "@bogoego"))
    as [e2|] eqn:H2.
  { right. eexists. eexists. split.
    - cbv [HandleTicket tryWrap checkWrap bind call WriteComment logPrintf
                        emit ret failWith Returns_result].
      rewrite H1. cbv beta iota. rewrite H2. cbv beta iota.
      rewrite <- !app_assoc. reflexivity.
    - reflexivity. }
  remember (((t ++ [CallChat (clarificationPrompt card) (Ok clarifications)])
             ++ [CallPostComment card
                   (clarifications ++ [nl] ++ str "@bogoego") None])
            ++ [LogPrintf (str "Posted clarifications on ticket %s")
                          [ArgString (trello.ID card)]]) as t2 eqn:Ht2.
  destruct (waitLoop_polls card (str "@" ++ Name a) maxAttempts 1 t2)
    as [new [Hs Hf]].
  destruct (WaitForReply env card (str "@" ++ Name a) t2) as [r t3] eqn:H3.
  unfold WaitForReply in H3. rewrite H3 in Hs. cbn [snd] in Hs. subst t3.
  assert (Hunfold :
     HandleTicket env a card t =
     match r with
     | Err err =>
       (Err (ErrorWrap (str "failed to receive reply: ") err), t2 ++ new)
     | Ok reply =>
       let t4 := (t2 ++ new)
                 ++ [LogPrintf (str "Received reply: %s") [ArgString reply]] in
       match Chat env t4 (reply ++ [nl] ++ replyPrompt) with
       | Err err =>
         (Err (ErrorWrap (str "failed to process reply with GPT: ") err),
          t4 ++ [CallChat (reply ++ [nl] ++ replyPrompt) (Err err)])
       | Ok response =>
         let t5 := t4 ++ [CallChat (reply ++ [nl] ++ replyPrompt)
                                   (Ok response)] in
         match GetListIDByName env t5 (str "Doing") with
         | Err err =>
           (Err (ErrorWrap (str "failed to get Doing list ID: ") err),
            t5 ++ [CallGetListIDByName (str "Doing") (Err err)])
         | Ok listID =>
           let (createdTickets, t6) :=
             createLoop env (fst (parseTasksFromResponse response)) listID []
                        (t5 ++ [CallGetListIDByName (str "Doing")
                                                    (Ok listID)]) in
           (Ok createdTickets, t6)
         end
       end
     end).
  { cbv [HandleTicket tryWrap checkWrap bind call WriteComment logPrintf
                      emit ret failWith Returns_result].
    rewrite H1. cbv beta iota. rewrite H2. cbv beta iota.
    rewrite <- Ht2. unfold WaitForReply. rewrite H3.
    destruct r as [reply|err]; [|reflexivity]. cbv beta iota zeta.
    destruct (Chat env _ (reply ++ [nl] ++ replyPrompt)); [|reflexivity].
    unfold parseTasksFromResponse. cbn [fst]. cbv beta iota.
    destruct (GetListIDByName env _ (str "Doing")); reflexivity. }
  destruct r as [reply|err].
  2:{ right. exists (ErrorWrap (str "failed to receive reply: ") err).
      eexists. split.
      - rewrite Hunfold, Ht2. rewrite <- !app_assoc. reflexivity.
      - cbn [app creationCalls]. now apply (creationCalls_polled Hf). }
  cbv zeta in Hunfold.
  destruct (Chat env _ (reply ++ [nl] ++ replyPrompt)) as [response|e4]
    eqn:H4.
  2:{ right. eexists. eexists. split.
      - rewrite Hunfold, Ht2. rewrite <- !app_assoc. reflexivity.
      - cbn [app creationCalls]. rewrite !creationCalls_app.
        now rewrite (creationCalls_polled Hf). }
  destruct (GetListIDByName env _ (str "Doing")) as [listID|e5] eqn:H5.
  2:{ right. eexists. eexists. split.
      - rewrite Hunfold, Ht2. rewrite <- !app_assoc. reflexivity.
      - cbn [app creationCalls]. rewrite !creationCalls_app.
        now rewrite (creationCalls_polled Hf). }
  left. exists response, listID. eexists.
  exists clarifications, reply, (t2 ++ new). cbv zeta.
  repeat split; try assumption.
  - unfold WaitForReply. subst t2.
    rewrite <- (app_assoc (t ++ [CallChat _ _]) [_] [_]) in H3.
    rewrite <- (app_assoc (t ++ [CallChat _ _]) [_] [_]).
    exact H3.
Qed.

End MoreRunFacts.

(** * Facts about splitting and joining *)

Section SplitJoinFacts.

Import strings.

Lemma genSplit_fuel sep : sep <> [] -> forall fuel1 fuel2 s,
  length s <= fuel1 -> length s <= fuel2 ->
  genSplit fuel1 s sep = genSplit fuel2 s sep.
Proof.
  intros Hsep.
  assert (Hnil : Index [] sep = None).
  { rewrite Index_eq. destruct sep; [congruence|reflexivity]. }
  assert (Hsl : 1 <= length sep).
  { destruct sep; [congruence|simpl; lia]. }
  induction fuel1 as [|fuel1 IH]; intros fuel2 s H1 H2.
  - destruct s; [|simpl in H1; lia].
    destruct fuel2; cbn [genSplit]; [reflexivity|now rewrite Hnil].
  - destruct fuel2 as [|fuel2].
    + destruct s; [|simpl in H2; lia]. cbn [genSplit]. now rewrite Hnil.
    + cbn [genSplit]. destruct (Index s sep) as [m|] eqn:E; [|reflexivity].
      pose proof (Index_bound _ _ E) as Hb.
      f_equal. apply IH; rewrite length_skipn; lia.
Qed.

Lemma Split_genSplit sep s fuel :
  sep <> [] -> length s <= fuel -> Split s sep = genSplit fuel s sep.
Proof.
  intros Hsep Hl. unfold Split. destruct sep; [congruence|].
  apply genSplit_fuel; [discriminate|lia|assumption].
Qed.

Lemma HasPrefix_skip : forall p s,
  HasPrefix s p = true -> s = p ++ skipn (length p) s.
Proof.
  induction p as [|c p IH]; intros s H; [reflexivity|].
  destruct s as [|x s]; [discriminate|]. cbn [HasPrefix] in H.
  destruct (ascii_dec x c) as [->|]; [|discriminate].
  cbn [app length skipn]. f_equal. now apply IH.
Qed.

Lemma Index_some_split sep : forall s m,
  Index s sep = Some m ->
  s = firstn m s ++ sep ++ skipn (m + length sep) s.
Proof.
  induction s as [|x s IH]; intros m; rewrite Index_eq.
  - destruct (HasPrefix [] sep) eqn:P; [|discriminate].
    intros H. inversion H; subst. cbn [firstn app Nat.add].
    now apply HasPrefix_skip.
  - destruct (HasPrefix (x :: s) sep) eqn:P.
    + intros H. inversion H; subst. cbn [firstn app Nat.add].
      now apply HasPrefix_skip.
    + destruct (Index s sep) as [m'|] eqn:E; [|discriminate].
      intros H. inversion H; subst.
      cbn [firstn app Nat.add skipn]. f_equal. now apply IH.
Qed.

Lemma genSplit_not_nil fuel s sep : genSplit fuel s sep <> [].
Proof.
  destruct fuel; simpl; [discriminate|].
  destruct (Index s sep); discriminate.
Qed.

Lemma Join_cons e rest sep :
  rest <> [] -> Join (e :: rest) sep = e ++ sep ++ Join rest sep.
Proof. destruct rest; [congruence|reflexivity]. Qed.

(** Joining the pieces of a split with the separator gives the string
    back. *)
Lemma Join_genSplit sep : sep <> [] -> forall fuel s,
  length s <= fuel -> Join (genSplit fuel s sep) sep = s.
Proof.
  intros Hsep. induction fuel as [|fuel IH]; intros s Hl; [reflexivity|].
  cbn [genSplit]. destruct (Index s sep) as [m|] eqn:E; [|reflexivity].
  rewrite Join_cons by apply genSplit_not_nil.
  pose proof (Index_bound _ _ E) as Hb.
  rewrite IH.
  - symmetry. now apply Index_some_split.
  - rewrite length_skipn. destruct sep; [congruence|]. simpl in *. lia.
Qed.

Lemma Join_Split s sep : sep <> [] -> Join (Split s sep) sep = s.
Proof.
  intros Hsep. rewrite (@Split_genSplit sep s (length s)) by auto.
  now apply Join_genSplit.
Qed.

(** The first two bytes of the task delimiter: a newline and '@'. *)
Lemma Contains_cons_false c b x :
  Contains (c :: b) x = false ->
  HasPrefix (c :: b) x = false /\ Contains b x = false.
Proof.
  unfold Contains. rewrite Index_eq.
  destruct (HasPrefix (c :: b) x); [discriminate|].
  destruct (Index b x); [discriminate|]. now split.
Qed.

Lemma taskDelimiter_bytes :
  taskDelimiter
  = nl :: "@"%char :: "@"%char :: "@"%char :: "@"%char :: [nl].
Proof. reflexivity. Qed.

(** The delimiter does not start inside a text without a line that
    starts with '@', whatever follows the text, unless what follows
    starts with '@'. *)
Lemma HasPrefix_delimiter_false b R :
  b <> [] ->
  Contains b ([nl] ++ str "@") = false ->
  hd_error R <> Some "@"%char ->
  HasPrefix (b ++ R) taskDelimiter = false.
Proof.
  intros Hb Hc HR. destruct b as [|c b]; [congruence|].
  rewrite taskDelimiter_bytes. cbn [app HasPrefix].
  destruct (ascii_dec c nl) as [->|]; [|reflexivity].
  destruct b as [|c' b].
  - cbn [app]. destruct R as [|r R]; [reflexivity|].
    cbn [HasPrefix]. destruct (ascii_dec r "@"%char) as [->|]; [|reflexivity].
    exfalso. now apply HR.
  - apply Contains_cons_false in Hc. destruct Hc as [Hp _].
    change ([nl] ++ str "@") with [nl; "@"%char] in Hp.
    cbn [HasPrefix] in Hp.
    destruct (ascii_dec nl nl); [|congruence].
    cbn [app HasPrefix].
    destruct (ascii_dec c' "@"%char) as [->|]; [|reflexivity].
    rewrite HasPrefix_nil in Hp. discriminate Hp.
Qed.

Lemma Index_no_delimiter : forall b,
  Contains b ([nl] ++ str "@") = false -> Index b taskDelimiter = None.
Proof.
  induction b as [|c b IH]; intros Hc; [reflexivity|].
  rewrite Index_eq.
  rewrite <- (app_nil_r (c :: b)) at 1.
  rewrite HasPrefix_delimiter_false; [|discriminate|assumption|discriminate].
  apply Contains_cons_false in Hc. destruct Hc as [_ Hc].
  now rewrite IH.
Qed.

Lemma Index_at_delimiter : forall b R,
  Contains b ([nl] ++ str "@") = false ->
  Index (b ++ taskDelimiter ++ R) taskDelimiter = Some (length b).
Proof.
  induction b as [|c b IH]; intros R Hc.
  - cbn [app length]. now rewrite Index_eq, HasPrefix_app.
  - rewrite Index_eq.
    rewrite HasPrefix_delimiter_false;
      [|discriminate|assumption|discriminate].
    apply Contains_cons_false in Hc. destruct Hc as [_ Hc].
    cbn [app]. now rewrite IH.
Qed.

Lemma firstn_exact {A} (a R : list A) : firstn (length a) (a ++ R) = a.
Proof.
  now rewrite firstn_app, firstn_all, Nat.sub_diag, firstn_O, app_nil_r.
Qed.

Lemma skipn_exact {A} (a d R : list A) :
  skipn (length a + length d) (a ++ d ++ R) = R.
Proof.
  rewrite app_assoc, <- length_app.
  now rewrite skipn_app, skipn_all, Nat.sub_diag, skipn_O.
Qed.

(** Splitting the join of texts without a line that starts with '@' at
    the delimiter gives the texts back. *)
Lemma Split_Join_delimiter : forall blocks,
  blocks <> [] ->
  Forall (fun b => Contains b ([nl] ++ str "@") = false) blocks ->
  Split (Join blocks taskDelimiter) taskDelimiter = blocks.
Proof.
  induction blocks as [|b rest IH]; intros Hne Hall; [congruence|].
  inversion Hall as [|? ? Hb Hrest]; subst.
  destruct rest as [|b' rest].
  - cbn [Join]. apply Split_no_sep; [discriminate|].
    now apply Index_no_delimiter.
  - rewrite Join_cons by discriminate.
    set (R := Join (b' :: rest) taskDelimiter) in *.
    rewrite (@Split_genSplit taskDelimiter (b ++ taskDelimiter ++ R)
               (S (length (b ++ taskDelimiter ++ R))))
      by (discriminate || lia).
    cbn [genSplit]. rewrite Index_at_delimiter by assumption.
    rewrite firstn_exact. f_equal.
    replace (skipn _ (b ++ taskDelimiter ++ R)) with R
      by (symmetry; apply (skipn_exact b taskDelimiter R)).
    rewrite <- (@Split_genSplit taskDelimiter R)
      by (discriminate || (rewrite !length_app; lia)).
    apply IH; [discriminate|assumption].
Qed.

Lemma Index_single_at c : forall T D,
  ~ In c T -> Index (T ++ c :: D) [c] = Some (length T).
Proof.
  induction T as [|x T IH]; intros D Hn.
  - cbn [app length]. rewrite Index_eq, HasPrefix_single.
    destruct (ascii_dec c c); [reflexivity|congruence].
  - cbn [app]. rewrite Index_eq, HasPrefix_single.
    destruct (ascii_dec x c) as [->|]; [exfalso; apply Hn; now left|].
    rewrite IH by (intros H; apply Hn; now right). reflexivity.
Qed.

Lemma Split_first_line T D :
  ~ In nl T -> Split (T ++ nl :: D) [nl] = T :: Split D [nl].
Proof.
  intros Hn.
  rewrite (@Split_genSplit [nl] (T ++ nl :: D) (S (length (T ++ nl :: D))))
    by (discriminate || lia).
  cbn [genSplit]. rewrite Index_single_at by assumption.
  rewrite firstn_exact. f_equal.
  replace (skipn _ (T ++ nl :: D)) with D
    by (symmetry; apply (skipn_exact T [nl] D)).
  symmetry. apply Split_genSplit; [discriminate|].
  rewrite !length_app. simpl. lia.
Qed.

Lemma Split_one_line T : ~ In nl T -> Split T [nl] = [T].
Proof.
  intros Hn. apply Split_no_sep; [discriminate|].
  apply Index_none_absent with (x := nl); [now left|assumption].
Qed.

(** The text of a readable task is a well-formed segment, and the task
    of that segment is the task. *)
Lemma taskOfSegment_taskBlock task :
  readableTask task ->
  wellFormedSegment (taskBlock task) = true
  /\ taskOfSegment (taskBlock task) = task.
Proof.
  intros [Ht [Hnl [Htt [Htd [Htb _]]]]].
  unfold trimmed in *. destruct task as [title description].
  cbn [Title Description] in *. unfold taskBlock in *.
  cbn [Title Description] in *.
  split.
  - unfold wellFormedSegment. rewrite Htb.
    destruct (isEmpty description); destruct title; try congruence;
      reflexivity.
  - unfold taskOfSegment. rewrite Htb.
    destruct description as [|d description]; cbn [isEmpty].
    + rewrite Split_one_line by assumption. cbn [hd tl Join].
      now rewrite Htt.
    + cbn [app]. rewrite Split_first_line by assumption. cbn [hd tl].
      rewrite Join_Split by discriminate. now rewrite Htt, Htd.
Qed.

End SplitJoinFacts.

(** * The claims about the task-block parser *)

Section ParserClaims.

Import strings.




(** C8.  The parser returns a sequence of tasks and no error on every
    input, and the empty sequence on an input made of white space only, the
    empty string and the string of three spaces and two newlines among
    them. *)
Theorem parse_total (input : gostring) :
  (exists tasks, parseTasksFromResponse input = (tasks, None))
  /\ (whitespaceOnly input = true ->
      parseTasksFromResponse input = ([], None))
  /\ parseTasksFromResponse [] = ([], None)
  /\ parseTasksFromResponse (str "   " ++ [nl; nl]) = ([], None).
Proof.
  split; [eexists; reflexivity|].
  split; [|split; reflexivity].
  intros Hw. unfold parseTasksFromResponse.
  rewrite Split_no_sep.
  - rewrite parseTaskBlocks_filter. cbn [filter app].
    unfold wellFormedSegment.
    now rewrite (whitespaceOnly_TrimSpace _ Hw).
  - discriminate.
  - now apply whitespaceOnly_no_delimiter.
Qed.

Lemma parse_total_witness :
  whitespaceOnly (str "   " ++ [nl; nl]) = true
  /\ parseTasksFromResponse (str "   " ++ [nl; nl]) = ([], None).
Proof.
  split; [reflexivity|].
  exact (proj1 (proj2 (parse_total (str "   " ++ [nl; nl]))) eq_refl).
Defined.

(** The other examples of the parser: a single line is a title with an
    empty description; white space around a segment, Unicode white space
    included, does not count; a segment of white space between two
    delimiters is dropped. *)
Example parse_only_title :
  parseTasksFromResponse (str "OnlyTitleNoDelimiter") =
  ([mkTask (str "OnlyTitleNoDelimiter") []], None).
Proof. reflexivity. Qed.

Example parse_unicode_space :
  parseTasksFromResponse
    ([ascii_of_nat 194; ascii_of_nat 160] ++ str " Fix login" ++ [nl]
     ++ [ascii_of_nat 226; ascii_of_nat 128; ascii_of_nat 131]) =
  ([mkTask (str "Fix login") []], None).
Proof. reflexivity. Qed.

Example parse_drops_blank_segment :
  parseTasksFromResponse
    (str "A" ++ [nl] ++ str " x " ++ taskDelimiter ++ str "  "
     ++ taskDelimiter ++ str "B ") =
  ([mkTask (str "A") (str "x"); mkTask (str "B") []], None).
Proof. reflexivity. Qed.

End ParserClaims.

(** * The claims about the reply poll *)

Section PollClaims.

Lemma find_first {A} (f : A -> bool) : forall l x,
  find f l = Some x ->
  exists before after,
    l = before ++ x :: after /\ f x = true
    /\ Forall (fun y => f y = false) before.
Proof.
  induction l as [|y l IH]; intros x; simpl; [discriminate|].
  destruct (f y) eqn:Fy.
  - intros H. inversion H; subst. exists [], l. now repeat split.
  - intros H. destruct (IH x H) as [before [after [-> [Fx Hb]]]].
    exists (y :: before), after. repeat split; auto.
Qed.

(** C2.  When the board answers the first reads of the poll with comment
    lists that carry no tagged comment, fewer than [maxAttempts] of them,
    and the next read with a list that carries one, [WaitForReply] returns
    the first tagged comment of that list in the order of the list,
    whatever tagged comments follow it, and the run ends with that read:
    no sleep and no read comes after it. *)
Theorem WaitForReply_first_tagged
        (env : Env) (card : trello.Card) (requiredTag : gostring)
        (t : list event) (reads : list (list gostring))
        (comments : list gostring) (comment : gostring) :
  length reads < maxAttempts ->
  untagged requiredTag reads ->
  answers env card requiredTag 1 t reads ->
  GetComments env (t ++ pollRounds card requiredTag 1 reads) card
  = Ok comments ->
  find (tagged requiredTag) comments = Some comment ->
  WaitForReply env card requiredTag t =
  (Ok comment,
   t ++ pollRounds card requiredTag 1 reads
     ++ [CallGetComments card (Ok comments)])
  /\ exists before after,
      comments = before ++ comment :: after
      /\ strings.Contains comment requiredTag = true
      /\ Forall (fun c => strings.Contains c requiredTag = false) before.
Proof.
  intros Hl Hu Ha Hg Hc. split; [|exact (find_first _ _ Hc)].
  unfold WaitForReply. rewrite (@waitLoop_run env card requiredTag reads) by assumption.
  destruct (maxAttempts - length reads) as [|remaining] eqn:E; [lia|].
  rewrite waitLoop_step, Hg, Hc. now rewrite app_assoc.
Qed.

Lemma WaitForReply_first_tagged_witness :
  WaitForReply lateReplyEnv exampleCard (str "@manager") [] =
  (Ok (str "Friday @manager"),
   pollRounds exampleCard (str "@manager") 1
              [[str "What is the deadline? @bogoego"]]
   ++ [CallGetComments exampleCard
         (Ok [str "What is the deadline? @bogoego";
              str "Friday @manager"; str "No, Monday @manager"])]).
Proof.
  refine (proj1 (@WaitForReply_first_tagged lateReplyEnv exampleCard
                   (str "@manager") []
                   [[str "What is the deadline? @bogoego"]]
                   [str "What is the deadline? @bogoego";
                    str "Friday @manager"; str "No, Monday @manager"]
                   (str "Friday @manager") _ _ _ _ _)).
  - unfold maxAttempts. simpl. lia.
  - repeat constructor.
  - simpl. auto.
  - reflexivity.
  - reflexivity.
Defined.

Lemma always_answers (env : Env) (card : trello.Card)
      (requiredTag : gostring) :
  (forall t, exists comments,
      GetComments env t card = Ok comments
      /\ find (tagged requiredTag) comments = None) ->
  forall n attempt t,
  exists reads,
    length reads = n /\ untagged requiredTag reads
    /\ answers env card requiredTag attempt t reads.
Proof.
  intros H. induction n as [|n IH]; intros attempt t.
  - exists []. repeat split. constructor.
  - destruct (H t) as [comments [Hg Hc]].
    destruct (IH (attempt + 1)%Z
                 (t ++ pollRound card requiredTag attempt comments))
      as [reads [Hl [Hu Ha]]].
    exists (comments :: reads). split; [simpl; lia|].
    split; [now constructor|now split].
Qed.

(** C3.  When every read of the card's comments succeeds and no comment
    ever carries the required tag, [WaitForReply] fails with the timeout
    error after exactly [maxAttempts] reads, each followed by a sleep of
    [pollInterval], so that a sleep separates each read from the next. *)
Theorem WaitForReply_timeout
        (env : Env) (card : trello.Card) (requiredTag : gostring)
        (t : list event) :
  (forall t', exists comments,
      GetComments env t' card = Ok comments
      /\ find (tagged requiredTag) comments = None) ->
  exists reads,
    length reads = maxAttempts
    /\ untagged requiredTag reads
    /\ answers env card requiredTag 1 t reads
    /\ WaitForReply env card requiredTag t =
       (Err (timeoutError requiredTag),
        t ++ pollRounds card requiredTag 1 reads)
    /\ countReads (pollRounds card requiredTag 1 reads) = maxAttempts
    /\ countSleeps (pollRounds card requiredTag 1 reads) = maxAttempts.
Proof.
  intros H.
  destruct (always_answers env card requiredTag H maxAttempts 1 t)
    as [reads [Hl [Hu Ha]]].
  exists reads. repeat split; try assumption.
  - unfold WaitForReply. rewrite <- Hl. now apply waitLoop_exhausted.
  - rewrite <- Hl. apply pollRounds_counts.
  - rewrite <- Hl. apply pollRounds_counts.
Qed.

Lemma WaitForReply_timeout_witness :
  exists reads,
    length reads = maxAttempts
    /\ untagged (str "@manager") reads
    /\ answers silentEnv exampleCard (str "@manager") 1 [] reads
    /\ WaitForReply silentEnv exampleCard (str "@manager") [] =
       (Err (timeoutError (str "@manager")),
        [] ++ pollRounds exampleCard (str "@manager") 1 reads)
    /\ countReads (pollRounds exampleCard (str "@manager") 1 reads)
       = maxAttempts
    /\ countSleeps (pollRounds exampleCard (str "@manager") 1 reads)
       = maxAttempts.
Proof.
  apply (@WaitForReply_timeout silentEnv exampleCard (str "@manager") []).
  intros t'. exists [str "What is the deadline? @bogoego"].
  split; reflexivity.
Defined.

(** C10.  A read of the comments that fails, after fewer than
    [maxAttempts] reads without a tagged comment, ends the poll at once:
    [WaitForReply] returns the error of the read, wrapped, and the failed
    read is the last event of the run, with no sleep and no further read
    after it.  The timeout error is returned only by a run of
    [maxAttempts] reads that all succeeded and carried no tagged
    comment. *)
Theorem WaitForReply_read_error
        (env : Env) (card : trello.Card) (requiredTag : gostring)
        (t : list event) :
  (forall reads e,
      length reads < maxAttempts ->
      untagged requiredTag reads ->
      answers env card requiredTag 1 t reads ->
      GetComments env (t ++ pollRounds card requiredTag 1 reads) card
      = Err e ->
      WaitForReply env card requiredTag t =
      (Err (ErrorWrap (str "failed to read comments: ") e),
       t ++ pollRounds card requiredTag 1 reads
         ++ [CallGetComments card (Err e)]))
  /\ (fst (WaitForReply env card requiredTag t)
      = Err (timeoutError requiredTag) ->
      exists reads,
        length reads = maxAttempts
        /\ untagged requiredTag reads
        /\ answers env card requiredTag 1 t reads
        /\ snd (WaitForReply env card requiredTag t)
           = t ++ pollRounds card requiredTag 1 reads).
Proof.
  split.
  - intros reads e Hl Hu Ha Hg.
    unfold WaitForReply.
    rewrite (@waitLoop_run env card requiredTag reads) by assumption.
    destruct (maxAttempts - length reads) as [|remaining] eqn:E; [lia|].
    rewrite waitLoop_step, Hg. now rewrite app_assoc.
  - unfold WaitForReply. intros H.
    destruct (waitLoop_cases env card requiredTag maxAttempts 1 t)
      as [reads [Hu [Ha Hcases]]].
    cbv zeta in Hcases.
    destruct Hcases as [[_ [cs [c [_ [_ E]]]]]|[[_ [e [_ E]]]|[Hl E]]];
      rewrite E in H; simpl in H; try discriminate.
    exists reads. rewrite E. now repeat split.
Qed.

Lemma WaitForReply_read_error_witness :
  WaitForReply brokenReadEnv exampleCard (str "@manager") [] =
  (Err (ErrorWrap (str "failed to read comments: ")
                  (ErrorNew (str "board unavailable"))),
   pollRounds exampleCard (str "@manager") 1
              [[str "What is the deadline? @bogoego"]]
   ++ [CallGetComments exampleCard
         (Err (ErrorNew (str "board unavailable")))]).
Proof.
  refine (proj1 (@WaitForReply_read_error brokenReadEnv exampleCard
                   (str "@manager") [])
                [[str "What is the deadline? @bogoego"]]
                (ErrorNew (str "board unavailable")) _ _ _ _).
  - unfold maxAttempts. simpl. lia.
  - repeat constructor.
  - simpl. auto.
  - reflexivity.
Defined.

End PollClaims.

(** * The claim about the creation of the child tickets *)

Section CreationClaims.

(** C4.  Once [HandleTicket] has the parsed tasks and the Doing list, it
    calls the board once for every task, in the order of the tasks and
    whatever the outcome of the earlier calls; a call that fails is logged
    and never made again; the operation returns, without error, the cards
    of the calls that succeeded, in order, so as many cards as there are
    tasks less the failed calls; with no task at all it returns the empty
    result and makes no call. *)
Theorem HandleTicket_children
        (env : Env) (a : AIAgent) (card : trello.Card) (t : list event)
        (response listID : gostring) (t' : list event) :
  reachesCreation env a card t response listID t' ->
  let tasks := fst (parseTasksFromResponse response) in
  exists outcomes,
    creationAnswers env listID t' tasks outcomes
    /\ HandleTicket env a card t =
       (Ok (createdCards outcomes),
        t' ++ creationTrace listID tasks outcomes)
    /\ creationCalls (creationTrace listID tasks outcomes) =
       map (fun task => (Title task, Description task, listID)) tasks
    /\ length (createdCards outcomes) + length (filter isFailure outcomes)
       = length tasks
    /\ (tasks = [] -> HandleTicket env a card t = (Ok [], t')).
Proof.
  intros [clarifications [reply [t3 H]]]. cbv zeta in H.
  destruct H as [H1 [H2 [H3 [H4 [H5 ->]]]]].
  cbv zeta.
  destruct (createLoop_run env (fst (parseTasksFromResponse response))
              listID []
              (((t3 ++ [LogPrintf (str "Received reply: %s")
                                  [ArgString reply]])
                ++ [CallChat (reply ++ [nl] ++ replyPrompt) (Ok response)])
               ++ [CallGetListIDByName (str "Doing") (Ok listID)]))
    as [outcomes [Ha Hrun]].
  assert (Hrun' : HandleTicket env a card t =
                  (Ok (createdCards outcomes),
                   ((t3 ++ [LogPrintf (str "Received reply: %s")
                                      [ArgString reply]])
                    ++ [CallChat (reply ++ [nl] ++ replyPrompt)
                                 (Ok response)])
                   ++ [CallGetListIDByName (str "Doing") (Ok listID)]
                   ++ creationTrace listID
                        (fst (parseTasksFromResponse response)) outcomes)).
  { cbv [HandleTicket tryWrap checkWrap bind call WriteComment logPrintf
                      emit ret].
    rewrite H1. cbv beta iota. rewrite H2. cbv beta iota.
    rewrite <- !app_assoc. rewrite <- !app_assoc in H3. cbn [app] in *.
    rewrite H3. cbv beta iota.
    rewrite H4. cbv beta iota.
    unfold parseTasksFromResponse in *. cbn [fst] in *. cbv beta iota.
    rewrite H5. cbv beta iota. rewrite Hrun. cbn [app].
    now rewrite <- !app_assoc. }
  pose proof (creationAnswers_length _ _ _ _ _ Ha) as Hl.
  exists outcomes. split; [exact Ha|].
  split; [rewrite Hrun'; now rewrite <- !app_assoc|].
  split; [now apply creationCalls_trace|].
  split; [rewrite createdCards_length; exact Hl|].
  intros Hnil. rewrite Hrun'. rewrite Hnil in *.
  destruct outcomes; [|discriminate].
  cbn [createdCards creationTrace]. now rewrite !app_nil_r.
Qed.

Lemma partialEnv_reaches :
  reachesCreation partialEnv manager exampleCard [] threeTasks (str "Doing")
                  partialPrefix.
Proof.
  exists threeTasks, (str "Monthly, as PDF @manager"),
    [CallChat (clarificationPrompt exampleCard) (Ok threeTasks);
     CallPostComment exampleCard (threeTasks ++ [nl] ++ str "@bogoego") None;
     LogPrintf (str "Posted clarifications on ticket %s")
               [ArgString (str "c1")];
     CallGetComments exampleCard (Ok [str "Monthly, as PDF @manager"])].
  cbv zeta. repeat split; vm_compute; reflexivity.
Defined.

Lemma HandleTicket_children_witness :
  reachesCreation partialEnv manager exampleCard [] threeTasks (str "Doing")
                  partialPrefix
  /\ exists outcomes,
      creationAnswers partialEnv (str "Doing") partialPrefix
                      (fst (parseTasksFromResponse threeTasks)) outcomes
      /\ HandleTicket partialEnv manager exampleCard [] =
         (Ok (createdCards outcomes),
          partialPrefix
          ++ creationTrace (str "Doing")
               (fst (parseTasksFromResponse threeTasks)) outcomes)
      /\ creationCalls
           (creationTrace (str "Doing")
              (fst (parseTasksFromResponse threeTasks)) outcomes) =
         map (fun task => (Title task, Description task, str "Doing"))
             (fst (parseTasksFromResponse threeTasks))
      /\ length (createdCards outcomes)
         + length (filter isFailure outcomes)
         = length (fst (parseTasksFromResponse threeTasks))
      /\ (fst (parseTasksFromResponse threeTasks) = [] ->
          HandleTicket partialEnv manager exampleCard [] =
          (Ok [], partialPrefix)).
Proof.
  split; [exact partialEnv_reaches|].
  exact (@HandleTicket_children partialEnv manager exampleCard []
           threeTasks (str "Doing") partialPrefix partialEnv_reaches).
Defined.

(** The run of the example: the second of three tickets fails to be
    created, the first and the third are returned. *)
Example HandleTicket_partial_run :
  fst (HandleTicket partialEnv manager exampleCard []) =
  Ok [trello.mkCard (str "new") (str "Add retry")
                    (str "Implement exponential backoff") (str "Doing") [];
      trello.mkCard (str "new") (str "Add metrics") [] (str "Doing") []].
Proof. vm_compute. reflexivity. Qed.

End CreationClaims.

(** * The claim about the guidance digest *)

Section GuidanceClaims.

(** C9.  When the IMPORTANT list, the board and its cards are read and no
    card is in that list, [LoadGuidanceTickets] returns no error and the
    three reads are all it does: no message goes to the language model.
    In every run, a message sent to the model comes after a successful
    read of the list and of the cards, among which at least one card is
    in that list. *)
Theorem LoadGuidanceTickets_empty_column (env : Env) (t : list event) :
  (forall listID cards,
      let t1 := t ++ [CallGetListIDByName (str "IMPORTANT") (Ok listID)] in
      let t2 := t1 ++ [CallGetBoard None] in
      GetListIDByName env t (str "IMPORTANT") = Ok listID ->
      GetBoard env t1 = None ->
      GetCards env t2 = Ok cards ->
      (forall card, In card cards -> trello.IDList card <> listID) ->
      LoadGuidanceTickets env t = (None, t2 ++ [CallGetCards (Ok cards)]))
  /\ (forall new messages r,
         snd (LoadGuidanceTickets env t) = t ++ new ->
         In (CallChatWithMessages messages r) new ->
         exists listID cards card,
           In (CallGetListIDByName (str "IMPORTANT") (Ok listID)) new
           /\ In (CallGetCards (Ok cards)) new
           /\ In card cards /\ trello.IDList card = listID).
Proof.
  split.
  - intros listID cards t1 t2 H1 H2 H3 Hnone. subst t1 t2.
    cbv [LoadGuidanceTickets tryWrap checkWrap bind call ret logPrintf emit
                             failWith Returns_error].
    rewrite H1. cbv beta iota. rewrite H2. cbv beta iota.
    rewrite H3. cbv beta iota.
    assert (E : gostring_eqb (guidanceLoop cards listID guidanceHeader)
                             guidanceHeader = true).
    { apply guidance_is_header, filter_nil_iff. intros card Hin.
      unfold inColumn. destruct (gostring_eqb _ _) eqn:G; [|reflexivity].
      apply gostring_eqb_eq in G. now apply Hnone in Hin. }
    now rewrite E.
  - intros new messages r.
    cbv [LoadGuidanceTickets tryWrap checkWrap bind call ret logPrintf emit
                             failWith Returns_error].
    destruct (GetListIDByName env t (str "IMPORTANT")) as [listID|e1];
      cbv beta iota.
    2:{ cbn [snd]. intros E. apply app_inv_head in E. subst new.
        intros [H|[]]; discriminate. }
    destruct (GetBoard env _) as [e2|]; cbv beta iota.
    { cbn [snd]. rewrite <- app_assoc. intros E.
      apply app_inv_head in E. subst new.
      intros [H|[H|[]]]; discriminate. }
    destruct (GetCards env _) as [cards|e3]; cbv beta iota.
    2:{ cbn [snd]. rewrite <- !app_assoc. intros E.
        apply app_inv_head in E. subst new.
        intros [H|[H|[H|[]]]]; discriminate. }
    destruct (gostring_eqb (guidanceLoop cards listID guidanceHeader)
                           guidanceHeader) eqn:G.
    { cbn [snd]. rewrite <- !app_assoc. intros E.
      apply app_inv_head in E. subst new.
      intros [H|[H|[H|[]]]]; discriminate. }
    assert (Hex : exists card, In card cards /\ trello.IDList card = listID).
    { destruct (filter (inColumn listID) cards) as [|card rest] eqn:F.
      - apply guidance_is_header in F. congruence.
      - assert (Hin : In card (filter (inColumn listID) cards))
          by (rewrite F; now left).
        apply filter_In in Hin. destruct Hin as [Hin Hc].
        exists card. split; [assumption|now apply gostring_eqb_eq]. }
    destruct Hex as [card [Hin Hc]].
    intros E _. exists listID, cards, card.
    assert (En : exists rest,
               new = CallGetListIDByName (str "IMPORTANT") (Ok listID)
                     :: CallGetBoard None :: CallGetCards (Ok cards) :: rest).
    { destruct (ChatWithMessages env _ _); cbn [snd] in E;
        rewrite <- !app_assoc in E; apply app_inv_head in E; subst new;
          eexists; reflexivity. }
    destruct En as [rest ->]. simpl. tauto.
Qed.

Lemma LoadGuidanceTickets_empty_column_witness :
  LoadGuidanceTickets noGuidanceEnv [] =
  (None,
   [CallGetListIDByName (str "IMPORTANT") (Ok (str "IMPORTANT"));
    CallGetBoard None; CallGetCards (Ok [exampleCard])]).
Proof.
  refine (proj1 (LoadGuidanceTickets_empty_column noGuidanceEnv [])
                (str "IMPORTANT") [exampleCard] _ _ _ _).
  - reflexivity.
  - reflexivity.
  - reflexivity.
  - intros card [<-|[]]. discriminate.
Defined.

End GuidanceClaims.

(** * The claim about the assignment scan *)

Section AssignmentClaims.

Lemma GetAssignedTickets_loop env a cards members t :
  stableBoard env cards members ->
  fst (GetAssignedTickets env a t) =
  fst (assignedLoop env a cards [] true
         ((t ++ [CallGetBoard None]) ++ [CallGetCards (Ok cards)])).
Proof.
  intros Hb. cbv [GetAssignedTickets checkWrap tryWrap bind call].
  destruct (Hb t) as [-> _].
  destruct (Hb (t ++ [CallGetBoard None])) as [_ [-> _]].
  reflexivity.
Qed.

(** C6.  On a board that holds [cards] and resolves member ids by
    [members], the tickets [GetAssignedTickets] returns are exactly the
    cards with at least one member id that resolves to a user name equal
    to the agent's name under case folding, in the order of the board: it
    returns no other list, and it returns this one whenever the refresh of
    the project context succeeds.  A card is in that list exactly when it
    is on the board and one of its member ids resolves to such a name;
    between ASCII names, equality under case folding is equality of the
    names with their upper-case letters mapped to lower case, so a name
    that differs from the agent's in anything but letter case does not
    match. *)
Theorem GetAssignedTickets_subset
        (env : Env) (a : AIAgent) (cards : list trello.Card)
        (members : gostring -> result trello.Member) (t : list event) :
  stableBoard env cards members ->
  (forall assigned,
      fst (GetAssignedTickets env a t) = Ok assigned ->
      assigned = filter (assignedToMe env a members) cards)
  /\ (refreshSucceeds env ->
      fst (GetAssignedTickets env a t)
      = Ok (filter (assignedToMe env a members) cards))
  /\ (forall card,
         In card (filter (assignedToMe env a members) cards) <->
         In card cards
         /\ exists memberID member,
             In memberID (trello.IDMembers card)
             /\ members memberID = Ok member
             /\ fold.EqualFold (foldOrbit env) (trello.Username member)
                               (Name a) = true)
  /\ (forall member,
         isASCII (trello.Username member) = true ->
         isASCII (Name a) = true ->
         (fold.EqualFold (foldOrbit env) (trello.Username member) (Name a)
          = true
          <-> foldKey (trello.Username member) = foldKey (Name a))).
Proof.
  intros Hb.
  assert (Hm : forall t' memberID,
             GetMember env t' memberID = members memberID).
  { intros t' memberID. now destruct (Hb t') as [_ [_ H]]. }
  split; [|split; [|split]].
  - intros assigned H.
    rewrite (@GetAssignedTickets_loop env a cards members t Hb) in H.
    now apply (@assignedLoop_subset env a members Hm) in H.
  - intros Hr. rewrite (@GetAssignedTickets_loop env a cards members t Hb).
    now rewrite (@assignedLoop_succeeds env a members Hm Hr).
  - intros card. rewrite filter_In. unfold assignedToMe.
    rewrite existsb_exists. unfold resolvesToMe. split.
    + intros [Hin [memberID [Hi Hr]]]. split; [assumption|].
      destruct (members memberID) as [member|e] eqn:E; [|discriminate].
      now exists memberID, member.
    + intros [Hin [memberID [member [Hi [E Hr]]]]]. split; [assumption|].
      exists memberID. split; [assumption|]. now rewrite E.
  - intros member Hu Hn. now apply EqualFold_ascii.
Qed.

Lemma teamEnv_stable : stableBoard teamEnv teamCards teamMembers.
Proof. intros t. repeat split. Defined.

Lemma teamEnv_refreshes : refreshSucceeds teamEnv.
Proof.
  intros t. split; [now exists []|].
  intros prompt. now exists (str "ok").
Defined.

Lemma GetAssignedTickets_subset_witness :
  stableBoard teamEnv teamCards teamMembers
  /\ refreshSucceeds teamEnv
  /\ fst (GetAssignedTickets teamEnv manager []) =
     Ok [trello.mkCard (str "c1") (str "Export report") [] (str "todo")
                       [str "m1"];
         trello.mkCard (str "c3") (str "Add audit log") [] (str "todo")
                       [str "m2"; str "m3"]].
Proof.
  split; [exact teamEnv_stable|]. split; [exact teamEnv_refreshes|].
  exact (proj1 (proj2 (@GetAssignedTickets_subset teamEnv manager teamCards
                         teamMembers [] teamEnv_stable))
               teamEnv_refreshes).
Defined.

End AssignmentClaims.

(** * The claim about the errors of the collaborators *)

Section ErrorClaims.




(** The run of the scan on [teamEnv]: the first and the third card are
    returned, although a call of [GetMember] failed. *)
Example GetAssignedTickets_team_run :
  fst (GetAssignedTickets teamEnv manager []) =
  Ok [trello.mkCard (str "c1") (str "Export report") [] (str "todo")
                    [str "m1"];
      trello.mkCard (str "c3") (str "Add audit log") [] (str "todo")
                    [str "m2"; str "m3"]]
  /\ In (CallGetMember (str "gone")
                       (Err (ErrorNew (str "member not found"))))
        (snd (GetAssignedTickets teamEnv manager [])).
Proof.
  split; [vm_compute; reflexivity|].
  vm_compute. repeat (try (left; reflexivity); right).
Qed.

End ErrorClaims.

(** * Properties of the reading of the working tree *)

Section WorkingTreeProperties.

Import gitrepo.

(** X1.  Every path and content [ReadAllFiles] returns is the relative
    path and the content of a file of the tree that is reached through
    directories none of which is named ".git": nothing from inside a
    ".git" directory is ever returned. *)
Theorem ReadAllFiles_only_visible
        (rootName : gostring) (root : entry) (m : filesMap)
        (k v : gostring) :
  ReadAllFiles rootName root = Ok m ->
  In (k, v) m ->
  exists names, visible rootName root names v /\ k = relPath names.
Proof.
  intros H Hin.
  destruct (readable rootName root) eqn:R.
  - rewrite (ReadAllFiles_readable _ _ R) in H. inversion H; subst m.
    apply collect_In in Hin. destruct Hin as [[]|[p [Hp ->]]].
    apply files_visible in Hp. destruct Hp as [rel [-> V]].
    now exists rel.
  - destruct (ReadAllFiles_unreadable _ _ R) as [e E]. congruence.
Qed.

Lemma exampleTree_read :
  ReadAllFiles (str "repo") exampleTree =
  Ok [(str "cmd/main.go", str "package main");
      (str "README.md", str "# agents")].
Proof. reflexivity. Defined.

Lemma ReadAllFiles_only_visible_witness :
  exists names,
    visible (str "repo") exampleTree names (str "package main")
    /\ str "cmd/main.go" = relPath names.
Proof.
  apply (@ReadAllFiles_only_visible (str "repo") exampleTree _
           (str "cmd/main.go") (str "package main") exampleTree_read).
  now left.
Defined.

(** X2.  When [ReadAllFiles] succeeds, the relative path of every file
    reached through directories not named ".git" is a key of the map it
    returns; when no two such files have the same relative path, the
    value at that key is the content of the file. *)
Theorem ReadAllFiles_complete
        (rootName : gostring) (root : entry) (m : filesMap)
        (names : list gostring) (data : gostring) :
  ReadAllFiles rootName root = Ok m ->
  visible rootName root names data ->
  (exists v, mapGet (relPath names) m = Some v)
  /\ (NoDup (map (fun file => relPath (fst file)) (files [] rootName root)) ->
      mapGet (relPath names) m = Some data).
Proof.
  intros H V.
  assert (Hin : In (names, data) (files [] rootName root)).
  { apply files_visible. now exists names. }
  destruct (readable rootName root) eqn:R.
  - rewrite (ReadAllFiles_readable _ _ R) in H. inversion H; subst m.
    split.
    + now apply (@mapGet_collect_key _ [] names data).
    + intros Hnd. now apply mapGet_collect_unique.
  - destruct (ReadAllFiles_unreadable _ _ R) as [e E]. congruence.
Qed.

Lemma exampleTree_visible :
  visible (str "repo") exampleTree [str "cmd"; str "main.go"]
          (str "package main").
Proof.
  unfold exampleTree.
  eapply visible_dir; [discriminate|right; right; left; reflexivity|].
  eapply visible_dir; [discriminate|left; reflexivity|].
  constructor.
Defined.

Lemma ReadAllFiles_complete_witness :
  mapGet (str "cmd/main.go")
         [(str "cmd/main.go", str "package main");
          (str "README.md", str "# agents")]
  = Some (str "package main").
Proof.
  refine (proj2 (@ReadAllFiles_complete (str "repo") exampleTree _
                   [str "cmd"; str "main.go"] (str "package main")
                   exampleTree_read exampleTree_visible) _).
  repeat constructor; simpl; intuition discriminate.
Defined.

(** X3.  [ReadAllFiles] is all or nothing: it returns an error, and no
    map, exactly when the walk can reach a file that fails to read, a
    directory whose names cannot be read or an entry that cannot be
    examined, through directories not named ".git"; errors inside a
    ".git" directory do not matter. *)
Theorem ReadAllFiles_all_or_nothing (rootName : gostring) (root : entry) :
  (damaged rootName root -> exists e, ReadAllFiles rootName root = Err e)
  /\ (~ damaged rootName root ->
      ReadAllFiles rootName root =
      Ok (collect (files [] rootName root) [])).
Proof.
  split.
  - intros D. apply readable_damaged in D.
    now apply ReadAllFiles_unreadable.
  - intros D. apply ReadAllFiles_readable.
    destruct (readable rootName root) eqn:R; [reflexivity|].
    apply readable_damaged in R. contradiction.
Qed.

Lemma damagedTree_damaged : damaged (str "repo") damagedTree.
Proof.
  unfold damagedTree.
  eapply damaged_child; [discriminate|right; left; reflexivity|].
  eapply damaged_child; [discriminate|left; reflexivity|].
  constructor.
Defined.

Lemma exampleTree_sound : ~ damaged (str "repo") exampleTree.
Proof. intros D. apply readable_damaged in D. discriminate D. Defined.

Lemma ReadAllFiles_all_or_nothing_witness :
  (damaged (str "repo") damagedTree
   /\ exists e, ReadAllFiles (str "repo") damagedTree = Err e)
  /\ (~ damaged (str "repo") exampleTree
      /\ ReadAllFiles (str "repo") exampleTree =
         Ok (collect (files [] (str "repo") exampleTree) [])).
Proof.
  split; split.
  - exact damagedTree_damaged.
  - exact (proj1 (ReadAllFiles_all_or_nothing (str "repo") damagedTree)
                 damagedTree_damaged).
  - exact exampleTree_sound.
  - exact (proj2 (ReadAllFiles_all_or_nothing (str "repo") exampleTree)
                 exampleTree_sound).
Defined.

End WorkingTreeProperties.

(** * Further properties of the reply poll *)

Section PollProperties.

Lemma sleepTotal_app t1 t2 :
  sleepTotal (t1 ++ t2) = (sleepTotal t1 + sleepTotal t2)%Z.
Proof.
  induction t1 as [|ev t1 IH]; [reflexivity|].
  destruct ev; simpl; rewrite IH; lia.
Qed.

Lemma pollRounds_shape card requiredTag : forall reads attempt,
  Forall (pollEvent card) (pollRounds card requiredTag attempt reads)
  /\ sleepTotal (pollRounds card requiredTag attempt reads)
     = (Z.of_nat (length reads) * pollInterval)%Z.
Proof.
  induction reads as [|comments rest IH]; intros attempt.
  - split; [constructor|reflexivity].
  - destruct (IH (attempt + 1)%Z) as [Hf Hs]. split.
    + cbn [pollRounds pollRound app]. repeat constructor. exact Hf.
    + cbn [pollRounds pollRound app sleepTotal length]. rewrite Hs. lia.
Qed.

(** X4.  Whatever the board answers, a run of [WaitForReply] only reads
    the comments of its card, logs and sleeps; it reads at most
    [maxAttempts] times, sleeps [pollInterval] after each read but a last
    one that ended the run, and so sleeps no longer than [maxAttempts]
    times [pollInterval] in all, one hundred minutes. *)
Theorem WaitForReply_bounded
        (env : Env) (card : trello.Card) (requiredTag : gostring)
        (t : list event) :
  exists new,
    snd (WaitForReply env card requiredTag t) = t ++ new
    /\ Forall (pollEvent card) new
    /\ countReads new <= maxAttempts
    /\ countSleeps new <= countReads new
    /\ sleepTotal new = (Z.of_nat (countSleeps new) * pollInterval)%Z
    /\ (sleepTotal new <= 6000 * 1000000000)%Z.
Proof.
  unfold WaitForReply.
  destruct (waitLoop_cases env card requiredTag maxAttempts 1 t)
    as [reads [_ [_ Hcases]]].
  cbv zeta in Hcases.
  destruct (pollRounds_shape card requiredTag reads 1) as [Hf Hs].
  destruct (pollRounds_counts card requiredTag reads 1) as [Hr Hsl].
  assert (Hi : pollInterval = 60000000000%Z) by reflexivity.
  assert (Hm : maxAttempts = 100) by reflexivity.
  destruct Hcases as [[Hl [cs [c [_ [_ E]]]]]|[[Hl [e [_ E]]]|[Hl E]]];
    rewrite E; cbn [snd].
  - exists (pollRounds card requiredTag 1 reads
            ++ [CallGetComments card (Ok cs)]).
    split; [now rewrite app_assoc|].
    split; [apply Forall_app; split; [exact Hf|now repeat constructor]|].
    rewrite countReads_app, countSleeps_app, sleepTotal_app, Hr, Hsl, Hs.
    cbn. lia.
  - exists (pollRounds card requiredTag 1 reads
            ++ [CallGetComments card (Err e)]).
    split; [now rewrite app_assoc|].
    split; [apply Forall_app; split; [exact Hf|now repeat constructor]|].
    rewrite countReads_app, countSleeps_app, sleepTotal_app, Hr, Hsl, Hs.
    cbn. lia.
  - exists (pollRounds card requiredTag 1 reads).
    split; [reflexivity|]. split; [exact Hf|].
    rewrite Hr, Hsl, Hs. lia.
Qed.

End PollProperties.

(** * Properties of the tagged comments *)

Section TaggedProperties.

Lemma taggedLoop_filter : forall comments tag acc,
  taggedLoop comments tag acc = acc ++ filter (tagged tag) comments.
Proof.
  induction comments as [|c rest IH]; intros tag acc.
  - simpl. now rewrite app_nil_r.
  - cbn [taggedLoop filter]. unfold tagged at 1.
    destruct (strings.Contains c tag).
    + rewrite IH. now rewrite <- app_assoc.
    + apply IH.
Qed.

Lemma find_filter {A} (f : A -> bool) : forall l,
  find f l = hd_error (filter f l).
Proof.
  induction l as [|x l IH]; [reflexivity|].
  simpl. destruct (f x); [reflexivity|exact IH].
Qed.

(** X5.  From a read of the comments that succeeds, [GetTaggedComments]
    returns exactly the comments that contain "@" followed by the agent's
    name, in the order of the board.  The first of them is the comment
    [WaitForReply] returns for that tag on the same board, after that one
    read; when there is none, [WaitForReply] logs and sleeps.  An error of
    the read is returned by [GetTaggedComments] as it is, not wrapped. *)
Theorem GetTaggedComments_agrees_with_poll
        (env : Env) (a : AIAgent) (card : trello.Card) (t : list event) :
  let tag := str "@" ++ Name a in
  match GetComments env t card with
  | Ok comments =>
    GetTaggedComments env a card t =
    (Ok (filter (tagged tag) comments),
     t ++ [CallGetComments card (Ok comments)])
    /\ (forall comment rest,
           filter (tagged tag) comments = comment :: rest ->
           WaitForReply env card tag t =
           (Ok comment, t ++ [CallGetComments card (Ok comments)]))
    /\ (filter (tagged tag) comments = [] ->
        WaitForReply env card tag t =
        waitLoop env (maxAttempts - 1) 2 card tag
                 (t ++ pollRound card tag 1 comments))
  | Err e =>
    GetTaggedComments env a card t =
    (Err e, t ++ [CallGetComments card (Err e)])
  end.
Proof.
  cbv zeta.
  destruct (GetComments env t card) as [comments|e] eqn:E.
  - split; [|split].
    + unfold GetTaggedComments, bind, ReadComments, call, ret.
      rewrite E. now rewrite taggedLoop_filter.
    + intros comment rest F. unfold WaitForReply.
      change maxAttempts with (S (maxAttempts - 1)).
      rewrite waitLoop_step, E, find_filter, F. reflexivity.
    + intros F. unfold WaitForReply.
      change maxAttempts with (S (maxAttempts - 1)) at 1.
      rewrite waitLoop_step, E, find_filter, F. reflexivity.
  - unfold GetTaggedComments, bind, ReadComments, call, ret.
    now rewrite E.
Qed.

Lemma GetTaggedComments_agrees_with_poll_witness :
  GetTaggedComments answeredEnv manager exampleCard [] =
  (Ok [str "Friday @manager"; str "No, Monday @manager"],
   [CallGetComments exampleCard
      (Ok [str "What is the deadline? @bogoego";
           str "Friday @manager"; str "No, Monday @manager"])])
  /\ WaitForReply answeredEnv exampleCard (str "@manager") [] =
     (Ok (str "Friday @manager"),
      [CallGetComments exampleCard
         (Ok [str "What is the deadline? @bogoego";
              str "Friday @manager"; str "No, Monday @manager"])]).
Proof.
  pose proof (GetTaggedComments_agrees_with_poll answeredEnv manager
                exampleCard []) as H.
  cbv zeta in H.
  change (GetComments answeredEnv [] exampleCard)
    with (Ok (A := list gostring)
              [str "What is the deadline? @bogoego";
               str "Friday @manager"; str "No, Monday @manager"]) in H.
  cbv beta iota in H.
  destruct H as [H1 [H2 _]]. split; [exact H1|].
  exact (H2 (str "Friday @manager") [str "No, Monday @manager"] eq_refl).
Defined.

End TaggedProperties.

(** * Properties of the construction of an agent *)

Section NewAgentProperties.

(** X6.  [NewBaseAgent] always sends the purpose to the model as a system
    message, after the loading of the guidance whatever its outcome, and
    the answer to that message alone decides what it returns: the agent
    when the message is accepted, the error of the message wrapped
    otherwise.  A failure to load the guidance adds a warning to the log
    and nothing else. *)
Theorem NewBaseAgent_outcome
        (env : Env) (name purpose : gostring) (t : list event) :
  let messages := [chatgpt.mkMessage (str "system") purpose] in
  exists loaded pre,
    snd (LoadGuidanceTickets env t) = t ++ loaded
    /\ match fst (LoadGuidanceTickets env t) with
       | None => pre = loaded
       | Some err =>
         pre = loaded
               ++ [LogPrintf
                     (str "Warning: Failed to load guidance tickets for agent %s: %v")
                     [ArgString name; ArgError err]]
       end
    /\ match ChatWithMessages env (t ++ pre) messages with
       | Ok reply =>
         NewBaseAgent env name purpose t =
         (Ok (mkAgent name purpose),
          t ++ pre
            ++ [CallChatWithMessages messages (Ok reply);
                LogPrintf (str "Agent %s initialized with purpose: %s")
                          [ArgString name; ArgString purpose]])
       | Err e =>
         NewBaseAgent env name purpose t =
         (Err (ErrorWrap (str "failed to set purpose: ") e),
          t ++ pre
            ++ [CallChatWithMessages messages (Err e);
                LogPrintf (str "Failed to set purpose for agent %s: %v")
                          [ArgString name; ArgError e]])
       end.
Proof.
  cbv zeta.
  destruct (tidy_LoadGuidanceTickets noEvent env t) as [loaded [Hs _]].
  exists loaded.
  unfold NewBaseAgent, bind.
  destruct (LoadGuidanceTickets env t) as [guidance t1].
  cbn [snd fst] in *. subst t1.
  destruct guidance as [err|].
  - eexists. split; [reflexivity|]. split; [reflexivity|].
    unfold logPrintf, emit, call, ret. rewrite <- !app_assoc.
    destruct (ChatWithMessages env _ _); cbn [app];
      rewrite <- ?app_assoc; reflexivity.
  - exists loaded. split; [reflexivity|]. split; [reflexivity|].
    unfold logPrintf, emit, call, ret.
    destruct (ChatWithMessages env _ _); cbn [app];
      rewrite <- ?app_assoc; reflexivity.
Qed.

(** With a board that cannot be reached and a model that answers, the
    agent is made all the same. *)
Example NewBaseAgent_offline_board :
  fst (NewBaseAgent offlineBoardEnv (str "manager") (str "decompose") [])
  = Ok (mkAgent (str "manager") (str "decompose")).
Proof. reflexivity. Qed.

End NewAgentProperties.

(** * Properties of the assignment of a ticket *)

Section AssignProperties.

(** X7.  [AssignTicketToAgent] changes the assignment of no card but its
    own and to no member but the one the lookup by name returned.  When
    the lookup returns no member it fails without touching the card, with
    an error that wraps the error of the lookup, or that wraps nothing
    when the lookup gave none.  It succeeds exactly when the lookup
    returned a member and the assignment of that member succeeded: an
    error the lookup returned along with a member is ignored. *)
Theorem AssignTicketToAgent_assigns_found_member
        (wenv : WriteEnv) (card : trello.Card) (agentName : gostring)
        (t : list writeEvent) :
  let run := AssignTicketToAgent wenv card agentName t in
  let lookup :=
    CallGetMemberByName agentName (GetMemberByName wenv t agentName) in
  exists new,
    snd run = t ++ lookup :: new
    /\ (forall card' memberID r,
           In (CallAssignMember card' memberID r) new ->
           card' = card
           /\ exists member err,
               GetMemberByName wenv t agentName = (Some member, err)
               /\ memberID = trello.MemberID member)
    /\ (forall err,
           GetMemberByName wenv t agentName = (None, err) ->
           new = []
           /\ fst run =
              Some (errorfW (str "failed to find an agent " ++ agentName
                             ++ str ": ") err))
    /\ (fst run = None <->
        exists member err,
          GetMemberByName wenv t agentName = (Some member, err)
          /\ AssignMember wenv (t ++ [lookup]) card (trello.MemberID member)
             = None).
Proof.
  cbv zeta. unfold AssignTicketToAgent.
  destruct (GetMemberByName wenv t agentName) as [[member|] err] eqn:E.
  - destruct (AssignMember wenv _ card (trello.MemberID member))
      as [err'|] eqn:A.
    + eexists. split; [cbn [snd]; rewrite <- app_assoc; reflexivity|].
      split; [|split; [discriminate|]].
      * intros card' memberID r [H|[]]. inversion H; subst.
        split; [reflexivity|]. now exists member, err.
      * cbn [fst]. split; [discriminate|].
        intros [member' [err0 [H1 H2]]]. inversion H1; subst. congruence.
    + eexists. split; [cbn [snd]; rewrite <- app_assoc; reflexivity|].
      split; [|split; [discriminate|]].
      * intros card' memberID r [H|[]]. inversion H; subst.
        split; [reflexivity|]. now exists member, err.
      * cbn [fst]. split; [|reflexivity]. intros _. now exists member, err.
  - exists []. split; [reflexivity|].
    split; [intros ? ? ? []|]. split.
    + intros err0 H. inversion H; subst. now split.
    + cbn [fst]. split; [discriminate|].
      intros [member [err0 [H _]]]. discriminate H.
Qed.

Lemma AssignTicketToAgent_assigns_found_member_witness :
  AssignTicketToAgent staleLookupEnv exampleCard (str "dev") [] =
  (None,
   [CallGetMemberByName
      (str "dev")
      (Some (trello.mkMember (str "m2") (str "dev")),
       Some (ErrorNew (str "served from cache")));
    CallAssignMember exampleCard (str "m2") None])
  /\ fst (AssignTicketToAgent staleLookupEnv exampleCard (str "nobody") [])
     = Some (ErrorNew (str "failed to find an agent nobody: %!w(<nil>)")).
Proof.
  split; [reflexivity|].
  destruct (AssignTicketToAgent_assigns_found_member
              staleLookupEnv exampleCard (str "nobody") [])
    as [new [_ [_ [H _]]]].
  exact (proj2 (H None eq_refl)).
Defined.

End AssignProperties.

(** * Further properties of the parser and of [HandleTicket] *)

Section HandleProperties.

(** X8.  Every task the parser returns has a title of one line, without a
    newline, that starts with a rune that is not white space, and a
    description that is empty or starts with such a rune. *)
Theorem parse_fields_trimmed (response : gostring) (task : Task) :
  In task (fst (parseTasksFromResponse response)) ->
  ~ In nl (Title task)
  /\ headNonSpace (Title task) = true
  /\ (Description task = [] \/ headNonSpace (Description task) = true).
Proof.
  unfold parseTasksFromResponse. cbn [fst].
  rewrite parseTaskBlocks_filter. cbn [app]. intros Hin.
  apply in_map_iff in Hin. destruct Hin as [segment [<- Hin]].
  apply filter_In in Hin. destruct Hin as [_ Hwf].
  split; [|split].
  - unfold taskOfSegment. cbn [Title]. intros Hnl.
    apply TrimSpace_incl in Hnl. revert Hnl. apply first_line_no_newline.
  - now apply taskOfSegment_title.
  - unfold taskOfSegment. cbn [Description]. apply TrimSpace_head.
Qed.

Lemma parse_fields_trimmed_witness :
  ~ In nl (str "Add cache")
  /\ headNonSpace (str "Add cache") = true
  /\ (str "Cache the report for one hour" = []
      \/ headNonSpace (str "Cache the report for one hour") = true).
Proof.
  apply (@parse_fields_trimmed threeTasks
           (mkTask (str "Add cache") (str "Cache the report for one hour"))).
  vm_compute. right; left; reflexivity.
Defined.

(** X9.  In every run of [HandleTicket], a run that returns an error has
    created no ticket; and every ticket the run asks the board to create
    has a title that is not empty and holds no newline, and goes to the
    list the lookup of "Doing" returned in that run. *)
Theorem HandleTicket_creates_only_on_success
        (env : Env) (a : AIAgent) (card : trello.Card) (t : list event) :
  exists new,
    snd (HandleTicket env a card t) = t ++ new
    /\ (forall err,
           fst (HandleTicket env a card t) = Err err ->
           creationCalls new = [])
    /\ (forall title description listID,
           In (title, description, listID) (creationCalls new) ->
           title <> [] /\ ~ In nl title
           /\ In (CallGetListIDByName (str "Doing") (Ok listID)) new
           /\ exists cards, fst (HandleTicket env a card t) = Ok cards).
Proof.
  destruct (HandleTicket_cases env a card t)
    as [[response [listID [t' Hreach]]]|[err [pre [Hrun Hnone]]]].
  - destruct (HandleTicket_run Hreach) as [outcomes [Ha Hrun]].
    destruct (reachesCreation_prefix Hreach) as [pre [-> [Hnone Hdoing]]].
    pose proof (creationAnswers_length _ _ _ _ _ Ha) as Hl.
    exists (pre ++ creationTrace listID
                     (fst (parseTasksFromResponse response)) outcomes).
    rewrite Hrun. cbn [fst snd].
    split; [now rewrite app_assoc|]. split; [discriminate|].
    intros title description listID'.
    rewrite creationCalls_app, Hnone, creationCalls_trace by assumption.
    cbn [app]. intros Hin. apply in_map_iff in Hin.
    destruct Hin as [task [E Hin]]. inversion E; subst.
    destruct (parse_tasks_fields _ _ Hin) as [Hnl [Hhead _]].
    split; [now apply headNonSpace_nonempty|].
    split; [assumption|].
    split; [apply in_or_app; now left|now eexists].
  - exists pre. rewrite Hrun. cbn [fst snd].
    split; [reflexivity|]. split; [intros _ _; exact Hnone|].
    rewrite Hnone. intros ? ? ? [].
Qed.

Lemma HandleTicket_creates_only_on_success_witness :
  exists new,
    snd (HandleTicket partialEnv manager exampleCard []) = [] ++ new
    /\ (forall err,
           fst (HandleTicket partialEnv manager exampleCard []) = Err err ->
           creationCalls new = [])
    /\ (forall title description listID,
           In (title, description, listID) (creationCalls new) ->
           title <> [] /\ ~ In nl title
           /\ In (CallGetListIDByName (str "Doing") (Ok listID)) new
           /\ exists cards,
               fst (HandleTicket partialEnv manager exampleCard [])
               = Ok cards).
Proof.
  exact (HandleTicket_creates_only_on_success partialEnv manager
                                              exampleCard []).
Defined.

End HandleProperties.

(** * Further properties of the assignment scan *)

Section ScanProperties.

Variable env : Env.
Variable a : AIAgent.

Lemma countRepositoryReads_app t1 t2 :
  countRepositoryReads (t1 ++ t2)
  = countRepositoryReads t1 + countRepositoryReads t2.
Proof. unfold countRepositoryReads. now rewrite filter_app, length_app. Qed.

Lemma belongsToMeLoop_reads_nothing : forall memberIDs t,
  exists new,
    snd (belongsToMeLoop env a memberIDs t) = t ++ new
    /\ countRepositoryReads new = 0.
Proof.
  induction memberIDs as [|memberID rest IH]; intros t.
  - exists []. split; [simpl; now rewrite app_nil_r|reflexivity].
  - cbn [belongsToMeLoop]. unfold bind, call.
    set (r := GetMember env t memberID).
    destruct (IH (t ++ [CallGetMember memberID r])) as [new [Hs Hc]].
    destruct r as [member|e].
    + destruct (fold.EqualFold _ _ _).
      * eexists. split; [reflexivity|reflexivity].
      * exists ([CallGetMember memberID (Ok member)] ++ new).
        split; [rewrite Hs; now rewrite app_assoc|].
        now rewrite countRepositoryReads_app, Hc.
    + exists ([CallGetMember memberID (Err e)] ++ new).
      split; [rewrite Hs; now rewrite app_assoc|].
      now rewrite countRepositoryReads_app, Hc.
Qed.

Lemma RefreshProjectContext_reads_once t :
  exists new,
    snd (RefreshProjectContext env t) = t ++ new
    /\ countRepositoryReads new = 1.
Proof.
  cbv [RefreshProjectContext tryWrap bind call ret ReadAllGitFiles failWith
                             Returns_error].
  destruct (ReadAllFiles env t) as [files|e].
  - destruct (Chat env _ _); eexists;
      (split; [cbn [snd]; rewrite <- app_assoc; reflexivity|reflexivity]).
  - eexists. split; reflexivity.
Qed.

Lemma assignedLoop_refreshes : forall cards assigned need t,
  exists new,
    snd (assignedLoop env a cards assigned need t) = t ++ new
    /\ match fst (assignedLoop env a cards assigned need t) with
       | Ok result =>
         exists chosen,
           result = assigned ++ chosen
           /\ countRepositoryReads new
              = if need then match chosen with [] => 0 | _ :: _ => 1 end
                else 0
       | Err _ => need = true /\ countRepositoryReads new = 1
       end.
Proof.
  induction cards as [|card rest IH]; intros assigned need t.
  - exists []. split; [simpl; now rewrite app_nil_r|].
    simpl. exists []. split; [now rewrite app_nil_r|now destruct need].
  - rewrite assignedLoop_step. unfold TicketBelongsToMe.
    destruct (belongsToMeLoop_reads_nothing (trello.IDMembers card) t)
      as [new1 [Hs1 Hc1]].
    destruct (belongsToMeLoop env a (trello.IDMembers card) t) as [mine t1].
    cbn [snd] in Hs1. subst t1.
    destruct mine.
    + destruct need.
      * destruct (RefreshProjectContext_reads_once (t ++ new1))
          as [new2 [Hs2 Hc2]].
        destruct (RefreshProjectContext env (t ++ new1)) as [[err|] t2];
          cbn [snd] in Hs2; subst t2.
        -- exists (new1 ++ new2). cbn [fst snd].
           split; [now rewrite app_assoc|]. split; [reflexivity|].
           rewrite countRepositoryReads_app. lia.
        -- destruct (IH (assigned ++ [card]) false ((t ++ new1) ++ new2))
             as [new3 [Hs3 Hm]].
           exists (new1 ++ new2 ++ new3).
           split; [rewrite Hs3; now rewrite !app_assoc|].
           destruct (fst (assignedLoop env a rest (assigned ++ [card]) false
                            ((t ++ new1) ++ new2))) as [result|e].
           ++ destruct Hm as [chosen [-> Hc3]].
              exists (card :: chosen).
              split; [now rewrite <- app_assoc|].
              rewrite !countRepositoryReads_app. lia.
           ++ destruct Hm as [Hf _]. discriminate Hf.
      * destruct (IH (assigned ++ [card]) false (t ++ new1))
          as [new3 [Hs3 Hm]].
        exists (new1 ++ new3).
        split; [rewrite Hs3; now rewrite app_assoc|].
        destruct (fst (assignedLoop env a rest (assigned ++ [card]) false
                         (t ++ new1))) as [result|e].
        -- destruct Hm as [chosen [-> Hc3]].
           exists (card :: chosen).
           split; [now rewrite <- app_assoc|].
           rewrite countRepositoryReads_app. lia.
        -- destruct Hm as [Hf _]. discriminate Hf.
    + destruct (IH assigned need (t ++ new1)) as [new3 [Hs3 Hm]].
      exists (new1 ++ new3).
      split; [rewrite Hs3; now rewrite app_assoc|].
      destruct (fst (assignedLoop env a rest assigned need (t ++ new1)))
        as [result|e].
      * destruct Hm as [chosen [-> Hc3]]. exists chosen.
        split; [reflexivity|]. rewrite countRepositoryReads_app. lia.
      * destruct Hm as [Hf Hc3]. split; [assumption|].
        rewrite countRepositoryReads_app. lia.
Qed.

(** X10.  A scan of the board by [GetAssignedTickets] reads the
    repository at most once: not at all when it returns no ticket, and
    exactly once when it returns some. *)
Theorem GetAssignedTickets_refreshes_once (t : list event) :
  exists new,
    snd (GetAssignedTickets env a t) = t ++ new
    /\ countRepositoryReads new <= 1
    /\ (forall assigned,
           fst (GetAssignedTickets env a t) = Ok assigned ->
           countRepositoryReads new
           = match assigned with [] => 0 | _ :: _ => 1 end).
Proof.
  cbv [GetAssignedTickets checkWrap tryWrap bind call ret failWith
                          Returns_result].
  destruct (GetBoard env t) as [e|].
  { eexists. split; [reflexivity|].
    split; [cbv; lia|cbn [fst]; discriminate]. }
  destruct (GetCards env _) as [cards|e].
  2:{ eexists. split; [cbn [snd]; rewrite <- app_assoc; reflexivity|].
      split; [cbv; lia|cbn [fst]; discriminate]. }
  destruct (assignedLoop_refreshes cards [] true
              ((t ++ [CallGetBoard None]) ++ [CallGetCards (Ok cards)]))
    as [new [Hs Hm]].
  exists ([CallGetBoard None] ++ [CallGetCards (Ok cards)] ++ new).
  split; [rewrite Hs; now rewrite !app_assoc|].
  rewrite !countRepositoryReads_app.
  change (countRepositoryReads [CallGetBoard None]) with 0.
  change (countRepositoryReads [CallGetCards (Ok cards)]) with 0.
  destruct (fst (assignedLoop env a cards [] true _)) as [result|e].
  - destruct Hm as [chosen [-> Hc]]. cbn [app] in *.
    split; [destruct chosen; lia|].
    intros assigned H. inversion H; subst. destruct assigned; lia.
  - destruct Hm as [_ Hc]. split; [lia|discriminate].
Qed.

End ScanProperties.

Lemma GetAssignedTickets_refreshes_once_witness :
  exists new,
    snd (GetAssignedTickets teamEnv manager []) = [] ++ new
    /\ countRepositoryReads new <= 1
    /\ (forall assigned,
           fst (GetAssignedTickets teamEnv manager []) = Ok assigned ->
           countRepositoryReads new
           = match assigned with [] => 0 | _ :: _ => 1 end).
Proof. exact (GetAssignedTickets_refreshes_once teamEnv manager []). Defined.

(** * Properties of what is sent to the model and to the board *)

Section ContextProperties.

Import strings.

(** A string contains each of its substrings. *)
Lemma Contains_app : forall a x b, Contains (a ++ x ++ b) x = true.
Proof.
  unfold Contains. induction a as [|c a IH]; intros x b.
  - cbn [app]. rewrite Index_eq, HasPrefix_app. reflexivity.
  - cbn [app]. rewrite Index_eq.
    destruct (HasPrefix (c :: a ++ x ++ b) x); [reflexivity|].
    specialize (IH x b). destruct (Index (a ++ x ++ b) x); [reflexivity|].
    discriminate IH.
Qed.

Lemma Contains_decomposed s a x b :
  s = a ++ x ++ b -> Contains s x = true.
Proof. intros ->. apply Contains_app. Qed.



(** X12.  When the model answers, [RespondToClarification] posts one
    comment on the ticket, which contains the answer and "@" followed by
    the name of the backend agent: among the comments of a board that
    holds it, [GetTaggedComments] of an agent of that name returns it.
    The answer is returned when the comment is posted.  When the model
    fails nothing is posted. *)
Theorem RespondToClarification_addresses_backend
        (env : Env) (ticket : trello.Card)
        (clarificationRequest backendName : gostring) (t : list event) :
  let prompt :=
    str "Provide a detailed clarification for the following request from the developer agent. Always answer questions, don't ask them. Remember - your vision is the source of all engineering truth of the project. Here is the question from the engineer: "
    ++ clarificationRequest in
  match Chat env t prompt with
  | Ok clarification =>
    let comment :=
      str "Response: " ++ clarification ++ str " @" ++ backendName in
    let t1 := t ++ [CallChat prompt (Ok clarification)] in
    Contains comment (str "@" ++ backendName) = true
    /\ Contains comment clarification = true
    /\ (forall comments,
           In comment comments ->
           In comment (taggedLoop comments (str "@" ++ backendName) []))
    /\ RespondToClarification env ticket clarificationRequest backendName t
       = (match PostComment env t1 ticket comment with
          | None => Ok clarification
          | Some err =>
            Err (ErrorWrap (str "failed to post clarification response: ")
                           err)
          end,
          t1 ++ [CallPostComment ticket comment
                                 (PostComment env t1 ticket comment)])
  | Err e =>
    RespondToClarification env ticket clarificationRequest backendName t
    = (Err (ErrorWrap (str "failed to generate clarification: ") e),
       t ++ [CallChat prompt (Err e)])
  end.
Proof.
  cbv zeta.
  cbv [RespondToClarification tryWrap checkWrap bind call ret WriteComment
                              failWith Returns_result].
  destruct (Chat env t _) as [clarification|e]; [|reflexivity].
  assert (Htag : Contains (str "Response: " ++ clarification ++ str " @"
                           ++ backendName) (str "@" ++ backendName) = true).
  { apply Contains_decomposed
      with (a := str "Response: " ++ clarification ++ str " ") (b := []).
    rewrite app_nil_r, <- !app_assoc. reflexivity. }
  split; [exact Htag|]. split.
  { apply Contains_decomposed
      with (a := str "Response: ") (b := str " @" ++ backendName).
    reflexivity. }
  split.
  - intros comments Hin. rewrite taggedLoop_filter. cbn [app].
    apply filter_In. split; [assumption|exact Htag].
  - destruct (PostComment env _ ticket _); reflexivity.
Qed.

Lemma RespondToClarification_addresses_backend_witness :
  Contains (str "Response: " ++ str "ok" ++ str " @" ++ str "dev")
           (str "@" ++ str "dev") = true
  /\ RespondToClarification twoFilesEnv exampleCard (str "Which format?")
                            (str "dev") []
     = (Ok (str "ok"),
        [CallChat
           (str "Provide a detailed clarification for the following request from the developer agent. Always answer questions, don't ask them. Remember - your vision is the source of all engineering truth of the project. Here is the question from the engineer: "
            ++ str "Which format?") (Ok (str "ok"));
         CallPostComment exampleCard (str "Response: ok @dev") None]).
Proof.
  pose proof (RespondToClarification_addresses_backend
                twoFilesEnv exampleCard (str "Which format?") (str "dev") [])
    as H.
  cbv zeta in H.
  change (Chat twoFilesEnv [] _) with (Ok (A := gostring) (str "ok")) in H.
  cbv beta iota in H.
  destruct H as [H1 [_ [_ H4]]]. split; [exact H1|exact H4].
Defined.

(** X13.  When the IMPORTANT list, the board and its cards are read and
    some card is in that list, [LoadGuidanceTickets] sends the model one
    system message: the header followed by the title and the details of
    each card of the list, in the order of the board, and of no other
    card. *)
Theorem LoadGuidanceTickets_sends_column
        (env : Env) (t : list event) (listID : gostring)
        (cards : list trello.Card) :
  let t1 := t ++ [CallGetListIDByName (str "IMPORTANT") (Ok listID)] in
  let t2 := t1 ++ [CallGetBoard None] in
  let t3 := t2 ++ [CallGetCards (Ok cards)] in
  let messages :=
    [chatgpt.mkMessage
       (str "system")
       (guidanceHeader
        ++ List.concat (map guidanceBlock (filter (inColumn listID) cards)))] in
  GetListIDByName env t (str "IMPORTANT") = Ok listID ->
  GetBoard env t1 = None ->
  GetCards env t2 = Ok cards ->
  (exists card, In card cards /\ trello.IDList card = listID) ->
  LoadGuidanceTickets env t =
  match ChatWithMessages env t3 messages with
  | Ok reply =>
    (None,
     t3 ++ [CallChatWithMessages messages (Ok reply);
            LogPrintf (str "Guidance tickets sent to GPT client.") []])
  | Err e =>
    (Some (ErrorWrap (str "failed to update GPT guidance context: ") e),
     t3 ++ [CallChatWithMessages messages (Err e)])
  end.
Proof.
  cbv zeta. intros H1 H2 H3 [card [Hin Hc]].
  cbv [LoadGuidanceTickets tryWrap checkWrap bind call ret logPrintf emit
                           failWith Returns_error].
  rewrite H1. cbv beta iota. rewrite H2. cbv beta iota.
  rewrite H3. cbv beta iota.
  destruct (gostring_eqb (guidanceLoop cards listID guidanceHeader)
                         guidanceHeader) eqn:G.
  { apply guidance_is_header in G.
    assert (Hf : In card (filter (inColumn listID) cards)).
    { apply filter_In. split; [assumption|]. now apply gostring_eqb_eq. }
    rewrite G in Hf. destruct Hf. }
  rewrite guidanceLoop_filter.
  destruct (ChatWithMessages env _ _); [|reflexivity].
  now rewrite <- app_assoc.
Qed.

Lemma LoadGuidanceTickets_sends_column_witness :
  LoadGuidanceTickets guidanceEnv [] =
  (None,
   [CallGetListIDByName (str "IMPORTANT") (Ok (str "IMPORTANT"));
    CallGetBoard None; CallGetCards (Ok guidanceCards);
    CallChatWithMessages
      [chatgpt.mkMessage
         (str "system")
         (str "Guidance Tickets:" ++ [nl]
          ++ str "Title: Style" ++ [nl] ++ str "Details: Use gofmt"
          ++ [nl; nl]
          ++ str "Title: Tests" ++ [nl]
          ++ str "Details: Cover every handler" ++ [nl; nl])]
      (Ok (str "ok"));
    LogPrintf (str "Guidance tickets sent to GPT client.") []]).
Proof.
  refine (@LoadGuidanceTickets_sends_column guidanceEnv [] (str "IMPORTANT")
            guidanceCards _ _ _ _).
  - reflexivity.
  - reflexivity.
  - reflexivity.
  - eexists. split; [left; reflexivity|reflexivity].
Defined.

End ContextProperties.

(** * The parser reads back what the prompt asks for *)

Section RoundTrip.

Import strings.

(** X14.  A response written as the prompt of [HandleTicket] asks for it
    parses back to the tasks it was written from: for tasks with a title
    of one line, title, description and text without white space to trim,
    and no line that starts with '@', the parser applied to their texts
    joined by the delimiter returns exactly these tasks, in order. *)
Theorem parse_render_roundtrip (tasks : list Task) :
  Forall readableTask tasks ->
  parseTasksFromResponse (renderTasks tasks) = (tasks, None).
Proof.
  intros Hall. unfold parseTasksFromResponse, renderTasks. f_equal.
  destruct tasks as [|task rest]; [reflexivity|].
  rewrite Split_Join_delimiter.
  - rewrite parseTaskBlocks_filter. cbn [app].
    induction Hall as [|t ts Ht Hts IH]; [reflexivity|].
    destruct (taskOfSegment_taskBlock Ht) as [Hwf Heq].
    cbn [map filter]. rewrite Hwf. cbn [map]. now rewrite Heq, IH.
  - discriminate.
  - apply Forall_forall. intros b Hb. apply in_map_iff in Hb.
    destruct Hb as [t [<- Hin]].
    rewrite Forall_forall in Hall. now destruct (Hall t Hin) as [_ [_ [_ [_ [_ H]]]]].
Qed.

Lemma threeParsedTasks_readable : Forall readableTask threeParsedTasks.
Proof.
  repeat constructor; try discriminate; try reflexivity;
    cbn [Title]; intros H;
      repeat (destruct H as [H|H]; [discriminate H|]); exact H.
Defined.

Lemma parse_render_roundtrip_witness :
  Forall readableTask threeParsedTasks
  /\ renderTasks threeParsedTasks = threeTasks
  /\ parseTasksFromResponse threeTasks = (threeParsedTasks, None).
Proof.
  split; [exact threeParsedTasks_readable|]. split; [reflexivity|].
  exact (@parse_render_roundtrip threeParsedTasks threeParsedTasks_readable).
Defined.

End RoundTrip.

(** * The reply is recognised by its tag alone *)

Section SelfReply.

(** X15.  [HandleTicket] recognises the reply by the tag alone.  When the
    comment it posted, the clarifications followed by "@bogoego",
    contains "@" followed by the agent's own name, and is the first
    tagged comment the board returns at the first read, [WaitForReply]
    returns this comment at once, and [HandleTicket] hands the agent's own
    question to the model as the reply, without any sleep. *)
Theorem HandleTicket_takes_own_question
        (env : Env) (a : AIAgent) (card : trello.Card) (t : list event)
        (clarifications : gostring) (comments : list gostring) :
  let prompt := clarificationPrompt card in
  let comment := clarifications ++ [nl] ++ str "@bogoego" in
  let tag := str "@" ++ Name a in
  let t1 := t ++ [CallChat prompt (Ok clarifications)] in
  let t2 := t1 ++ [CallPostComment card comment None;
                   LogPrintf (str "Posted clarifications on ticket %s")
                             [ArgString (trello.ID card)]] in
  Chat env t prompt = Ok clarifications ->
  PostComment env t1 card comment = None ->
  GetComments env t2 card = Ok comments ->
  find (tagged tag) comments = Some comment ->
  WaitForReply env card tag t2 =
  (Ok comment, t2 ++ [CallGetComments card (Ok comments)])
  /\ exists r rest,
      snd (HandleTicket env a card t) =
      t2 ++ [CallGetComments card (Ok comments);
             LogPrintf (str "Received reply: %s") [ArgString comment];
             CallChat (comment ++ [nl] ++ replyPrompt) r] ++ rest.
Proof.
  cbv zeta. intros H1 H2 H3 H4.
  assert (HW : WaitForReply env card (str "@" ++ Name a)
                 ((t ++ [CallChat (clarificationPrompt card)
                                  (Ok clarifications)])
                  ++ [CallPostComment card
                        (clarifications ++ [nl] ++ str "@bogoego") None;
                      LogPrintf (str "Posted clarifications on ticket %s")
                                [ArgString (trello.ID card)]])
               = (Ok (clarifications ++ [nl] ++ str "@bogoego"),
                  ((t ++ [CallChat (clarificationPrompt card)
                                   (Ok clarifications)])
                   ++ [CallPostComment card
                         (clarifications ++ [nl] ++ str "@bogoego") None;
                       LogPrintf (str "Posted clarifications on ticket %s")
                                 [ArgString (trello.ID card)]])
                  ++ [CallGetComments card (Ok comments)])).
  { unfold WaitForReply. change maxAttempts with (S (maxAttempts - 1)).
    now rewrite waitLoop_step, H3, H4. }
  split; [exact HW|].
  cbv [HandleTicket tryWrap checkWrap bind call WriteComment logPrintf
                    emit ret failWith Returns_result].
  rewrite H1. cbv beta iota. rewrite H2. cbv beta iota.
  rewrite <- !app_assoc. rewrite <- !app_assoc in HW. cbn [app] in *.
  rewrite HW. cbv beta iota.
  match goal with
  | |- context [Chat env ?t4 ?p] =>
    set (r := Chat env t4 p); exists r; clearbody r
  end.
  destruct r as [response|e4].
  2:{ exists []. cbn [snd app]. rewrite <- !app_assoc. reflexivity. }
  unfold parseTasksFromResponse. cbv beta iota.
  destruct (GetListIDByName env _ (str "Doing")) as [listID|e5].
  2:{ exists [CallGetListIDByName (str "Doing") (Err e5)].
      cbn [snd]. rewrite <- !app_assoc. reflexivity. }
  match goal with
  | |- context [createLoop env ?tasks ?l ?c ?t6] =>
    destruct (createLoop_run env tasks l c t6) as [outcomes [_ Hrun]];
      rewrite Hrun;
      exists (CallGetListIDByName (str "Doing") (Ok listID)
              :: creationTrace l tasks outcomes)
  end.
  cbn [snd]. rewrite <- !app_assoc. reflexivity.
Qed.

Lemma HandleTicket_takes_own_question_witness :
  WaitForReply ownQuestionEnv exampleCard (str "@" ++ Name bogo)
    ([CallChat (clarificationPrompt exampleCard) (Ok threeTasks)]
     ++ [CallPostComment exampleCard (threeTasks ++ [nl] ++ str "@bogoego")
                         None;
         LogPrintf (str "Posted clarifications on ticket %s")
                   [ArgString (trello.ID exampleCard)]])
  = (Ok (threeTasks ++ [nl] ++ str "@bogoego"),
     ([CallChat (clarificationPrompt exampleCard) (Ok threeTasks)]
      ++ [CallPostComment exampleCard (threeTasks ++ [nl] ++ str "@bogoego")
                          None;
          LogPrintf (str "Posted clarifications on ticket %s")
                    [ArgString (trello.ID exampleCard)]])
     ++ [CallGetComments exampleCard
           (Ok [threeTasks ++ [nl] ++ str "@bogoego"])]).
Proof.
  refine (proj1 (@HandleTicket_takes_own_question ownQuestionEnv bogo
                   exampleCard [] threeTasks
                   [threeTasks ++ [nl] ++ str "@bogoego"] _ _ _ _)).
  - reflexivity.
  - reflexivity.
  - reflexivity.
  - vm_compute. reflexivity.
Defined.

End SelfReply.
